(** * Neural-network visualizer: the numeric training engine

    A shallow embedding of
    [frontend/src/components/neural-network/NeuralNetworkCompute.tsx]
    and theorems about it.

    Numbers.  A JavaScript number is modelled as a real number ([Num r])
    or as [NaN]; rounding, overflow and the two infinities are outside
    the model.  Reading a missing array slot yields [Undefined], and
    [JSON.parse (JSON.stringify x)] turns non-finite slots into [Null];
    both are kept as values because the arithmetic of the source treats
    them differently ([undefined] becomes [NaN], [null] becomes [0]). *)

From Stdlib Require Import Reals Lra Lia.
From stdpp Require Import base option list gmap strings pretty sorting.

Local Open Scope R_scope.

(** ** Values and arithmetic *)

Inductive value : Type :=
| Num (r : R)
| NaN
| Undefined
| Null.

#[global] Instance R_eq_dec : EqDecision R := Req_dec_T.
#[global] Instance Rlt_decision (x y : R) : Decision (x < y) := Rlt_dec x y.
#[global] Instance Rle_decision (x y : R) : Decision (x <= y) := Rle_dec x y.

(** ToNumber: [None] stands for NaN. *)
Definition toNumber (v : value) : option R :=
  match v with
  | Num r => Some r
  | Null => Some 0
  | NaN | Undefined => None
  end.

Definition ofNumber (o : option R) : value :=
  match o with
  | Some r => Num r
  | None => NaN
  end.

Definition arith1 (f : R -> R) (a : value) : value :=
  ofNumber (f <$> toNumber a).

Definition arith2 (f : R -> R -> R) (a b : value) : value :=
  match toNumber a, toNumber b with
  | Some x, Some y => Num (f x y)
  | _, _ => NaN
  end.

Definition vadd : value -> value -> value := arith2 Rplus.
Definition vsub : value -> value -> value := arith2 Rminus.
Definition vmul : value -> value -> value := arith2 Rmult.
Definition vneg : value -> value := arith1 Ropp.

(** [a / b].  A zero divisor gives an infinity or NaN in JavaScript; the
    model has no infinities and answers [NaN]. *)
Definition vdiv (a b : value) : value :=
  match toNumber a, toNumber b with
  | Some x, Some y => if decide (y = 0) then NaN else Num (x / y)
  | _, _ => NaN
  end.

(** [a === b] *)
Definition strict_eq (a b : value) : bool :=
  match a, b with
  | Num x, Num y => bool_decide (x = y)
  | Undefined, Undefined => true
  | Null, Null => true
  | _, _ => false
  end.

(** [a < b] and [a > b]: false as soon as one side is NaN. *)
Definition vlt (a b : value) : bool :=
  match toNumber a, toNumber b with
  | Some x, Some y => bool_decide (x < y)
  | _, _ => false
  end.

Definition vgt (a b : value) : bool := vlt b a.

(** [arr[i]] on an array. *)
Definition aget (arr : list value) (i : nat) : value :=
  default Undefined (arr !! i).

(** ** Normalisation *)

Definition normalizePoint (point mins maxs : list value) : list value :=
  imap (fun i val =>
    let range := vsub (aget maxs i) (aget mins i) in
    if strict_eq range (Num 0) then Num 0
    else
      let scale := if decide (i = 2%nat) then Num 0.5 else Num 1.0 in
      vmul (vdiv (vsub val (aget mins i)) range) scale) point.

Definition denormalizePoint (point mins maxs : list value) : list value :=
  imap (fun i val =>
    let range := vsub (aget maxs i) (aget mins i) in
    if strict_eq range (Num 0) then aget mins i
    else vadd (vmul (vdiv (vadd val (Num 1)) (Num 2)) range) (aget mins i)) point.

(** ** Math built-ins *)

Definition Math_max : value -> value -> value := arith2 Rmax.
Definition Math_min : value -> value -> value := arith2 Rmin.
Definition Math_abs : value -> value := arith1 Rabs.
Definition Math_exp : value -> value := arith1 exp.
Definition Math_tanh : value -> value := arith1 tanh.
Definition Math_cos : value -> value := arith1 cos.
Definition Math_sin : value -> value := arith1 sin.

Definition Rsign (x : R) : R :=
  if decide (0 < x) then 1 else if decide (x < 0) then -1 else 0.

Definition Math_sign : value -> value := arith1 Rsign.

Definition Math_sqrt (a : value) : value :=
  match toNumber a with
  | Some x => if decide (x < 0) then NaN else Num (sqrt x)
  | None => NaN
  end.

(** [Math.log]: NaN below zero; minus infinity at zero, which the model
    renders as NaN. *)
Definition Math_log (a : value) : value :=
  match toNumber a with
  | Some x => if decide (0 < x) then Num (ln x) else NaN
  | None => NaN
  end.

Definition Math_floor (a : value) : value :=
  arith1 (fun x => IZR (Int_part x)) a.

(** [Math.pow x y] on reals: [1] for a zero exponent, [exp (y ln x)] on
    a positive base, the signed integer power on a negative base and an
    integer exponent, NaN for a negative base and a fractional exponent;
    [0 ^ y] is [0] for positive [y] and an infinity (here NaN) otherwise. *)
Definition Rpow_js (x y : R) : option R :=
  if decide (y = 0) then Some 1
  else if decide (0 < x) then Some (Rpower x y)
  else if decide (x = 0) then (if decide (0 < y) then Some 0 else None)
  else if decide (frac_part y = 0) then Some (powerRZ x (Int_part y))
  else None.

Definition Math_pow (a b : value) : value :=
  match toNumber a, toNumber b with
  | Some x, Some y => ofNumber (Rpow_js x y)
  | _, _ => NaN
  end.

(** ** Errors *)

Inductive error : Type := TypeError.

Inductive result (A : Type) : Type :=
| Ok (a : A)
| Throw (e : error).
Arguments Ok {A} a.
Arguments Throw {A} e.

#[global] Instance result_ret : MRet result := @Ok.
#[global] Instance result_bind : MBind result := fun A B f m =>
  match m with
  | Ok a => f a
  | Throw e => Throw e
  end.

(** [for (let i = start; i < start + n; i++) s = body i s] *)
Fixpoint for_range {St : Type} (start n : nat)
    (body : nat -> St -> result St) (s : St) : result St :=
  match n with
  | O => Ok s
  | S m => s' ← body start s; for_range (S start) m body s'
  end.

(** [for (let l = n - 1; l >= 0; l--) s = body l s] *)
Fixpoint for_down {St : Type} (n : nat)
    (body : nat -> St -> result St) (s : St) : result St :=
  match n with
  | O => Ok s
  | S m => s' ← body m s; for_down m body s'
  end.

(** ** Activation functions *)

Definition sigmoid (x : value) : value :=
  vdiv (Num 1) (vadd (Num 1) (Math_exp (vneg x))).
Definition relu (x : value) : value := Math_max (Num 0) x.
Definition tanh_act (x : value) : value := Math_tanh x.
Definition linear (x : value) : value := x.

Definition sigmoidDerivative (x : value) : value :=
  let s := sigmoid x in vmul s (vsub (Num 1) s).
Definition reluDerivative (x : value) : value :=
  if vgt x (Num 0) then Num 1 else Num 0.
Definition tanhDerivative (x : value) : value :=
  vsub (Num 1) (Math_pow (tanh_act x) (Num 2)).
Definition linearDerivative (_ : value) : value := Num 1.

Record activation : Type := {
  output : value -> value;
  derivative : value -> value
}.

(** The [switch] compares [type] with each label in turn; [null] and
    every unknown name fall to the default, the sigmoid. *)
Definition getActivationFunction (type : option string) : activation :=
  if decide (type = Some "relu"%string) then
    {| output := relu; derivative := reluDerivative |}
  else if decide (type = Some "tanh"%string) then
    {| output := tanh_act; derivative := tanhDerivative |}
  else if decide (type = Some "linear"%string) then
    {| output := linear; derivative := linearDerivative |}
  else {| output := sigmoid; derivative := sigmoidDerivative |}.

(** ** The network *)

Record NeuronLayer : Type := {
  num_neurons : nat;
  activation_function : option string
}.

Abbreviation Weights := (gmap string (list value)).

(** [`layer${i}_${i + 1}`] *)
Definition layerKey (i : nat) : string :=
  ("layer" +:+ pretty i +:+ "_" +:+ pretty (i + 1)%nat)%string.

Definition ensureBoundsWith (val min max : value) : value :=
  Math_max min (Math_min max val).

(** [ensureBounds val] with the default bounds [-1] and [1]. *)
Definition ensureBounds (val : value) : value :=
  ensureBoundsWith val (Num (-1)) (Num 1).

(** [layers[i]], whose fields are read at once: a missing layer throws. *)
Definition layerAt (layers : list NeuronLayer) (i : nat) : result NeuronLayer :=
  match layers !! i with
  | Some l => Ok l
  | None => Throw TypeError
  end.

(** [arr[i]] where [arr] itself may be undefined: reading a slot of
    undefined throws, reading a missing slot of an array does not. *)
Definition elemAt (arr : option (list value)) (i : nat) : result value :=
  match arr with
  | Some a => Ok (aget a i)
  | None => Throw TypeError
  end.

(** The weighted input of destination neuron [j]: the bias, then one
    product per source neuron. *)
Definition weightedSum (current : list value) (layerWeights : option (list value))
    (biases : list (list value)) (i currentLayerSize nextLayerSize j : nat)
    : result value :=
  z0 ← elemAt (biases !! (i + 1)%nat) j;
  for_range 0 currentLayerSize (fun k z =>
    let weightIndex := (k * nextLayerSize + j)%nat in
    w ← elemAt layerWeights weightIndex;
    Ok (vadd z (vmul (aget current k) w))) z0.

(** One round of the loop of [forward]: from the activations of layer
    [i] to those of layer [i + 1]. *)
Definition forwardRound (layers : list NeuronLayer) (weights : Weights)
    (biases : list (list value)) (i : nat) (current : list value)
    : result (list value) :=
  li ← layerAt layers i;
  li1 ← layerAt layers (i + 1);
  let currentLayerSize := num_neurons li in
  let nextLayerSize := num_neurons li1 in
  let activation := getActivationFunction (activation_function li) in
  let layerWeights := weights !! layerKey i in
  for_range 0 nextLayerSize (fun j next =>
    z ← weightedSum current layerWeights biases i currentLayerSize nextLayerSize j;
    Ok (<[j := if bool_decide (i = (length layers - 2)%nat)
               then ensureBounds (output activation z)
               else output activation z]> next))
    (replicate nextLayerSize (Num 0)).

Definition forward (input : list value) (layers : list NeuronLayer)
    (weights : Weights) (biases : list (list value)) : result (list value) :=
  for_range 0 (length layers - 1) (forwardRound layers weights biases) input.

(** ** Backpropagation *)

(** A training example or a neighbour: [{ input, target }]. *)
Module Sample.
Record t : Type := make {
  input : list value;
  target : list value
}.
End Sample.

(** [l.forEach ((x) => s = body s x)] with a body that may throw *)
Fixpoint forEachM {A St : Type} (body : St -> A -> result St) (s : St)
    (l : list A) : result St :=
  match l with
  | [] => Ok s
  | x :: l' => s' ← body s x; forEachM body s' l'
  end.

(** [l.map ((x, i) => f i x)] with a callback that may throw; [i] is
    the index of the first element of [l]. *)
Fixpoint imapM_from {A B : Type} (f : nat -> A -> result B) (i : nat)
    (l : list A) : result (list B) :=
  match l with
  | [] => Ok []
  | x :: l' => y ← f i x; ys ← imapM_from f (S i) l'; Ok (y :: ys)
  end.

Definition imapM {A B : Type} (f : nat -> A -> result B) (l : list A)
    : result (list B) :=
  imapM_from f 0 l.

(** [rows[i]] used as the receiver of a method call: a missing row
    throws. *)
Definition rowAt (rows : list (list value)) (i : nat) : result (list value) :=
  match rows !! i with
  | Some row => Ok row
  | None => Throw TypeError
  end.

Record PassState : Type := {
  ps_activations : list (list value);
  ps_zs : list (list value);
  ps_current : list value
}.

(** Lines 240-260: one round of the forward pass of [backpropagate],
    which stores the weighted inputs and the activations and applies
    no clamp. *)
Definition passRound (layers : list NeuronLayer) (weights : Weights)
    (biases : list (list value)) (i : nat) (st : PassState) : result PassState :=
  li ← layerAt layers i;
  li1 ← layerAt layers (i + 1);
  let currentLayerSize := num_neurons li in
  let nextLayerSize := num_neurons li1 in
  let activation := getActivationFunction (activation_function li) in
  let layerWeights := weights !! layerKey i in
  z ← for_range 0 nextLayerSize (fun j z =>
    zj ← weightedSum (ps_current st) layerWeights biases i
           currentLayerSize nextLayerSize j;
    Ok (<[j := zj]> z)) (replicate nextLayerSize (Num 0));
  let current := output activation <$> z in
  Ok {| ps_activations := ps_activations st ++ [current];
        ps_zs := ps_zs st ++ [z];
        ps_current := current |}.

Definition backpropForwardPass (input : list value) (layers : list NeuronLayer)
    (weights : Weights) (biases : list (list value)) : result PassState :=
  for_range 0 (length layers - 1) (passRound layers weights biases)
    {| ps_activations := [input]; ps_zs := []; ps_current := input |}.

(** Lines 273-279: the geometric gradient of output dimension [i],
    accumulated over the neighbours. *)
Definition geoGradient (output_i : value) (i : nat) (target : list value)
    (neighbors : list Sample.t) (layers : list NeuronLayer)
    (weights : Weights) (biases : list (list value)) : result value :=
  forEachM (fun geoGrad neighbor =>
    neighborOutput ← forward (Sample.input neighbor) layers weights biases;
    let outputDiff := vsub output_i (aget neighborOutput i) in
    let targetDiff := vsub (aget target i) (aget (Sample.target neighbor) i) in
    let distDiff := vsub (Math_abs outputDiff) (Math_abs targetDiff) in
    Ok (vadd geoGrad (vmul (vmul (Num 2) distDiff) (Math_sign outputDiff))))
  (Num 0) neighbors.

(** Lines 268-282: the delta of the output layer. *)
Definition outputDelta (lastActivation target : list value)
    (neighbors : list Sample.t) (layers : list NeuronLayer)
    (weights : Weights) (biases : list (list value)) : result (list value) :=
  imapM (fun i output_i =>
    let mseGrad := vsub output_i (aget target i) in
    geoGrad ← geoGradient output_i i target neighbors layers weights biases;
    Ok (vadd mseGrad (vmul (Num 0.1) geoGrad))) lastActivation.

Record Gradients : Type := {
  weightGradients : Weights;
  biasGradients : list (list value)
}.

Record BackState : Type := {
  bs_grads : Gradients;
  bs_delta : list value
}.

(** Lines 285-311: one round of the backward loop, for the layer pair
    [(l, l + 1)]. *)
Definition backwardRound (layers : list NeuronLayer) (weights : Weights)
    (activations zs : list (list value)) (l : nat) (st : BackState)
    : result BackState :=
  ll ← layerAt layers l;
  ll1 ← layerAt layers (l + 1);
  let activation := getActivationFunction (activation_function ll) in
  let delta := bs_delta st in
  wg ← for_range 0 (num_neurons ll) (fun i wg =>
    for_range 0 (num_neurons ll1) (fun j wg =>
      a ← elemAt (activations !! l) i;
      Ok (wg ++ [vmul a (aget delta j)])) wg) [];
  let grads :=
    {| weightGradients := <[layerKey l := wg]> (weightGradients (bs_grads st));
       biasGradients := <[(l + 1)%nat := delta]> (biasGradients (bs_grads st)) |} in
  if bool_decide (0 < l)%nat then
    newDelta ← for_range 0 (num_neurons ll) (fun i newDelta =>
      acc ← for_range 0 (num_neurons ll1) (fun j acc =>
        let weightIndex := (i * num_neurons ll1 + j)%nat in
        w ← elemAt (weights !! layerKey l) weightIndex;
        Ok (vadd acc (vmul w (aget delta j)))) (aget newDelta i);
      z ← elemAt (zs !! (l - 1)%nat) i;
      Ok (<[i := vmul acc (derivative activation z)]> newDelta))
      (replicate (num_neurons ll) (Num 0));
    Ok {| bs_grads := grads; bs_delta := newDelta |}
  else Ok {| bs_grads := grads; bs_delta := delta |}.

Definition backwardPass (layers : list NeuronLayer) (weights : Weights)
    (activations zs : list (list value)) (delta0 : list value) : result BackState :=
  for_down (length layers - 1) (backwardRound layers weights activations zs)
    {| bs_grads :=
         {| weightGradients := ∅;
            biasGradients :=
              (fun layer => replicate (num_neurons layer) (Num 0)) <$> layers |};
       bs_delta := delta0 |}.

Definition backpropagate (input target : list value) (neighbors : list Sample.t)
    (layers : list NeuronLayer) (weights : Weights) (biases : list (list value))
    : result Gradients :=
  pass ← backpropForwardPass input layers weights biases;
  let activations := ps_activations pass in
  lastActivation ← rowAt activations (length activations - 1);
  delta ← outputDelta lastActivation target neighbors layers weights biases;
  st ← backwardPass layers weights activations (ps_zs pass) delta;
  Ok (bs_grads st).

(** ** Helpers of the trainer *)

(** [l.reduce ((acc, x, i) => f acc x i, init)] with a callback that may
    throw; [i] is the index of the first element of [l]. *)
Fixpoint ireduceM_from {A St : Type} (f : St -> A -> nat -> result St)
    (i : nat) (acc : St) (l : list A) : result St :=
  match l with
  | [] => Ok acc
  | x :: l' => acc' ← f acc x i; ireduceM_from f (S i) acc' l'
  end.

Definition ireduceM {A St : Type} (f : St -> A -> nat -> result St)
    (init : St) (l : list A) : result St :=
  ireduceM_from f 0 init l.

(** [distance p1 p2]; [p2] may be undefined, which throws as soon as
    one of its slots is read. *)
Definition distance (p1 : list value) (p2 : option (list value)) : result value :=
  s ← ireduceM (fun sum val i =>
         q ← elemAt p2 i;
         Ok (vadd sum (Math_pow (vsub val q) (Num 2)))) (Num 0) p1;
  Ok (Math_sqrt s).

Definition dimWeights : list value := [Num 1.0; Num 1.0; Num 1.5].

Definition computeGeometricLoss (predicted target : list value)
    (neighborsPred neighborsTarget : list (list value)) : result value :=
  direct ← ireduceM (fun sum val dim =>
      Ok (vadd sum (vmul (aget dimWeights dim)
                         (Math_pow (vsub val (aget target dim)) (Num 2)))))
    (Num 0) predicted;
  for_range 0 (length neighborsPred) (fun i geometricLoss =>
    distPred ← distance predicted (neighborsPred !! i);
    distTarget ← distance target (neighborsTarget !! i);
    Ok (vadd geometricLoss (Math_pow (vsub distPred distTarget) (Num 2))))
  (vadd (Num 0) direct).

(** [arr[i] = v]: JavaScript arrays grow when written past their end;
    the slots in between are holes, which read as undefined. *)
Definition aset (arr : list value) (i : nat) (v : value) : list value :=
  if decide (i < length arr)%nat then <[i := v]> arr
  else arr ++ replicate (i - length arr) Undefined ++ [v].

(** A running minimum or maximum that starts at an infinity.  The model
    of numbers has no infinities: [Unbounded] stands for the initial
    [Infinity] (or [-Infinity]), the neutral element of [Math.min] (or
    [Math.max]) on numbers. *)
Definition boundStep (f : value -> value -> value) (unbounded : bool)
    (cur val : value) : value :=
  if unbounded then ofNumber (toNumber val) else f cur val.

Record Bounds : Type := {
  mins : list value;
  maxs : list value
}.

(** [findBounds points].  Every slot of [mins] and [maxs] is filled with
    an infinity and leaves it when [points[0]], which has [dims] slots,
    is visited; [first] tells whether the point being visited is that
    one, and the initial content of the slots is never read. *)
Definition findBounds (points : list (list value)) : result Bounds :=
  p0 ← rowAt points 0;
  let dims := length p0 in
  let visit (first : bool) (b : Bounds) (point : list value) : Bounds :=
    foldl (fun b '(i, val) =>
      {| mins := aset (mins b) i (boundStep Math_min first (aget (mins b) i) val);
         maxs := aset (maxs b) i (boundStep Math_max first (aget (maxs b) i) val) |})
      b (imap pair point) in
  let init := {| mins := replicate dims NaN; maxs := replicate dims NaN |} in
  Ok (foldl (fun b '(n, point) => visit (bool_decide (n = 0%nat)) b point)
        init (imap pair points)).

(** An array object together with its identity: [===] on two arrays
    compares identities, not contents. *)
Record ArrayObj : Type := {
  arr_id : nat;
  arr_elems : list value
}.

(** A normalised training example. *)
Record Example : Type := {
  ex_input : ArrayObj;
  ex_target : list value
}.

(** Stable insertion by the comparator [(a, b) => a.dist - b.dist]. *)
Fixpoint insertByDist (x : ArrayObj * value) (l : list (ArrayObj * value))
    : list (ArrayObj * value) :=
  match l with
  | [] => [x]
  | y :: l' =>
      if vlt (vsub (snd y) (snd x)) (Num 0) then y :: insertByDist x l'
      else x :: y :: l'
  end.

Definition sortByDist (l : list (ArrayObj * value)) : list (ArrayObj * value) :=
  foldr insertByDist [] l.

Definition findKNearestNeighbors (point : list value) (points : list ArrayObj)
    (k : nat) : result (list ArrayObj) :=
  withDist ← imapM (fun _ p =>
      d ← distance point (Some (arr_elems p)); Ok (p, d)) points;
  let kept := List.filter (fun pd => vgt (snd pd) (Num 0)) withDist in
  Ok (fst <$> take k (sortByDist kept)).

(** [clipGradients gradients maxNorm].  The source overwrites the slots
    of [gradients] and returns the same object. *)
Definition clipVector (maxNorm : value) (g : list value) : list value :=
  let norm := Math_sqrt (foldl (fun sum g => vadd sum (vmul g g)) (Num 0) g) in
  if vgt norm maxNorm then
    let scale := vdiv maxNorm norm in
    (fun g => vmul g scale) <$> g
  else g.

Definition clipGradients (gradients : Weights) (maxNorm : value) : Weights :=
  clipVector maxNorm <$> gradients.

(** [Number (Number w).toFixed 2]: two decimals, halves away from zero. *)
Definition round2 (x : R) : R :=
  Rsign x * IZR (Int_part (100 * Rabs x + / 2)) / 100.

Definition formatWeightsForDisplay (weights : Weights) : Weights :=
  (fun vals : list value => arith1 round2 <$> vals) <$> weights.

(** [JSON.parse (JSON.stringify x)] on a slot: what is not a finite
    number comes back as [null]. *)
Definition jsonCopyValue (v : value) : value :=
  match v with
  | Num r => Num r
  | NaN | Undefined | Null => Null
  end.

Definition jsonCopyWeights (w : Weights) : Weights :=
  (fun arr : list value => jsonCopyValue <$> arr) <$> w.

Definition jsonCopyRows (rows : list (list value)) : list (list value) :=
  (fun arr : list value => jsonCopyValue <$> arr) <$> rows.

(** ** One example of a batch (lines 446-502) *)

Record BatchGradients : Type := {
  bg_weights : Weights;
  bg_biases : list (list value)
}.

Record BatchAcc : Type := {
  ba_totalError : value;
  ba_gradients : BatchGradients
}.

(** Line 504: the weight gradients of the batch are clipped to the norm
    0.5, the bias gradients are left as they are. *)
Definition clipBatchGradients (batchGradients : BatchGradients) : BatchGradients :=
  {| bg_weights := clipGradients (bg_weights batchGradients) (Num 0.5);
     bg_biases := bg_biases batchGradients |}.

(** [batch[batch.findIndex (d => d.input === n)].target] *)
Definition targetOfInput (batch : list Example) (n : ArrayObj) : result (list value) :=
  match List.find (fun d => Nat.eqb (arr_id (ex_input d)) (arr_id n)) batch with
  | Some d => Ok (ex_target d)
  | None => Throw TypeError
  end.

(** The L2 penalty of lines 471-475, added layer pair by layer pair. *)
Definition addL2Penalty (l2Factor : value) (currentWeights : Weights)
    (totalError : value) : value :=
  map_fold (fun _ (layerWeights : list value) totalError =>
    vadd totalError
      (vmul l2Factor
         (foldl (fun sum w => vadd sum (vmul (vmul (Num 0.5) w) w)) (Num 0) layerWeights)))
    totalError currentWeights.

(** Lines 490-497: the first gradient of a key is stored as it is, the
    later ones are added slot by slot. *)
Definition addWeightGradients (acc weightGradients : Weights) : Weights :=
  union_with (fun (g wg : list value) =>
    Some (imap (fun i g_i => vadd g_i (aget wg i)) g)) acc weightGradients.

(** Lines 499-501. *)
Definition addBiasGradients (acc biasGradients : list (list value))
    : result (list (list value)) :=
  imapM (fun i (layer : list value) =>
    imapM (fun j g => b ← elemAt (biasGradients !! i) j; Ok (vadd g b)) layer) acc.

Definition accumulateExample (layers : list NeuronLayer)
    (currentWeights : Weights) (currentBiases : list (list value))
    (l2Factor : value) (batch : list Example) (acc : BatchAcc)
    (example : Example) : result BatchAcc :=
  let input := arr_elems (ex_input example) in
  output ← forward input layers currentWeights currentBiases;
  let k := Nat.min 5 (length batch - 1) in
  neighbors ← findKNearestNeighbors input (ex_input <$> batch) k;
  neighborOutputs ← imapM (fun _ n =>
      forward (arr_elems n) layers currentWeights currentBiases) neighbors;
  neighborTargets ← imapM (fun _ n => targetOfInput batch n) neighbors;
  mseLoss ← ireduceM (fun sum o i =>
      Ok (vadd sum (vmul (Num 0.5)
                      (Math_pow (vsub o (aget (ex_target example) i)) (Num 2)))))
    (Num 0) output;
  geometricLoss ← computeGeometricLoss output (ex_target example)
                    neighborOutputs neighborTargets;
  let totalError :=
    vadd (ba_totalError acc) (vadd mseLoss (vmul (Num 0.1) geometricLoss)) in
  let totalError := addL2Penalty l2Factor currentWeights totalError in
  pairs ← imapM (fun i target =>
      match neighbors !! i with
      | Some n => Ok (Sample.make (arr_elems n) target)
      | None => Throw TypeError
      end) neighborTargets;
  grads ← backpropagate input (ex_target example) pairs layers
            currentWeights currentBiases;
  newBiases ← addBiasGradients (bg_biases (ba_gradients acc)) (biasGradients grads);
  Ok {| ba_totalError := totalError;
        ba_gradients :=
          {| bg_weights :=
               addWeightGradients (bg_weights (ba_gradients acc)) (weightGradients grads);
             bg_biases := newBiases |} |}.

(** ** The store

    The tables of the caller and the tables the trainer keeps updating
    are objects of a store, reached through references; the trainer
    receives the references the caller passes. *)

Inductive obj : Type :=
| ObjWeights (w : Weights)
| ObjRows (rows : list (list value)).

Abbreviation loc := nat (only parsing).
Abbreviation heap := (gmap nat obj) (only parsing).

Inductive outcome (A : Type) : Type :=
| Returned (a : A)
| Thrown (e : error)
| Diverged.
Arguments Returned {A} a.
Arguments Thrown {A} e.
Arguments Diverged {A}.

Section Trainer.

(** The state of the host application, on which the progress callback
    acts, and the values the callback may return. *)
Context {Host Ret : Type}.

Record State : Type := {
  st_heap : heap;
  st_host : Host
}.

Definition T (A : Type) : Type := State -> outcome A * State.

Definition tret {A : Type} (a : A) : T A := fun s => (Returned a, s).

Definition tbind {A B : Type} (m : T A) (k : A -> T B) : T B := fun s =>
  match m s with
  | (Returned a, s') => k a s'
  | (Thrown e, s') => (Thrown e, s')
  | (Diverged, s') => (Diverged, s')
  end.

Definition lift {A : Type} (r : result A) : T A := fun s =>
  match r with
  | Ok a => (Returned a, s)
  | Throw e => (Thrown e, s)
  end.

Definition diverge {A : Type} : T A := fun s => (Diverged, s).

(** A new object at a reference no object of the store has. *)
Definition alloc (o : obj) : T loc := fun s =>
  let l := fresh (dom (st_heap s)) in
  (Returned l, {| st_heap := <[l := o]> (st_heap s); st_host := st_host s |}).

(** Reading through a reference.  A reference of JavaScript always
    leads to an object of the expected kind; the model throws
    otherwise. *)
Definition readWeights (l : loc) : T Weights := fun s =>
  match st_heap s !! l with
  | Some (ObjWeights w) => (Returned w, s)
  | _ => (Thrown TypeError, s)
  end.

Definition readRows (l : loc) : T (list (list value)) := fun s =>
  match st_heap s !! l with
  | Some (ObjRows rows) => (Returned rows, s)
  | _ => (Thrown TypeError, s)
  end.

(** [obj[key] = arr] on the weights object at [l]. *)
Definition writeKey (l : loc) (key : string) (arr : list value) : T unit := fun s =>
  match st_heap s !! l with
  | Some (ObjWeights w) =>
      (Returned tt,
       {| st_heap := <[l := ObjWeights (<[key := arr]> w)]> (st_heap s);
          st_host := st_host s |})
  | _ => (Thrown TypeError, s)
  end.

(** [rows[i][j] = v] on the array of arrays at [l]. *)
Definition writeSlot (l : loc) (i j : nat) (v : value) : T unit := fun s =>
  match st_heap s !! l with
  | Some (ObjRows rows) =>
      match rows !! i with
      | Some row =>
          (Returned tt,
           {| st_heap := <[l := ObjRows (<[i := aset row j v]> rows)]> (st_heap s);
              st_host := st_host s |})
      | None => (Thrown TypeError, s)
      end
  | _ => (Thrown TypeError, s)
  end.

#[global] Instance T_ret : MRet T := @tret.
#[global] Instance T_bind : MBind T := fun A B k m => tbind m k.

(** [l.forEach] and [l.map] with bodies that act on the store. *)
Fixpoint forEachT {A St : Type} (body : St -> A -> T St) (s : St)
    (l : list A) : T St :=
  match l with
  | [] => tret s
  | x :: l' => s' ← body s x; forEachT body s' l'
  end.

Fixpoint imapT_from {A B : Type} (f : nat -> A -> T B) (i : nat)
    (l : list A) : T (list B) :=
  match l with
  | [] => tret []
  | x :: l' => y ← f i x; ys ← imapT_from f (S i) l'; tret (y :: ys)
  end.

Definition imapT {A B : Type} (f : nat -> A -> T B) (l : list A) : T (list B) :=
  imapT_from f 0 l.

(** [obj[key]] used as the receiver of a method call. *)
Definition entryAt (w : Weights) (key : string) : result (list value) :=
  match w !! key with
  | Some arr => Ok arr
  | None => Throw TypeError
  end.

(** The progress callback: it receives the epoch, the mean error, the
    display weights and the current biases, acts on the state of the
    host, and returns a value or throws. *)
Definition Callback : Type :=
  nat -> value -> Weights -> list (list value) -> Host -> result Ret * Host.

Definition callHost (f : Host -> result Ret * Host) : T Ret := fun s =>
  let '(r, h) := f (st_host s) in
  (match r with Ok x => Returned x | Throw e => Thrown e end,
   {| st_heap := st_heap s; st_host := h |}).

(** The options object; a field that is absent is [Undefined] or
    [None]. *)
Record Options : Type := {
  opt_learningRate : value;
  opt_epochs : option nat;
  opt_batchSize : option nat;
  opt_l2Factor : value;
  opt_onProgress : option Callback
}.

Definition orDefault (v d : value) : value :=
  match v with
  | Undefined => d
  | _ => v
  end.

(** The variables of the epoch loop that are rebound rather than
    written through.  [ls_errors] is not a variable of the source: it
    records the mean error of every epoch that was completed, the
    latest first. *)
Record LoopState : Type := {
  ls_currentBiases : list (list value);
  ls_totalError : value;
  ls_errors : list value
}.

Record TrainingResult : Type := {
  tr_weights : loc;
  tr_displayWeights : Weights;
  tr_biases : list (list value);
  tr_error : value;
  tr_normalization : Bounds * Bounds;
  tr_errors : list value
}.

(** The order in which [sort (() => Math.random () - 0.5)] leaves the
    data is left to the engine; [shuffle epoch] is the order of that
    epoch. *)
Variable shuffle : nat -> list Example -> list Example.

Section Run.

(** The variables the loops of [trainNetwork] close over. *)
Variable layers : list NeuronLayer.
Variable biases : loc.
Variables currentWeights weightVelocities biasVelocities : loc.
Variables learningRate l2Factor : value.
Variables epochs batchSize : nat.
Variable onProgress : option Callback.
Variable normalizedData : list Example.

(** Lines 509-517, for one key. *)
Definition updateWeightsKey (momentum scaledLR : value) (gradients : Weights)
    (key : string) : T unit :=
  wv ← readWeights weightVelocities;
  v ← lift (entryAt wv key);
  cw ← readWeights currentWeights;
  newV ← lift (imapM (fun i v_i =>
      w ← elemAt (cw !! key) i;
      let l2Gradient := vmul l2Factor w in
      g ← elemAt (gradients !! key) i;
      Ok (vsub (vmul momentum v_i) (vmul scaledLR (vadd g l2Gradient)))) v);
  _ ← writeKey weightVelocities key newV;
  cw ← readWeights currentWeights;
  w ← lift (entryAt cw key);
  wv ← readWeights weightVelocities;
  newW ← lift (imapM (fun i w_i =>
      nv ← elemAt (wv !! key) i; Ok (vadd w_i nv)) w);
  writeKey currentWeights key newW.

(** Lines 520-526, for one slot. *)
Definition updateBiasSlot (momentum scaledLR : value)
    (gradients : list (list value)) (i j : nat) (b : value) : T value :=
  bv ← readRows biasVelocities;
  old ← lift (elemAt (bv !! i) j);
  g ← lift (elemAt (gradients !! i) j);
  _ ← writeSlot biasVelocities i j (vsub (vmul momentum old) (vmul scaledLR g));
  bv ← readRows biasVelocities;
  nv ← lift (elemAt (bv !! i) j);
  tret (vadd b nv).

(** Lines 440-502: the gradients of a mini-batch, accumulated over
    its examples, and the error they add to the total. *)
Definition accumulateBatch (batch : list Example) (st : LoopState) : T BatchAcc :=
  b0 ← readRows biases;
  let batchGradients :=
    {| bg_weights := ∅;
       bg_biases := (fun layer : list value => replicate (length layer) (Num 0)) <$> b0 |} in
  forEachT (fun acc example =>
      cw ← readWeights currentWeights;
      lift (accumulateExample layers cw (ls_currentBiases st) l2Factor batch acc example))
    {| ba_totalError := ls_totalError st; ba_gradients := batchGradients |} batch.

(** Lines 506-526: the update of the weights and of the biases from
    the gradients of the batch. *)
Definition applyUpdate (batch : list Example) (momentum decayedLR : value)
    (batchGradients : BatchGradients) (currentBiases : list (list value))
    : T (list (list value)) :=
  let scaledLR := vdiv decayedLR (Num (INR (length batch))) in
  _ ← forEachT (fun _ key =>
        updateWeightsKey momentum scaledLR (bg_weights batchGradients) key)
        tt (elements (dom (bg_weights batchGradients)));
  imapT (fun i (layer : list value) =>
      imapT (fun j b =>
        updateBiasSlot momentum scaledLR (bg_biases batchGradients) i j b) layer)
    currentBiases.

(** Lines 439-526: one mini-batch. *)
Definition trainBatch (batch : list Example) (momentum decayedLR : value)
    (st : LoopState) : T LoopState :=
  acc ← accumulateBatch batch st;
  let batchGradients := clipBatchGradients (ba_gradients acc) in
  newBiases ← applyUpdate batch momentum decayedLR batchGradients
                (ls_currentBiases st);
  tret {| ls_currentBiases := newBiases;
          ls_totalError := ba_totalError acc;
          ls_errors := ls_errors st |}.

(** [for (let i = 0; i < shuffledData.length; i += batchSize)].
    The loop ends within [shuffledData.length] rounds unless
    [batchSize] is zero, in which case it never ends: [fuel] counts
    the rounds that are left. *)
Fixpoint batchLoop (shuffledData : list Example) (momentum decayedLR : value)
    (fuel i : nat) (st : LoopState) : T LoopState :=
  if bool_decide (i < length shuffledData)%nat then
    match fuel with
    | O => diverge
    | S fuel' =>
        let batch :=
          take (Nat.min (i + batchSize) (length shuffledData) - i) (drop i shuffledData) in
        st' ← trainBatch batch momentum decayedLR st;
        batchLoop shuffledData momentum decayedLR fuel' (i + batchSize) st'
    end
  else tret st.

Definition baseMomentum : value := Num 0.9.

(** Lines 430-534: one epoch, up to the call of the callback.  The
    value the callback returns is dropped. *)
Definition trainEpoch (epoch : nat) (st : LoopState) : T (LoopState * value) :=
  let shuffledData := shuffle epoch normalizedData in
  let momentum :=
    vadd baseMomentum
      (vmul (vsub (Num 1) baseMomentum) (vdiv (Num (INR epoch)) (Num (INR epochs)))) in
  let initialLR := learningRate in
  let decayedLR := vmul initialLR (Math_pow (Num 0.998) (Num (INR epoch))) in
  st' ← batchLoop shuffledData momentum decayedLR (length shuffledData) 0
          {| ls_currentBiases := ls_currentBiases st;
             ls_totalError := Num 0;
             ls_errors := ls_errors st |};
  let avgError := vdiv (ls_totalError st') (Num (INR (length normalizedData))) in
  _ ← match onProgress with
      | Some callback =>
          cw ← readWeights currentWeights;
          let displayWeights := formatWeightsForDisplay cw in
          _ ← callHost (callback epoch avgError displayWeights (ls_currentBiases st'));
          tret tt
      | None => tret tt
      end;
  tret ({| ls_currentBiases := ls_currentBiases st';
           ls_totalError := ls_totalError st';
           ls_errors := avgError :: ls_errors st' |}, avgError).

(** [for (let epoch = ...; epoch < epochs; epoch++)] with its
    [break]; [n] is the number of epochs that are left. *)
Fixpoint epochLoop (n epoch : nat) (st : LoopState) : T LoopState :=
  match n with
  | O => tret st
  | S n' =>
      '(st', avgError) ← trainEpoch epoch st;
      if vlt avgError (Num 1e-4) then tret st'
      else epochLoop n' (S epoch) st'
  end.

End Run.

Definition toExample (inputBounds targetBounds : Bounds) (i : nat)
    (d : Sample.t) : Example :=
  {| ex_input :=
       {| arr_id := i;
          arr_elems := normalizePoint (Sample.input d) (mins inputBounds) (maxs inputBounds) |};
     ex_target := normalizePoint (Sample.target d) (mins targetBounds) (maxs targetBounds) |}.

Definition trainNetwork (layers : list NeuronLayer) (weights biases : loc)
    (trainingData : list Sample.t) (options : Options) : T TrainingResult :=
  let learningRate := orDefault (opt_learningRate options) (Num 0.01) in
  let epochs := default 200%nat (opt_epochs options) in
  let batchSize := default 32%nat (opt_batchSize options) in
  let l2Factor := orDefault (opt_l2Factor options) (Num 0.00005) in
  let onProgress := opt_onProgress options in
  w0 ← readWeights weights;
  currentWeights ← alloc (ObjWeights (jsonCopyWeights w0));
  b0 ← readRows biases;
  let currentBiases := jsonCopyRows b0 in
  w0 ← readWeights weights;
  weightVelocities ← alloc (ObjWeights
    ((fun arr : list value => replicate (length arr) (Num 0)) <$> w0));
  b0 ← readRows biases;
  biasVelocities ← alloc (ObjRows
    ((fun layer : list value => replicate (length layer) (Num 0)) <$> b0));
  let allInputs := Sample.input <$> trainingData in
  let allTargets := Sample.target <$> trainingData in
  inputBounds ← lift (findBounds allInputs);
  targetBounds ← lift (findBounds allTargets);
  let normalizedData := imap (toExample inputBounds targetBounds) trainingData in
  st ← epochLoop layers biases currentWeights weightVelocities biasVelocities
         learningRate l2Factor epochs batchSize onProgress normalizedData
         epochs 0
         {| ls_currentBiases := currentBiases;
            ls_totalError := Num 0;
            ls_errors := [] |};
  cw ← readWeights currentWeights;
  tret {| tr_weights := currentWeights;
          tr_displayWeights := formatWeightsForDisplay cw;
          tr_biases := ls_currentBiases st;
          tr_error := vdiv (ls_totalError st) (Num (INR (length normalizedData)));
          tr_normalization := (inputBounds, targetBounds);
          tr_errors := ls_errors st |}.

End Trainer.

(** ** Dataset generation *)

Section Generator.

(** The successive results of [Math.random ()]. *)
Variable random : nat -> R.

(** A computation that draws random numbers: it starts at a position
    of the sequence and ends at a later one.  [None] means that a
    rejection loop did not end within its fuel. *)
Definition G (A : Type) : Type := nat -> option (result A * nat).

Definition gret {A : Type} (a : A) : G A := fun pos => Some (Ok a, pos).

Definition gbind {A B : Type} (m : G A) (k : A -> G B) : G B := fun pos =>
  match m pos with
  | Some (Ok a, pos') => k a pos'
  | Some (Throw e, pos') => Some (Throw e, pos')
  | None => None
  end.

#[global] Instance G_ret : MRet G := @gret.
#[global] Instance G_bind : MBind G := fun A B k m => gbind m k.

Definition Math_random : G value := fun pos => Some (Ok (Num (random pos)), S pos).

Definition gthrow {A : Type} (e : error) : G A := fun pos => Some (Throw e, pos).

Definition Math_PI : value := Num PI.

Definition randUniform (a b : value) : G value :=
  u ← Math_random;
  gret (vadd (vmul u (vsub b a)) a).

(** The [do ... while (s > 1)] loop of [normalRandom]: it returns
    [v1] and [s]. *)
Fixpoint normalRandomLoop (fuel : nat) : G (value * value) :=
  match fuel with
  | O => fun _ => None
  | S fuel' =>
      u1 ← Math_random;
      let v1 := vsub (vmul (Num 2) u1) (Num 1) in
      u2 ← Math_random;
      let v2 := vsub (vmul (Num 2) u2) (Num 1) in
      let s := vadd (vmul v1 v1) (vmul v2 v2) in
      if vgt s (Num 1) then normalRandomLoop fuel' else gret (v1, s)
  end.

Definition normalRandom (fuel : nat) (mean variance : value) : G value :=
  '(v1, s) ← normalRandomLoop fuel;
  let result :=
    vmul (Math_sqrt (vdiv (vmul (Num (-2)) (Math_log s)) s)) v1 in
  gret (vadd mean (vmul (Math_sqrt variance) result)).

Definition centers : list (value * value) :=
  [(Num (-0.5), Num (-0.5)); (Num 0.5, Num (-0.5));
   (Num (-0.5), Num 0.5); (Num 0.5, Num 0.5)].

(** [centers[cluster]], destructured at once: a missing entry throws.
    Only a non-negative integer is the index of an entry. *)
Definition centerAt (cluster : value) : G (value * value) :=
  match cluster with
  | Num c =>
      match (if decide (0 <= c /\ c = IZR (Int_part c))
             then centers !! Z.to_nat (Int_part c) else None) with
      | Some p => gret p
      | None => gthrow TypeError
      end
  | _ => gthrow TypeError
  end.

Definition generateRandomInput (fuel : nat) (size : value) (datasetType : string)
    (noise : value) : G (list value) :=
  let noise := orDefault noise (Num 0.1) in
  if decide (datasetType = "circle"%string) then
      let radius := Num 1 in
      u ← Math_random;
      let t := Math_pow u (Num 0.7) in
      let r := vmul radius t in
      u ← Math_random;
      let angle := vmul (vmul u (Num 2)) Math_PI in
      u ← Math_random;
      let radialNoise := vmul (vmul (vsub (vmul u (Num 2)) (Num 1)) noise) (Num 0.03) in
      gret [vadd (vmul r (Math_cos angle)) (vmul radialNoise (Math_cos angle));
            vadd (vmul r (Math_sin angle)) (vmul radialNoise (Math_sin angle))]
  else if decide (datasetType = "gaussian"%string) then
      let variance := vadd (Num 0.2) (vmul noise (Num 0.3)) in
      u ← Math_random;
      let cluster := Math_floor (vmul u (Num 4)) in
      '(cx, cy) ← centerAt cluster;
      x ← normalRandom fuel cx variance;
      y ← normalRandom fuel cy variance;
      gret [x; y]
  else if decide (datasetType = "spiral"%string) then
      let n := Num 100 in
      u ← Math_random;
      let i := Math_floor (vmul u n) in
      let r := vdiv i n in
      u ← Math_random;
      let direction := if vlt u (Num 0.5) then Num 0 else Math_PI in
      let t := vadd (vmul (vmul (vdiv (vmul (Num 1.75) i) n) (Num 2)) Math_PI) direction in
      jx ← randUniform (Num (-0.1)) (Num 0.1);
      jy ← randUniform (Num (-0.1)) (Num 0.1);
      gret [vadd (vmul r (Math_sin t)) (vmul jx noise);
            vadd (vmul r (Math_cos t)) (vmul jy noise)]
  else if decide (datasetType = "xor"%string) then
      let padding := Num 0.1 in
      x ← randUniform (Num (-1)) (Num 1);
      let x := vadd x (if vgt x (Num 0) then padding else vneg padding) in
      y ← randUniform (Num (-1)) (Num 1);
      let y := vadd y (if vgt y (Num 0) then padding else vneg padding) in
      jx ← randUniform (Num (-0.2)) (Num 0.2);
      let noiseX := vmul jx noise in
      jy ← randUniform (Num (-0.2)) (Num 0.2);
      let noiseY := vmul jy noise in
      gret [vadd x noiseX; vadd y noiseY]
  else
      let radius := Num 1 in
      x ← randUniform (vneg radius) radius;
      y ← randUniform (vneg radius) radius;
      gret [x; y].

(** [Array (sampleSize).fill (0).map (() => generateRandomInput (2, ...))] *)
Fixpoint generateSamples (fuel sampleSize : nat) (datasetType : string)
    (noise : value) : G (list (list value)) :=
  match sampleSize with
  | O => gret []
  | S n =>
      p ← generateRandomInput fuel (Num 2) datasetType noise;
      ps ← generateSamples fuel n datasetType noise;
      gret (p :: ps)
  end.

Definition generateDataset (fuel sampleSize : nat) (datasetType : string)
    (noise : value) : G (list (list value)) :=
  let noise := orDefault noise (Num 0.1) in
  generateSamples fuel sampleSize datasetType noise.

End Generator.

(** ** Notions used by the statements *)

(** A value that is a number of the model. *)
Definition is_num (v : value) : Prop := exists r, v = Num r.

(** Tables of real numbers, as values. *)
Definition numWeights (w : gmap string (list R)) : Weights :=
  (fun arr : list R => Num <$> arr) <$> w.
Definition numRows (rows : list (list R)) : list (list value) :=
  (fun arr : list R => Num <$> arr) <$> rows.

(** What [ensureBounds] leaves: NaN, or a number of [[-1, 1]]. *)
Definition clamped (v : value) : Prop :=
  v = NaN \/ exists r, v = Num r /\ -1 <= r <= 1.

(** The entries the loops of [forward] and [backpropagate] read through:
    the bias row of every destination layer that has a neuron, and the
    weight entry of every pair of layers that both have one. *)
Definition entriesPresent (layers : list NeuronLayer) (weights : Weights)
    (biases : list (list value)) : Prop :=
  forall i li li1, layers !! i = Some li -> layers !! (i + 1)%nat = Some li1 ->
    ((0 < num_neurons li1)%nat -> is_Some (biases !! (i + 1)%nat)) /\
    ((0 < num_neurons li)%nat -> (0 < num_neurons li1)%nat ->
       is_Some (weights !! layerKey i)).

(** Tables of matching shape: one bias row of the right length per
    layer, one weight entry of the right length per pair of adjacent
    layers. *)
Definition matchingShape (layers : list NeuronLayer) (weights : gmap string (list R))
    (biases : list (list R)) : Prop :=
  (forall i li, layers !! i = Some li ->
     exists b, biases !! i = Some b /\ length b = num_neurons li) /\
  (forall i li li1, layers !! i = Some li -> layers !! (i + 1)%nat = Some li1 ->
     exists w, weights !! layerKey i = Some w /\
               length w = (num_neurons li * num_neurons li1)%nat).

(** The sum of a list of reals. *)
Definition Rsum (l : list R) : R := foldr Rplus 0 l.

(** The contribution of one neighbour to the delta of an output
    dimension: [o] and [t] are the output and the target of the example
    on that dimension, [n_out] and [n_target] those of the neighbour. *)
Definition geoTerm (o t n_out n_target : R) : R :=
  2 * Rsign (o - n_out) * (Rabs (o - n_out) - Rabs (t - n_target)).

(** The delta of an output dimension, after the words of the
    specification; [ns] lists the output and the target of every
    neighbour on that dimension. *)
Definition deltaFormula (o t : R) (ns : list (R * R)) : R :=
  (o - t) + 0.1 * Rsum ((fun n => geoTerm o t (fst n) (snd n)) <$> ns).

(** The L2 norm of a vector of reals. *)
Definition l2norm (g : list R) : R := sqrt (Rsum ((fun x => x * x) <$> g)).

(** [typeof v === 'number']: a number of the model or NaN. *)
Definition isNumber (v : value) : Prop := v = NaN \/ exists r, v = Num r.

(** What is assumed of [Math.random]: its results lie in [[0, 1)], and
    from every position on, some pair of successive results is a point
    of the unit disc, which ends the rejection loop of [normalRandom]. *)
Definition inUnit (random : nat -> R) : Prop := forall n, 0 <= random n < 1.

Definition acceptedAt (random : nat -> R) (pos : nat) : Prop :=
  (2 * random pos - 1) * (2 * random pos - 1)
  + (2 * random (S pos) - 1) * (2 * random (S pos) - 1) <= 1.

Definition accepts (random : nat -> R) : Prop :=
  forall pos, exists k, acceptedAt random (pos + 2 * k)%nat.

(** Two results of a callback that differ at most in the value
    returned: both return, or both throw the same error. *)
Definition sameOutcome {Ret : Type} (r1 r2 : result Ret) : Prop :=
  match r1, r2 with
  | Ok _, Ok _ => True
  | Throw e1, Throw e2 => e1 = e2
  | _, _ => False
  end.

(** Two progress callbacks that differ only in the value they return:
    on the same arguments and the same state of the host they leave the
    host in the same state, and both return or both throw. *)
Definition differOnlyInReturn {Host Ret : Type}
    (callback1 callback2 : @Callback Host Ret) : Prop :=
  forall epoch error weights biases h,
    sameOutcome (callback1 epoch error weights biases h).1
                (callback2 epoch error weights biases h).1 /\
    (callback1 epoch error weights biases h).2
    = (callback2 epoch error weights biases h).2.

(** The mean error of an epoch lets the loop go on. *)
Definition aboveThreshold (e : value) : Prop := vlt e (Num 1e-4) = false.

(** The momentum rule of the update, after the words of the
    specification: the new velocity of a weight from its velocity [v],
    its gradient [g] and the weight [w], and the new velocity of a bias,
    which has no L2 term. *)
Definition velocityRule (momentum scaledLR l2Factor v g w : value) : value :=
  vsub (vmul momentum v) (vmul scaledLR (vadd g (vmul l2Factor w))).

Definition biasVelocityRule (momentum scaledLR v g : value) : value :=
  vsub (vmul momentum v) (vmul scaledLR g).

(** [rows[i][j]] when the row is there. *)
Definition aget2 (rows : list (list value)) (i j : nat) : value :=
  aget (default [] (rows !! i)) j.

(** A network of one input and one output neuron, both linear, with the
    weight [1] and the output bias [1], in a store that holds the bias
    table of the caller at [0], the current weights at [1], the weight
    velocities at [2] and the bias velocities at [3]; and a batch of one
    example, whose normalised input and target are zero. *)
Definition tinyLayers : list NeuronLayer :=
  [ {| num_neurons := 1; activation_function := Some "linear"%string |};
    {| num_neurons := 1; activation_function := Some "linear"%string |} ].

Definition tinyStore : @State unit :=
  {| st_heap :=
       <[0%nat := ObjRows [[Num 0]; [Num 1]]]>
       (<[1%nat := ObjWeights {[ "layer0_1"%string := [Num 1] ]}]>
       (<[2%nat := ObjWeights {[ "layer0_1"%string := [Num 0] ]}]>
       (<[3%nat := ObjRows [[Num 0]; [Num 0]]]> ∅)));
     st_host := tt |}.

Definition tinyExample : Example :=
  {| ex_input := {| arr_id := 0; arr_elems := [Num 0] |}; ex_target := [Num 0] |}.

(** Two training examples for that network. *)
Definition tinyData : list Sample.t :=
  [Sample.make [Num 0] [Num 0]; Sample.make [Num 1] [Num 1]].

Definition tinyLoopState : LoopState :=
  {| ls_currentBiases := [[Num 0]; [Num 1]]; ls_totalError := Num 0; ls_errors := [] |}.

(** The new velocities of the weights of a layer pair, from their
    velocities [v], their gradients [g] and the weights [w], and the
    new weights from the weights and the new velocities. *)
Definition newVelocities (l2Factor momentum scaledLR : value)
    (v g w : list value) : list value :=
  imap (fun i v_i => velocityRule momentum scaledLR l2Factor v_i (aget g i) (aget w i)) v.

Definition newWeights (w v' : list value) : list value :=
  imap (fun i w_i => vadd w_i (aget v' i)) w.

(** ** Statements about the store *)

(** [triple P m Q E]: started in a state of [P], the computation [m]
    ends in a state of [Q a] when it returns [a], and in a state of [E]
    when it throws or does not end. *)
Definition triple {Host A : Type} (P : @State Host -> Prop) (m : @T Host A)
    (Q : A -> @State Host -> Prop) (E : @State Host -> Prop) : Prop :=
  forall s, P s ->
    match m s with
    | (Returned a, s') => Q a s'
    | (_, s') => E s'
    end.

(** [untouched h0 s]: every object of the store [h0] is in the store of
    [s], as it was. *)
Definition untouched {Host : Type} (h0 : gmap nat obj) (s : @State Host) : Prop :=
  forall l, l ∈ dom h0 -> st_heap s !! l = h0 !! l.

(** [keeps h0 m]: whatever [m] does, it leaves the objects of [h0] as
    they were. *)
Definition keeps {Host : Type} (h0 : gmap nat obj) {A : Type} (m : @T Host A) : Prop :=
  triple (untouched h0) m (fun _ => untouched h0) (untouched h0).

(** The store of [s'] is that of [s], but for the two weight objects. *)
Definition weightsUpdated {Host : Type} (currentWeights weightVelocities : nat)
    (s s' : @State Host) (cw' wv' : Weights) : Prop :=
  st_heap s' !! currentWeights = Some (ObjWeights cw') /\
  st_heap s' !! weightVelocities = Some (ObjWeights wv') /\
  st_host s' = st_host s /\
  forall l, l <> currentWeights -> l <> weightVelocities ->
    st_heap s' !! l = st_heap s !! l.

(** The store of [s'] is that of [s], but for the bias velocities. *)
Definition biasesUpdated {Host : Type} (biasVelocities : nat)
    (s s' : @State Host) (bv' : list (list value)) : Prop :=
  st_heap s' !! biasVelocities = Some (ObjRows bv') /\
  st_host s' = st_host s /\
  forall l, l <> biasVelocities -> st_heap s' !! l = st_heap s !! l.

(** ** Further functions of the source *)

(** *** [utils/networkUtils.ts] *)

(** [normalizeArray], the local function of [processOutputs].  Its
    search for the bounds (lines 73-82) is the one of [findBounds],
    statement for statement. *)
Definition normalizeArray (arr : list (list value)) : result (list (list value)) :=
  b ← findBounds arr;
  Ok ((fun point : list value =>
         imap (fun i val =>
           let range := vsub (aget (maxs b) i) (aget (mins b) i) in
           if strict_eq range (Num 0) then Num 0
           else vsub (vmul (vdiv (vsub val (aget (mins b) i)) range) (Num 2)) (Num 1))
           point) <$> arr).

Definition processOutputs (inputs : list (list value)) (layers : list NeuronLayer)
    (weights : Weights) (biases : list (list value)) : result (list (list value)) :=
  outputs ← imapM (fun _ input => forward input layers weights biases) inputs;
  normalizeArray outputs.

(** *** [hooks/useNetworkConfiguration.ts] *)

Definition computeMSE (predicted actual : list (list value)) : result value :=
  let n := length predicted in
  totalError ← for_range 0 n (fun i totalError =>
      row ← rowAt predicted i;
      for_range 0 (length row) (fun j totalError =>
        a ← elemAt (actual !! i) j;
        Ok (vadd totalError (Math_pow (vsub (aget row j) a) (Num 2)))) totalError)
    (Num 0);
  p0 ← rowAt predicted 0;
  Ok (vdiv totalError (Num (INR (n * length p0)))).

Definition formatWeights (weights : Weights) : Weights :=
  (fun vals : list value => arith1 round2 <$> vals) <$> weights.

(** *** The generators of weights, biases and outputs *)

Section Initialisers.

Variable random : nat -> R.

Definition glift {A : Type} (r : result A) : G A := fun pos => Some (r, pos).

(** [Array (n).fill (0).map (() => g)] *)
Fixpoint fillMap {A : Type} (n : nat) (g : G A) : G (list A) :=
  match n with
  | O => gret []
  | S n' => x ← g; xs ← fillMap n' g; gret (x :: xs)
  end.

(** [l.map (x => f x)] with a callback that draws random numbers. *)
Fixpoint mapG {A B : Type} (f : A -> G B) (l : list A) : G (list B) :=
  match l with
  | [] => gret []
  | x :: l' => y ← f x; ys ← mapG f l'; gret (y :: ys)
  end.

(** [for (let i = start; i < start + n; i++) s = body i s] *)
Fixpoint for_rangeG {St : Type} (start n : nat) (body : nat -> St -> G St)
    (s : St) : G St :=
  match n with
  | O => gret s
  | S m => s' ← body start s; for_rangeG (S start) m body s'
  end.

Definition generateRandomWeights (inputSize outputSize : nat) : G (list value) :=
  let scaleFactor :=
    Math_sqrt (vdiv (Num 10.0) (Num (INR (inputSize + outputSize)))) in
  fillMap (inputSize * outputSize)
    (u ← Math_random random;
     gret (vmul (vsub (vmul u (Num 2)) (Num 1)) scaleFactor)).

Definition generateBiases (layers : list NeuronLayer) : G (list (list value)) :=
  mapG (fun layer =>
    fillMap (num_neurons layer)
      (u ← Math_random random;
       gret (arith1 round2 (vsub (vmul u (Num 0.2)) (Num 0.1))))) layers.

(** [generateInitialWeights] of the configuration hook. *)
Definition generateInitialWeights (layers : list NeuronLayer) : G Weights :=
  for_rangeG 0 (length layers - 1) (fun i weights =>
    li ← glift (layerAt layers i);
    li1 ← glift (layerAt layers (i + 1));
    rawWeights ← generateRandomWeights (num_neurons li) (num_neurons li1);
    gret (<[layerKey i := arith1 round2 <$> rawWeights]> weights)) ∅.

(** [while (output.length < 3) output.push (0); return output.slice (0, 3)] *)
Definition padOutput (output : list value) : list value :=
  take 3 (Nat.iter (3 - length output) (fun out => out ++ [Num 0]) output).

(** [computeOutputs]; the promise it returns is rejected when [forward]
    throws. *)
Definition computeOutputs (fuel : nat) (layers : list NeuronLayer) (weights : Weights)
    (biases : list (list value)) (sampleSize : nat) (datasetType : string)
    : G (list (list value)) :=
  inputs ← generateSamples random fuel sampleSize datasetType Undefined;
  glift (imapM (fun _ input =>
           output ← forward input layers weights biases;
           Ok (padOutput output)) inputs).

End Initialisers.

(** *** [createTrainingData] of the configuration hook *)

(** [Math.atan2 (y, x)] on reals. *)
Definition Ratan2 (y x : R) : R :=
  if decide (0 < x) then atan (y / x)
  else if decide (x < 0) then
    (if decide (0 <= y) then atan (y / x) + PI else atan (y / x) - PI)
  else if decide (0 < y) then PI / 2
  else if decide (y < 0) then - PI / 2
  else 0.

Definition Math_atan2 (y x : value) : value := arith2 Ratan2 y x.

Record Peak : Type := {
  peak_x : value;
  peak_y : value;
  peak_h : value
}.

Definition peaks : list Peak :=
  [ {| peak_x := Num (-0.5); peak_y := Num (-0.5); peak_h := Num 1.0 |};
    {| peak_x := Num 0.5; peak_y := Num 0.5; peak_h := Num (-1.0) |};
    {| peak_x := Num (-0.5); peak_y := Num 0.5; peak_h := Num 0.5 |};
    {| peak_x := Num 0.5; peak_y := Num (-0.5); peak_h := Num (-0.5) |} ].

(** The callback of [normalizedInputs.map (([x, y]) => ...)]: the target
    of one point, before the final clamp. *)
Definition targetShape (type : string) (point : list value) : list value :=
  let x := aget point 0 in
  let y := aget point 1 in
  if decide (type = "circle"%string) then
    let r := Math_sqrt (vadd (vmul x x) (vmul y y)) in
    let normalizedR := Math_min (Num 1) r in
    [x; y; Math_cos (vmul normalizedR Math_PI)]
  else if decide (type = "spiral"%string) then
    let r := Math_sqrt (vadd (vmul x x) (vmul y y)) in
    let theta := Math_atan2 y x in
    [x; y; Math_sin (vadd (vmul theta (Num 3)) (vmul r (Num 4)))]
  else if decide (type = "gaussian"%string) then
    let z := foldl (fun sum peak =>
        let dist := Math_sqrt (vadd (Math_pow (vsub x (peak_x peak)) (Num 2))
                                    (Math_pow (vsub y (peak_y peak)) (Num 2))) in
        vadd sum (vmul (peak_h peak) (Math_exp (vmul (vneg dist) (Num 3)))))
      (Num 0) peaks in
    [x; y; Math_tanh z]
  else if decide (type = "xor"%string) then
    let xSign := if vgt x (Num 0) then Num 1 else Num (-1) in
    let ySign := if vgt y (Num 0) then Num 1 else Num (-1) in
    let xorVal := if vlt (vmul xSign ySign) (Num 0) then Num 1 else Num (-1) in
    [x; y; xorVal]
  else
    let freq := Num 3 in
    [x; y; Math_tanh (vmul (Math_sin (vmul x freq)) (Math_cos (vmul y freq)))].

Record TrainingData : Type := {
  td_inputs : list (list value);
  td_targets : list (list value)
}.

Section TrainingSets.

Variable random : nat -> R.

Definition createTrainingData (fuel size : nat) (type : string) : G TrainingData :=
  inputs ← generateDataset random fuel size type (Num 0.1);
  let normalizedInputs :=
    (fun point : list value =>
       (fun val => Math_max (Num (-1)) (Math_min (Num 1) val)) <$> point) <$> inputs in
  let targets := targetShape type <$> normalizedInputs in
  gret {| td_inputs := normalizedInputs;
          td_targets := (fun target : list value => ensureBounds <$> target) <$> targets |}.

End TrainingSets.

(** ** Notions used by the further statements *)

(** One round of [findBounds] on a point, as in its definition. *)
Definition visitPoint (first : bool) (b : Bounds) (point : list value) : Bounds :=
  foldl (fun b '(i, val) =>
    {| mins := aset (mins b) i (boundStep Math_min first (aget (mins b) i) val);
       maxs := aset (maxs b) i (boundStep Math_max first (aget (maxs b) i) val) |})
    b (imap pair point).

(** Points that all have [d] coordinates. *)
Definition rectangular (d : nat) (points : list (list R)) : Prop :=
  Forall (fun p => length p = d) points.

(** The upper end of the range [normalizePoint] maps dimension [i]
    into. *)
Definition unitScale (i : nat) : R := if decide (i = 2%nat) then 0.5 else 1.

(** The coordinate [x] of a dimension with bounds [m] and [M], scaled
    into [[0, scale]] as [normalizePoint] does and into [[-1, 1]] as
    [normalizeArray] does; a dimension without extent gives zero. *)
Definition unitCoordinate (scale m M x : R) : R :=
  if decide (M - m = 0) then 0 else (x - m) / (M - m) * scale.

Definition signedCoordinate (m M x : R) : R :=
  if decide (M - m = 0) then 0 else (x - m) / (M - m) * 2 - 1.

(** The squared Euclidean distance of two points, over the coordinates
    both have. *)
Definition sqDist (p1 p2 : list R) : R :=
  Rsum (zip_with (fun a b => (a - b) * (a - b)) p1 p2).

(** The number a value stands for in a comparison, where it stands for
    one. *)
Definition numberOf (v : value) : R := default 0 (toNumber v).

(** A point with its distance comes before another one in the order of
    [sort ((a, b) => a.dist - b.dist)]. *)
Definition byDistance (a b : ArrayObj * value) : Prop :=
  numberOf (snd a) <= numberOf (snd b).

(** The character that separates the two numerals of a key, and the
    strings without it, as the decimal numerals are. *)
Definition underscore : Ascii.ascii :=
  Ascii.Ascii true true true true true false true false.

Fixpoint underscoreFree (s : string) : Prop :=
  match s with
  | EmptyString => True
  | String c s' => c <> underscore /\ underscoreFree s'
  end.

(** The largest absolute value [generateRandomWeights] gives a weight
    between layers of the sizes [inputSize] and [outputSize]. *)
Definition weightScale (inputSize outputSize : nat) : R :=
  sqrt (10 / INR (inputSize + outputSize)).

(** A computation on the store that does not return from the state
    [s]: it throws or it does not end. *)
Definition neverReturns {Host A : Type} (m : @T Host A) (s : @State Host) : Prop :=
  exists s', m s = (Thrown TypeError, s') \/ m s = (Diverged, s').

(** A batch of three examples whose inputs are distinct arrays, at the
    distances [0], [1] and [0.5] from the first input. *)
Definition threeExamples : list Example :=
  [ {| ex_input := {| arr_id := 0; arr_elems := [Num 0] |}; ex_target := [Num 0.2] |};
    {| ex_input := {| arr_id := 1; arr_elems := [Num 1] |}; ex_target := [Num 0.4] |};
    {| ex_input := {| arr_id := 2; arr_elems := [Num 0.5] |}; ex_target := [Num 0.6] |} ].

(** * Theorems *)

(** ** Evaluation of the model on given inputs *)

Ltac real_side :=
  solve [ lra | lia | done | discriminate | (intros ?; lra) | (intros ?; lia)
        | (intros ?; discriminate) | congruence ].

Ltac js_decide :=
  repeat match goal with
  | |- context [bool_decide ?P] =>
      first [ rewrite (bool_decide_eq_true_2 P) by real_side
            | rewrite (bool_decide_eq_false_2 P) by real_side ]
  | |- context [@decide ?P ?d] =>
      first [ rewrite (@decide_True _ P d) by real_side
            | rewrite (@decide_False _ P d) by real_side ]
  end.

Ltac js_keys :=
  repeat match goal with
  | |- context [layerKey ?n] =>
      let k := eval vm_compute in (layerKey n) in
      change (layerKey n) with k
  end.

Ltac js_maps :=
  repeat first
    [ rewrite lookup_singleton_eq
    | rewrite lookup_insert_eq
    | rewrite lookup_insert_ne by done
    | rewrite lookup_singleton_ne by done
    | rewrite lookup_empty ].

Ltac js_eval := repeat (progress (cbn; js_keys; js_maps; js_decide)).

(** ** The error monad and its loops *)

Lemma bind_Ok {A B} (m : result A) (k : A -> result B) b :
  m ≫= k = Ok b <-> exists a, m = Ok a /\ k a = Ok b.
Proof.
  destruct m as [a|e]; cbn; split.
  - intros H. by exists a.
  - by intros (a' & [= ->] & H).
  - done.
  - by intros (a' & [=] & _).
Qed.

Lemma not_Ok_Throw {A} (m : result A) :
  (~ exists a, m = Ok a) <-> m = Throw TypeError.
Proof.
  destruct m as [a|[]]; split; try done.
  - intros H. destruct H. by exists a.
  - intros _ [a [=]].
Qed.

Section ForRange.
Context {St : Type}.
Implicit Types (body : nat -> St -> result St).

Lemma for_range_S body start n s :
  for_range start (S n) body s = body start s ≫= for_range (S start) n body.
Proof. done. Qed.

Lemma for_range_snoc body start n s :
  for_range start (S n) body s
  = for_range start n body s ≫= body (start + n)%nat.
Proof.
  revert start s. induction n as [|n IH]; intros start s.
  - cbn. rewrite Nat.add_0_r. by destruct (body start s).
  - rewrite for_range_S, (for_range_S _ start n).
    destruct (body start s) as [s'|e]; [|done].
    change (Ok s' ≫= for_range (S start) (S n) body)
      with (for_range (S start) (S n) body s').
    rewrite IH. by replace (S start + n)%nat with (start + S n)%nat by lia.
Qed.

(** An invariant that every round keeps holds when the loop ends. *)
Lemma for_range_invariant (P : nat -> St -> Prop) body start n s s' :
  P start s ->
  (forall i t t', (start <= i < start + n)%nat -> P i t -> body i t = Ok t' -> P (S i) t') ->
  for_range start n body s = Ok s' ->
  P (start + n)%nat s'.
Proof.
  revert start s. induction n as [|n IH]; intros start s H0 Hstep Hrun.
  - cbn in Hrun. injection Hrun as <-. by rewrite Nat.add_0_r.
  - cbn in Hrun. apply bind_Ok in Hrun as (t & Hb & Hrun).
    replace (start + S n)%nat with (S start + n)%nat by lia.
    apply (IH (S start) t); [| |done].
    + apply (Hstep start s); [lia|done..].
    + intros i u u' Hi. apply Hstep. lia.
Qed.

(** A loop whose rounds cannot throw under an invariant returns. *)
Lemma for_range_total (P : nat -> St -> Prop) body start n s :
  P start s ->
  (forall i t, (start <= i < start + n)%nat -> P i t ->
     exists t', body i t = Ok t' /\ P (S i) t') ->
  exists s', for_range start n body s = Ok s' /\ P (start + n)%nat s'.
Proof.
  revert start s. induction n as [|n IH]; intros start s H0 Hstep.
  - exists s. cbn. by rewrite Nat.add_0_r.
  - destruct (Hstep start s) as (t & Hb & Ht); [lia|done|].
    destruct (IH (S start) t) as (s' & Hrun & Hs'); [done| |].
    + intros i u Hi. apply Hstep. lia.
    + exists s'. cbn. rewrite Hb. cbn.
      by replace (start + S n)%nat with (S start + n)%nat by lia.
Qed.

(** A loop that returns has run every round on some state. *)
Lemma for_range_rounds body start n s s' i :
  for_range start n body s = Ok s' ->
  (start <= i < start + n)%nat ->
  exists t t', body i t = Ok t'.
Proof.
  revert start s. induction n as [|n IH]; intros start s Hrun Hi; [lia|].
  cbn in Hrun. apply bind_Ok in Hrun as (t & Hb & Hrun).
  destruct (decide (i = start)) as [->|Hne]; [by eauto|].
  apply (IH (S start) t); [done|lia].
Qed.

(** The same for the loop that counts down; the invariant is indexed
    by the number of rounds that are left. *)
Lemma for_down_invariant (P : nat -> St -> Prop) body n s s' :
  P n s ->
  (forall l t t', (l < n)%nat -> P (S l) t -> body l t = Ok t' -> P l t') ->
  for_down n body s = Ok s' ->
  P 0%nat s'.
Proof.
  revert s. induction n as [|n IH]; intros s H0 Hstep Hrun.
  - cbn in Hrun. by injection Hrun as <-.
  - cbn in Hrun. apply bind_Ok in Hrun as (t & Hb & Hrun).
    apply (IH t); [| |done].
    + apply (Hstep n s); [lia|done..].
    + intros l u u' Hl. apply Hstep. lia.
Qed.

Lemma for_down_total (P : nat -> St -> Prop) body n s :
  P n s ->
  (forall l t, (l < n)%nat -> P (S l) t -> exists t', body l t = Ok t' /\ P l t') ->
  exists s', for_down n body s = Ok s' /\ P 0%nat s'.
Proof.
  revert s. induction n as [|n IH]; intros s H0 Hstep.
  - exists s. by cbn.
  - destruct (Hstep n s) as (t & Hb & Ht); [lia|done|].
    destruct (IH t) as (s' & Hrun & Hs'); [done| |].
    + intros l u Hl. apply Hstep. lia.
    + exists s'. cbn. rewrite Hb. by cbn.
Qed.
End ForRange.

(** The loop over the neurons of a layer: slot [j] of the result is what
    round [j] stored. *)
Lemma neuron_loop_inv (g : nat -> result value) (post : value -> value) n out :
  for_range 0 n (fun j next => z ← g j; Ok (<[j := post z]> next))
    (replicate n (Num 0)) = Ok out ->
  length out = n /\
  forall j, (j < n)%nat -> exists z, g j = Ok z /\ out !! j = Some (post z).
Proof.
  intros Hrun.
  apply (for_range_invariant
    (fun j next => length next = n /\
       forall j', (j' < j)%nat -> exists z, g j' = Ok z /\ next !! j' = Some (post z)))
    in Hrun.
  - done.
  - split; [by rewrite length_replicate|]. intros j' Hj'. lia.
  - intros j next next' Hj [Hlen Hprev] Hb.
    apply bind_Ok in Hb as (z & Hg & [= <-]).
    split; [by rewrite length_insert|].
    intros j' Hj'. destruct (decide (j' = j)) as [->|Hne].
    + exists z. split; [done|]. apply list_lookup_insert_eq. lia.
    + rewrite list_lookup_insert_ne by done. apply Hprev. lia.
Qed.

Lemma neuron_loop_total (g : nat -> result value) (post : value -> value) n :
  (forall j, (j < n)%nat -> exists z, g j = Ok z) ->
  exists out,
    for_range 0 n (fun j next => z ← g j; Ok (<[j := post z]> next))
      (replicate n (Num 0)) = Ok out.
Proof.
  intros Hg.
  destruct (for_range_total (fun _ _ => True)
    (fun j next => z ← g j; Ok (<[j := post z]> next)) 0 n (replicate n (Num 0)))
    as (out & Hout & _); [done| |by eauto].
  intros j next Hj _. destruct (Hg j) as [z Hz]; [lia|].
  rewrite Hz. cbn. by eauto.
Qed.

Lemma layerAt_Ok layers i l : layerAt layers i = Ok l <-> layers !! i = Some l.
Proof. unfold layerAt. destruct (layers !! i); naive_solver. Qed.

(** ** Numbers *)

Lemma aget_fmap_Num (l : list R) i x : l !! i = Some x -> aget (Num <$> l) i = Num x.
Proof. intros H. unfold aget. by rewrite list_lookup_fmap, H. Qed.

Lemma aget_num (l : list R) i : (i < length l)%nat -> is_num (aget (Num <$> l) i).
Proof.
  intros H. destruct (lookup_lt_is_Some_2 l i H) as [x Hx].
  exists x. by apply aget_fmap_Num.
Qed.

Lemma numeric_list (l : list value) :
  Forall is_num l -> exists rs : list R, l = Num <$> rs.
Proof.
  induction 1 as [|v l [r ->] _ [rs ->]].
  - by exists [].
  - by exists (r :: rs).
Qed.

(** ** Normalisation and its inverse *)

Lemma normalize_slot_degenerate (point mins maxs : list value) i v m :
  point !! i = Some v -> mins !! i = Some (Num m) -> maxs !! i = Some (Num m) ->
  normalizePoint point mins maxs !! i = Some (Num 0).
Proof.
  intros Hp Hmin Hmax. unfold normalizePoint.
  rewrite list_lookup_imap, Hp. cbn. unfold aget. rewrite Hmin, Hmax. cbn.
  by rewrite bool_decide_eq_true_2 by lra.
Qed.

Lemma denormalize_slot_degenerate (point mins maxs : list value) i v m :
  point !! i = Some v -> mins !! i = Some (Num m) -> maxs !! i = Some (Num m) ->
  denormalizePoint point mins maxs !! i = Some (Num m).
Proof.
  intros Hp Hmin Hmax. unfold denormalizePoint.
  rewrite list_lookup_imap, Hp. cbn. unfold aget. rewrite Hmin, Hmax. cbn.
  by rewrite bool_decide_eq_true_2 by lra.
Qed.

Lemma normalize_slot_num (point mins maxs : list R) i v :
  (length point <= length mins)%nat -> (length point <= length maxs)%nat ->
  normalizePoint (Num <$> point) (Num <$> mins) (Num <$> maxs) !! i = Some v ->
  is_num v.
Proof.
  intros Hmin Hmax. unfold normalizePoint.
  rewrite list_lookup_imap, list_lookup_fmap.
  destruct (point !! i) as [x|] eqn:Hx; [|done]. cbn.
  apply lookup_lt_Some in Hx.
  destruct (lookup_lt_is_Some_2 mins i) as [lo Hlo]; [lia|].
  destruct (lookup_lt_is_Some_2 maxs i) as [hi Hhi]; [lia|].
  rewrite (aget_fmap_Num _ _ _ Hlo), (aget_fmap_Num _ _ _ Hhi). cbn.
  case_bool_decide; intros [= <-]; [by eexists|].
  rewrite decide_False by done. destruct (decide (i = 2%nat)); by eexists.
Qed.

Lemma denormalize_slot_num (point mins maxs : list R) i v :
  (length point <= length mins)%nat -> (length point <= length maxs)%nat ->
  denormalizePoint (Num <$> point) (Num <$> mins) (Num <$> maxs) !! i = Some v ->
  is_num v.
Proof.
  intros Hmin Hmax. unfold denormalizePoint.
  rewrite list_lookup_imap, list_lookup_fmap.
  destruct (point !! i) as [x|] eqn:Hx; [|done]. cbn.
  apply lookup_lt_Some in Hx.
  destruct (lookup_lt_is_Some_2 mins i) as [lo Hlo]; [lia|].
  destruct (lookup_lt_is_Some_2 maxs i) as [hi Hhi]; [lia|].
  rewrite (aget_fmap_Num _ _ _ Hlo), (aget_fmap_Num _ _ _ Hhi). cbn.
  case_bool_decide; intros [= <-]; [by eexists|].
  rewrite decide_False by lra. by eexists.
Qed.

(** On one dimension with bounds [lo < hi], the two functions composed
    send [v] to the midpoint of [v] and [hi]: the composition is the
    identity at [hi] only. *)
Lemma denormalize_normalize_one_dimension (v lo hi : R) :
  lo < hi ->
  denormalizePoint (normalizePoint [Num v] [Num lo] [Num hi]) [Num lo] [Num hi]
  = [Num ((v + hi) / 2)].
Proof.
  intros H. unfold normalizePoint, denormalizePoint. js_eval.
  do 2 f_equal. replace 1.0 with 1 by lra. field. lra.
Qed.

(** C1: the round trip through [normalizePoint] and [denormalizePoint]
    does not return the point.  Under the bounds [0] and [1] on three
    dimensions the point [(0, 1, 1)] comes back as [(0.5, 1, 0.75)]:
    [normalizePoint] scales into [[0, 1]] (and into [[0, 0.5]] on the
    third dimension) while [denormalizePoint] inverts a scaling into
    [[-1, 1]]. *)
Theorem roundtrip_on_unit_cube :
  denormalizePoint
    (normalizePoint [Num 0; Num 1; Num 1] [Num 0; Num 0; Num 0] [Num 1; Num 1; Num 1])
    [Num 0; Num 0; Num 0] [Num 1; Num 1; Num 1]
  = [Num 0.5; Num 1; Num 0.75].
Proof.
  unfold normalizePoint, denormalizePoint. js_eval.
  repeat f_equal; lra.
Qed.

(** C4, as stated, fails: on a degenerate dimension [denormalizePoint]
    answers the lower bound, here [3], not zero. *)
Lemma denormalize_degenerate_not_zero :
  denormalizePoint [Num 7] [Num 3] [Num 3] <> [Num 0].
Proof.
  unfold denormalizePoint. js_eval. intros H. injection H. lra.
Qed.

(** C4 (amended): on points and bounds that are numbers, with a bound
    for every dimension, both functions return numbers only -- a
    division by zero would leave NaN in the model -- and on every
    dimension whose bounds are equal, [normalizePoint] answers zero and
    [denormalizePoint] answers the lower bound. *)
Theorem degenerate_dimension (point mins maxs : list R) :
  length mins = length point -> length maxs = length point ->
  exists n d : list R,
    normalizePoint (Num <$> point) (Num <$> mins) (Num <$> maxs) = Num <$> n /\
    denormalizePoint (Num <$> point) (Num <$> mins) (Num <$> maxs) = Num <$> d /\
    forall i m, mins !! i = Some m -> maxs !! i = Some m ->
      n !! i = Some 0 /\ d !! i = Some m.
Proof.
  intros Hmins Hmaxs.
  destruct (numeric_list
    (normalizePoint (Num <$> point) (Num <$> mins) (Num <$> maxs))) as [n Hn].
  { apply Forall_lookup. intros i v. apply normalize_slot_num; lia. }
  destruct (numeric_list
    (denormalizePoint (Num <$> point) (Num <$> mins) (Num <$> maxs))) as [d Hd].
  { apply Forall_lookup. intros i v. apply denormalize_slot_num; lia. }
  exists n, d. split; [done|]. split; [done|].
  intros i m Hlo Hhi.
  destruct (lookup_lt_is_Some_2 point i) as [v Hv].
  { apply lookup_lt_Some in Hlo. lia. }
  pose proof (normalize_slot_degenerate (Num <$> point) (Num <$> mins) (Num <$> maxs)
    i (Num v) m) as H1.
  pose proof (denormalize_slot_degenerate (Num <$> point) (Num <$> mins) (Num <$> maxs)
    i (Num v) m) as H2.
  rewrite !list_lookup_fmap, Hv, Hlo, Hhi in H1, H2.
  specialize (H1 eq_refl eq_refl eq_refl). specialize (H2 eq_refl eq_refl eq_refl).
  rewrite Hn, list_lookup_fmap in H1. rewrite Hd, list_lookup_fmap in H2.
  split.
  - destruct (n !! i); [|done]. cbn in H1. congruence.
  - destruct (d !! i); [|done]. cbn in H2. congruence.
Qed.

Lemma degenerate_dimension_witness :
  exists n d : list R,
    normalizePoint (Num <$> [7]) (Num <$> [3]) (Num <$> [3]) = Num <$> n /\
    denormalizePoint (Num <$> [7]) (Num <$> [3]) (Num <$> [3]) = Num <$> d /\
    forall i m, [3] !! i = Some m -> [3] !! i = Some m ->
      n !! i = Some 0 /\ d !! i = Some m.
Proof. apply (degenerate_dimension [7] [3] [3]); reflexivity. Defined.

(** ** Forward propagation *)

Lemma ensureBounds_clamped v : clamped (ensureBounds v).
Proof.
  unfold ensureBounds, ensureBoundsWith, Math_max, Math_min, arith2.
  destruct (toNumber v) as [x|]; cbn; [right|by left].
  eexists; split; [done|].
  unfold Rmax, Rmin. repeat destruct (Rle_dec _ _); lra.
Qed.

(** A number of [[-1, 1]] is left as it is. *)
Lemma ensureBounds_inside (x : R) : -1 <= x <= 1 -> ensureBounds (Num x) = Num x.
Proof.
  intros [Hlo Hhi].
  change (ensureBounds (Num x)) with (Num (Rmax (-1) (Rmin 1 x))).
  f_equal. rewrite Rmin_right by done. by apply Rmax_right.
Qed.

(** The weighted input of a neuron is computed whenever the bias row is
    there and, if the source layer has a neuron, the weight entry is. *)
Lemma weightedSum_Ok current lw biases i c n j :
  (exists z, weightedSum current lw biases i c n j = Ok z)
  <-> is_Some (biases !! (i + 1)%nat) /\ ((0 < c)%nat -> is_Some lw).
Proof.
  unfold weightedSum. split.
  - intros (z & (z0 & Hb & Hloop)%bind_Ok). split.
    + unfold elemAt in Hb. by destruct (biases !! (i + 1)%nat).
    + intros Hc. destruct (for_range_rounds _ _ _ _ _ 0%nat Hloop) as (t & t' & Hr); [lia|].
      apply bind_Ok in Hr as (w & Hw & _). unfold elemAt in Hw. by destruct lw.
  - intros [[row Hrow] Hlw]. rewrite Hrow. cbn.
    destruct (for_range_total (fun _ _ => True)
      (fun k z => w ← elemAt lw (k * n + j)%nat; Ok (vadd z (vmul (aget current k) w)))
      0 c (aget row j)) as (z & Hz & _); [done| |by eauto].
    intros k t Hk _. destruct Hlw as [w ->]; [lia|]. cbn. by eauto.
Qed.

Lemma forwardRound_Ok layers weights biases i current li li1 :
  layers !! i = Some li -> layers !! (i + 1)%nat = Some li1 ->
  (exists next, forwardRound layers weights biases i current = Ok next)
  <-> ((0 < num_neurons li1)%nat -> is_Some (biases !! (i + 1)%nat)) /\
      ((0 < num_neurons li)%nat -> (0 < num_neurons li1)%nat ->
         is_Some (weights !! layerKey i)).
Proof.
  intros Hli Hli1. unfold forwardRound.
  apply layerAt_Ok in Hli as ->. apply layerAt_Ok in Hli1 as ->. cbn. split.
  - intros [next Hrun].
    assert (forall j, (j < num_neurons li1)%nat -> exists z,
      weightedSum current (weights !! layerKey i) biases i
        (num_neurons li) (num_neurons li1) j = Ok z) as Hsum.
    { intros j Hj.
      apply (neuron_loop_inv _ (fun z => if bool_decide _ then _ else _)) in Hrun
        as [_ Hslots].
      destruct (Hslots j Hj) as (z & Hz & _). by eauto. }
    split.
    + intros Hn. destruct (Hsum 0%nat Hn) as [z Hz].
      by apply (proj1 (weightedSum_Ok _ _ _ _ _ _ _) (ex_intro _ z Hz)).
    + intros Hc Hn. destruct (Hsum 0%nat Hn) as [z Hz].
      by apply (proj1 (weightedSum_Ok _ _ _ _ _ _ _) (ex_intro _ z Hz)).
  - intros [Hb Hw].
    apply (neuron_loop_total _ (fun z => if bool_decide _ then _ else _)).
    intros j Hj. apply weightedSum_Ok. split; [apply Hb; lia|].
    intros Hc. apply Hw; lia.
Qed.

(** [forward] returns exactly on the networks whose entries are there;
    the lengths of the entries play no part. *)
Lemma forward_Ok_iff input layers weights biases :
  (exists out, forward input layers weights biases = Ok out)
  <-> entriesPresent layers weights biases.
Proof.
  unfold forward. split.
  - intros [out Hrun] i li li1 Hli Hli1.
    destruct (for_range_rounds _ _ _ _ _ i Hrun) as (t & t' & Hr).
    { apply lookup_lt_Some in Hli1. lia. }
    by apply (proj1 (forwardRound_Ok _ _ _ _ t _ _ Hli Hli1) (ex_intro _ t' Hr)).
  - intros Hpresent.
    destruct (for_range_total (fun _ _ => True) (forwardRound layers weights biases)
      0 (length layers - 1) input) as (out & Hout & _); [done| |by eauto].
    intros i t Hi _.
    destruct (lookup_lt_is_Some_2 layers i) as [li Hli]; [lia|].
    destruct (lookup_lt_is_Some_2 layers (i + 1)) as [li1 Hli1]; [lia|].
    destruct (proj2 (forwardRound_Ok layers weights biases i t _ _ Hli Hli1)) as [next Hnext].
    { by apply Hpresent. }
    by eauto.
Qed.

(** With two layers or more, whatever the tables hold, every slot of
    the result went through [ensureBounds]. *)
Lemma forward_clamped input layers weights biases out :
  (2 <= length layers)%nat ->
  forward input layers weights biases = Ok out ->
  Forall clamped out.
Proof.
  intros Hlen. unfold forward.
  destruct (length layers - 1)%nat as [|m] eqn:Hm; [lia|].
  rewrite for_range_snoc. intros (cur & _ & Hlast)%bind_Ok.
  unfold forwardRound in Hlast.
  apply bind_Ok in Hlast as (li & _ & Hlast).
  apply bind_Ok in Hlast as (li1 & _ & Hlast).
  cbn zeta in Hlast.
  rewrite bool_decide_eq_true_2 in Hlast by lia.
  apply (neuron_loop_inv _ (fun z => ensureBounds _)) in Hlast as [Hn Hslots].
  apply Forall_lookup. intros j v Hv.
  destruct (Hslots j) as (z & _ & Hz).
  - apply lookup_lt_Some in Hv. lia.
  - rewrite Hv in Hz. injection Hz as ->. apply ensureBounds_clamped.
Qed.

(** C3, as stated, fails: a sequence of one layer has no transition, so
    [forward] returns its input as it is, here [5], although the (empty)
    weight table and the bias table match the layer. *)
Lemma forward_single_layer_unclamped :
  let layers := [{| num_neurons := 1; activation_function := None |}] in
  matchingShape layers ∅ [[0]] /\
  forward (Num <$> [5]) layers (numWeights ∅) (numRows [[0]]) = Ok (Num <$> [5]) /\
  ~ Forall (fun x => -1 <= x <= 1) [5].
Proof.
  split; [|split].
  - split.
    + intros [|i] li; [|done]. intros [= <-]. by exists [0].
    + intros [|i] li li1; done.
  - reflexivity.
  - intros H. apply Forall_cons in H as [H _]. lra.
Qed.

(** Tables of matching shape hold every entry that [forward] reads
    through. *)
Lemma matchingShape_entriesPresent layers weights biases :
  matchingShape layers weights biases ->
  entriesPresent layers (numWeights weights) (numRows biases).
Proof.
  intros [Hbias Hweights] i li li1 Hli Hli1. split.
  - intros _. destruct (Hbias _ _ Hli1) as (b & Hb & _).
    unfold numRows. rewrite list_lookup_fmap, Hb. by eexists.
  - intros _ _. destruct (Hweights _ _ _ Hli Hli1) as (w & Hw & _).
    unfold numWeights. rewrite lookup_fmap, Hw. by eexists.
Qed.

(** NaN goes through the clamp.  On tables of matching shape and an
    input that is too short, the missing slot reads as [undefined], the
    weighted sum is NaN, and [ensureBounds] leaves it: the result is
    neither thrown nor a number of [[-1, 1]]. *)
Lemma forward_short_input_is_NaN :
  let weights : gmap string (list R) := {[ "layer0_1"%string := [2] ]} in
  matchingShape tinyLayers weights [[0]; [0]] /\
  forward [] tinyLayers (numWeights weights) (numRows [[0]; [0]]) = Ok [NaN].
Proof.
  split.
  - split.
    + intros [|[|i]] li; cbn; intros [= <-]; eexists; split; reflexivity.
    + intros [|[|i]] li li1; cbn; intros [= <-]; [|done..]. intros [= <-].
      exists [2]. split; [|reflexivity]. apply lookup_singleton_eq.
  - cbn zeta. unfold numWeights. rewrite map_fmap_singleton.
    unfold forward, forwardRound, getActivationFunction, tinyLayers. js_eval.
    reflexivity.
Qed.

(** C3 (amended): for a sequence of at least two layers and tables that
    hold the entries [forward] reads through -- tables of matching shape
    do --, whatever the input is, [forward] returns, and every slot of
    its result is what [ensureBounds] leaves: a number of [[-1, 1]], or
    NaN. *)
Theorem forward_output_clamped input layers weights biases :
  (2 <= length layers)%nat ->
  entriesPresent layers weights biases ->
  exists out,
    forward input layers weights biases = Ok out /\ Forall clamped out.
Proof.
  intros Hlen Hpresent.
  destruct (proj2 (forward_Ok_iff input layers weights biases) Hpresent) as [out Hout].
  exists out. split; [exact Hout|].
  exact (forward_clamped input layers weights biases out Hlen Hout).
Qed.

(** ** Backpropagation *)

Lemma imapM_from_inv {A B} (f : nat -> A -> result B) i l ys :
  imapM_from f i l = Ok ys ->
  length ys = length l /\
  forall k x, l !! k = Some x -> exists y, f (i + k)%nat x = Ok y /\ ys !! k = Some y.
Proof.
  revert i ys. induction l as [|x l IH]; intros i ys Hrun.
  - injection Hrun as <-. by split.
  - cbn in Hrun. apply bind_Ok in Hrun as (y & Hy & Hrun).
    apply bind_Ok in Hrun as (ys' & Hys' & [= <-]).
    apply IH in Hys' as [Hlen Hslots]. split; [cbn; lia|].
    intros [|k] x'; cbn.
    + intros [= <-]. exists y. by rewrite Nat.add_0_r.
    + intros Hx'. destruct (Hslots k x' Hx') as (y' & Hf & Hk).
      exists y'. split; [|done]. by replace (i + S k)%nat with (S i + k)%nat by lia.
Qed.

Lemma imapM_from_total {A B} (f : nat -> A -> result B) i l :
  (forall k x, l !! k = Some x -> exists y, f (i + k)%nat x = Ok y) ->
  exists ys, imapM_from f i l = Ok ys.
Proof.
  revert i. induction l as [|x l IH]; intros i Hf; [by exists []|].
  destruct (Hf 0%nat x eq_refl) as [y Hy]. rewrite Nat.add_0_r in Hy.
  destruct (IH (S i)) as [ys Hys].
  { intros k x' Hx'. destruct (Hf (S k) x' Hx') as [y' Hy'].
    exists y'. by replace (S i + k)%nat with (i + S k)%nat by lia. }
  exists (y :: ys). cbn. rewrite Hy. cbn. rewrite Hys. by cbn.
Qed.

Lemma imapM_inv {A B} (f : nat -> A -> result B) l ys :
  imapM f l = Ok ys ->
  length ys = length l /\
  forall k x, l !! k = Some x -> exists y, f k x = Ok y /\ ys !! k = Some y.
Proof. apply imapM_from_inv. Qed.

Lemma imapM_total {A B} (f : nat -> A -> result B) l :
  (forall k x, l !! k = Some x -> exists y, f k x = Ok y) ->
  exists ys, imapM f l = Ok ys.
Proof. intros H. apply imapM_from_total. intros k x Hx. by apply H. Qed.

Lemma forEachM_total {A St} (body : St -> A -> result St) s l :
  (forall t x, x ∈ l -> exists t', body t x = Ok t') ->
  exists s', forEachM body s l = Ok s'.
Proof.
  revert s. induction l as [|x l IH]; intros s Hb; [by exists s|].
  destruct (Hb s x) as [t Ht]; [by left|].
  destruct (IH t) as [s' Hs'].
  { intros u y Hy. apply Hb. by right. }
  exists s'. cbn. rewrite Ht. by cbn.
Qed.

(** The loop that fills the weighted inputs of a layer. *)
Lemma passRound_Ok layers weights biases i st li li1 :
  layers !! i = Some li -> layers !! (i + 1)%nat = Some li1 ->
  (exists st', passRound layers weights biases i st = Ok st')
  <-> ((0 < num_neurons li1)%nat -> is_Some (biases !! (i + 1)%nat)) /\
      ((0 < num_neurons li)%nat -> (0 < num_neurons li1)%nat ->
         is_Some (weights !! layerKey i)).
Proof.
  intros Hli Hli1. unfold passRound.
  apply layerAt_Ok in Hli as ->. apply layerAt_Ok in Hli1 as ->. cbn. split.
  - intros [st' (z & Hrun & _)%bind_Ok].
    assert (forall j, (j < num_neurons li1)%nat -> exists zj,
      weightedSum (ps_current st) (weights !! layerKey i) biases i
        (num_neurons li) (num_neurons li1) j = Ok zj) as Hsum.
    { intros j Hj. apply (neuron_loop_inv _ (fun z => z)) in Hrun as [_ Hslots].
      destruct (Hslots j Hj) as (zj & Hz & _). by eauto. }
    split.
    + intros Hn. destruct (Hsum 0%nat Hn) as [z0 Hz].
      by apply (proj1 (weightedSum_Ok _ _ _ _ _ _ _) (ex_intro _ z0 Hz)).
    + intros Hc Hn. destruct (Hsum 0%nat Hn) as [z0 Hz].
      by apply (proj1 (weightedSum_Ok _ _ _ _ _ _ _) (ex_intro _ z0 Hz)).
  - intros [Hb Hw].
    destruct (neuron_loop_total
      (fun j => weightedSum (ps_current st) (weights !! layerKey i) biases i
                  (num_neurons li) (num_neurons li1) j)
      (fun z => z) (num_neurons li1)) as [z Hz].
    { intros j Hj. apply weightedSum_Ok. split; [apply Hb; lia|].
      intros Hc. apply Hw; lia. }
    rewrite Hz. cbn. by eauto.
Qed.

Lemma passRound_lengths layers weights biases i st st' :
  passRound layers weights biases i st = Ok st' ->
  length (ps_activations st') = S (length (ps_activations st)) /\
  length (ps_zs st') = S (length (ps_zs st)).
Proof.
  unfold passRound. intros (li & _ & H)%bind_Ok.
  apply bind_Ok in H as (li1 & _ & H). cbn zeta in H.
  apply bind_Ok in H as (z & _ & [= <-]). cbn.
  rewrite !length_app. cbn. lia.
Qed.

Lemma backpropForwardPass_lengths input layers weights biases pass :
  backpropForwardPass input layers weights biases = Ok pass ->
  length (ps_activations pass) = S (length layers - 1) /\
  length (ps_zs pass) = (length layers - 1)%nat.
Proof.
  unfold backpropForwardPass. intros Hrun.
  apply (for_range_invariant
    (fun i st => length (ps_activations st) = S i /\ length (ps_zs st) = i)) in Hrun.
  - done.
  - done.
  - intros i t t' _ [Ha Hz] Hr. apply passRound_lengths in Hr as [-> ->]. lia.
Qed.

Lemma backpropForwardPass_Ok_iff input layers weights biases :
  (exists pass, backpropForwardPass input layers weights biases = Ok pass)
  <-> entriesPresent layers weights biases.
Proof.
  unfold backpropForwardPass. split.
  - intros [out Hrun] i li li1 Hli Hli1.
    destruct (for_range_rounds _ _ _ _ _ i Hrun) as (t & t' & Hr).
    { apply lookup_lt_Some in Hli1. lia. }
    by apply (proj1 (passRound_Ok _ _ _ _ t _ _ Hli Hli1) (ex_intro _ t' Hr)).
  - intros Hpresent.
    destruct (for_range_total (fun _ _ => True) (passRound layers weights biases)
      0 (length layers - 1)
      {| ps_activations := [input]; ps_zs := []; ps_current := input |})
      as (out & Hout & _); [done| |by eauto].
    intros i t Hi _.
    destruct (lookup_lt_is_Some_2 layers i) as [li Hli]; [lia|].
    destruct (lookup_lt_is_Some_2 layers (i + 1)) as [li1 Hli1]; [lia|].
    destruct (proj2 (passRound_Ok layers weights biases i t _ _ Hli Hli1)) as [next Hnext].
    { by apply Hpresent. }
    by eauto.
Qed.

Lemma geoGradient_total output_i i target neighbors layers weights biases :
  entriesPresent layers weights biases ->
  exists g, geoGradient output_i i target neighbors layers weights biases = Ok g.
Proof.
  intros Hpresent. unfold geoGradient. apply forEachM_total.
  intros t n _.
  destruct (proj2 (forward_Ok_iff (Sample.input n) layers weights biases) Hpresent)
    as [out ->].
  cbn. by eauto.
Qed.

Lemma outputDelta_total lastActivation target neighbors layers weights biases :
  entriesPresent layers weights biases ->
  exists delta,
    outputDelta lastActivation target neighbors layers weights biases = Ok delta.
Proof.
  intros Hpresent. unfold outputDelta. apply imapM_total.
  intros i o _.
  destruct (geoGradient_total o i target neighbors layers weights biases Hpresent)
    as [g ->].
  cbn. by eauto.
Qed.

(** One round of the backward loop returns when the rows it reads are
    there; it stores the delta it received as the bias gradient of the
    destination layer and leaves the other bias gradients alone. *)
Lemma backwardRound_total layers weights activations zs l st :
  (forall li li1, layers !! l = Some li -> layers !! (l + 1)%nat = Some li1 ->
     (0 < num_neurons li)%nat -> (0 < num_neurons li1)%nat ->
     is_Some (weights !! layerKey l)) ->
  (l < length layers - 1)%nat ->
  is_Some (activations !! l) ->
  ((0 < l)%nat -> is_Some (zs !! (l - 1)%nat)) ->
  exists st', backwardRound layers weights activations zs l st = Ok st' /\
    biasGradients (bs_grads st')
    = <[(l + 1)%nat := bs_delta st]> (biasGradients (bs_grads st)).
Proof.
  intros Hw Hl [a Ha] Hzs. unfold backwardRound.
  destruct (lookup_lt_is_Some_2 layers l) as [ll Hll]; [lia|].
  destruct (lookup_lt_is_Some_2 layers (l + 1)) as [ll1 Hll1]; [lia|].
  rewrite (proj2 (layerAt_Ok _ _ _) Hll), (proj2 (layerAt_Ok _ _ _) Hll1). cbn.
  destruct (for_range_total (fun _ _ => True)
    (fun i wg => for_range 0 (num_neurons ll1) (fun j wg =>
       a ← elemAt (activations !! l) i;
       Ok (wg ++ [vmul a (aget (bs_delta st) j)])) wg)
    0 (num_neurons ll) []) as (wg & -> & _); [done| |].
  { intros i t _ _.
    destruct (for_range_total (fun _ _ => True)
      (fun j wg => a ← elemAt (activations !! l) i;
                   Ok (wg ++ [vmul a (aget (bs_delta st) j)]))
      0 (num_neurons ll1) t) as (t' & Ht' & _); [done| |by eauto].
    intros j u _ _. rewrite Ha. cbn. by eauto. }
  cbn. case_bool_decide as Hpos; [|by eauto].
  destruct (for_range_total (fun _ _ => True)
    (fun i newDelta =>
       acc ← for_range 0 (num_neurons ll1) (fun j acc =>
         w ← elemAt (weights !! layerKey l) (i * num_neurons ll1 + j)%nat;
         Ok (vadd acc (vmul w (aget (bs_delta st) j)))) (aget newDelta i);
       z ← elemAt (zs !! (l - 1)%nat) i;
       Ok (<[i := vmul acc
              (derivative (getActivationFunction (activation_function ll)) z)]> newDelta))
    0 (num_neurons ll) (replicate (num_neurons ll) (Num 0)))
    as (newDelta & -> & _); [done| |by cbn; eauto].
  intros i t Hi _.
  destruct (for_range_total (fun _ _ => True)
    (fun j acc =>
       w ← elemAt (weights !! layerKey l) (i * num_neurons ll1 + j)%nat;
       Ok (vadd acc (vmul w (aget (bs_delta st) j))))
    0 (num_neurons ll1) (aget t i)) as (acc & -> & _); [done| |].
  { intros j u Hj _. destruct (Hw ll ll1) as [w ->]; [done|done|lia|lia|].
    cbn. by eauto. }
  cbn. destruct (Hzs Hpos) as [z ->]. cbn. by eauto.
Qed.

Lemma backwardPass_total layers weights activations zs delta0 :
  (forall l li li1, layers !! l = Some li -> layers !! (l + 1)%nat = Some li1 ->
     (0 < num_neurons li)%nat -> (0 < num_neurons li1)%nat ->
     is_Some (weights !! layerKey l)) ->
  length activations = S (length layers - 1) ->
  length zs = (length layers - 1)%nat ->
  exists st, backwardPass layers weights activations zs delta0 = Ok st /\
    ((2 <= length layers)%nat ->
       biasGradients (bs_grads st) !! (length layers - 1)%nat = Some delta0).
Proof.
  intros Hw' Hact Hzs. unfold backwardPass.
  set (n := (length layers - 1)%nat).
  destruct (for_down_total
    (fun m st =>
       (if decide (m = n) then bs_delta st = delta0
        else biasGradients (bs_grads st) !! n = Some delta0) /\
       length (biasGradients (bs_grads st)) = length layers)
    (backwardRound layers weights activations zs) n
    {| bs_grads :=
         {| weightGradients := ∅;
            biasGradients :=
              (fun layer => replicate (num_neurons layer) (Num 0)) <$> layers |};
       bs_delta := delta0 |}) as (st & Hst & Hend & _).
  - cbn. rewrite decide_True by done. by rewrite length_fmap.
  - intros l t Hl [Hdelta Hlen].
    destruct (backwardRound_total layers weights activations zs l t)
      as (t' & Ht' & Hbias).
    + intros li li1. apply Hw'.
    + done.
    + apply lookup_lt_is_Some_2. lia.
    + intros Hpos. apply lookup_lt_is_Some_2. lia.
    + exists t'. split; [done|]. rewrite Hbias, length_insert. split; [|done].
      rewrite decide_False by lia.
      destruct (decide (S l = n)) as [Heq|Hne].
      * rewrite Hdelta. replace (l + 1)%nat with n by lia.
        apply list_lookup_insert_eq. subst n. lia.
      * rewrite list_lookup_insert_ne by lia. done.
  - exists st. split; [done|]. intros Hlen.
    rewrite decide_False in Hend by (subst n; lia). done.
Qed.

(** [backpropagate] returns exactly on the networks [forward] returns
    on. *)
Lemma backpropagate_Ok_iff input target neighbors layers weights biases :
  (exists g, backpropagate input target neighbors layers weights biases = Ok g)
  <-> entriesPresent layers weights biases.
Proof.
  unfold backpropagate. split.
  - intros [g (pass & Hpass & _)%bind_Ok].
    apply (proj1 (backpropForwardPass_Ok_iff input layers weights biases)). by eauto.
  - intros Hpresent.
    destruct (proj2 (backpropForwardPass_Ok_iff input layers weights biases) Hpresent)
      as [pass Hpass].
    rewrite Hpass. cbn.
    apply backpropForwardPass_lengths in Hpass as [Hact Hzs].
    unfold rowAt.
    destruct (lookup_lt_is_Some_2 (ps_activations pass)
      (length (ps_activations pass) - 1)) as [lastActivation ->]; [lia|].
    cbn.
    destruct (outputDelta_total lastActivation target neighbors layers weights biases
      Hpresent) as [delta ->].
    cbn.
    destruct (backwardPass_total layers weights (ps_activations pass) (ps_zs pass) delta)
      as (st & -> & _); [|done|done|by cbn; eauto].
    intros l li li1 H1 H2 H3 H4. by apply (Hpresent l li li1).
Qed.

(** The delta of the output layer is the bias gradient [backpropagate]
    returns for the last layer. *)
Lemma backpropagate_delta input target neighbors layers weights biases pass :
  (2 <= length layers)%nat ->
  backpropForwardPass input layers weights biases = Ok pass ->
  exists lastActivation delta g,
    last (ps_activations pass) = Some lastActivation /\
    outputDelta lastActivation target neighbors layers weights biases = Ok delta /\
    backpropagate input target neighbors layers weights biases = Ok g /\
    biasGradients g !! (length layers - 1)%nat = Some delta.
Proof.
  intros Hlen Hpass.
  assert (entriesPresent layers weights biases) as Hpresent.
  { apply (proj1 (backpropForwardPass_Ok_iff input layers weights biases)). by eauto. }
  unfold backpropagate. rewrite Hpass. cbn.
  apply backpropForwardPass_lengths in Hpass as [Hact Hzs].
  unfold rowAt.
  replace (length (ps_activations pass) - 1)%nat
    with (pred (length (ps_activations pass))) by lia.
  rewrite <- last_lookup.
  destruct (last (ps_activations pass)) as [lastActivation|] eqn:Hlast.
  2:{ apply last_None in Hlast. rewrite Hlast in Hact. done. }
  cbn.
  destruct (outputDelta_total lastActivation target neighbors layers weights biases
    Hpresent) as [delta Hdelta].
  rewrite Hdelta. cbn.
  destruct (backwardPass_total layers weights (ps_activations pass) (ps_zs pass) delta)
    as (st & Hst & Hbias); [|done|done|].
  { intros l li li1 H1 H2 H3 H4. by apply (Hpresent l li li1). }
  rewrite Hst. cbn.
  exists lastActivation, delta, (bs_grads st). repeat split; try done. by apply Hbias.
Qed.

Lemma imapM_from_fmap {A B C D} (f : nat -> B -> result D) (g : A -> B)
    (g' : C -> D) (h : nat -> A -> C) i (l : list A) :
  (forall k x, l !! k = Some x -> f (i + k)%nat (g x) = Ok (g' (h (i + k)%nat x))) ->
  imapM_from f i (g <$> l) = Ok (g' <$> imap (fun k => h (i + k)%nat) l).
Proof.
  revert i. induction l as [|x l IH]; intros i Hf; [done|].
  cbn. rewrite <- (Nat.add_0_r i) at 1. rewrite (Hf 0%nat x eq_refl). cbn.
  rewrite (IH (S i)).
  - cbn. do 3 f_equal. apply imap_ext. intros k y _. cbn. f_equal. lia.
  - intros k y Hy. replace (S i + k)%nat with (i + S k)%nat by lia. by apply Hf.
Qed.

Lemma lookup_nth (l : list R) i :
  (i < length l)%nat -> l !! i = Some (nth i l 0).
Proof. intros H. destruct (nth_lookup_or_length l i 0); [done|lia]. Qed.

(** A loop that adds one real term per element computes their sum. *)
Lemma forEachM_sum {A} (body : value -> A -> result value) (l : list A)
    (terms : list R) (acc : R) :
  Forall2 (fun x r => forall a, body (Num a) x = Ok (Num (a + r))) l terms ->
  forEachM body (Num acc) l = Ok (Num (acc + Rsum terms)).
Proof.
  intros H. revert acc. induction H as [|x r l terms Hx _ IH]; intros acc.
  - unfold Rsum. cbn. do 2 f_equal. lra.
  - cbn [forEachM]. rewrite Hx. cbn [mbind result_bind]. rewrite IH.
    do 2 f_equal. unfold Rsum. cbn. lra.
Qed.

Lemma geoGradient_num (o_i : R) i (t : list R) neighbors (nd : list (list R * list R))
    layers weights biases :
  (i < length t)%nat ->
  Forall2 (fun n d =>
    forward (Sample.input n) layers weights biases = Ok (Num <$> fst d) /\
    Sample.target n = Num <$> snd d /\
    (i < length (fst d))%nat /\ (i < length (snd d))%nat) neighbors nd ->
  geoGradient (Num o_i) i (Num <$> t) neighbors layers weights biases
  = Ok (Num (0 + Rsum ((fun d => geoTerm o_i (nth i t 0) (nth i (fst d) 0) (nth i (snd d) 0))
                          <$> nd))).
Proof.
  intros Ht Hnd. unfold geoGradient. apply forEachM_sum.
  apply Forall2_fmap_r. eapply Forall2_impl; [exact Hnd|].
  intros n d (Hfwd & Htgt & Hout & Htd) a. cbn beta.
  rewrite Hfwd, Htgt. cbn.
  rewrite (aget_fmap_Num (fst d) i (nth i (fst d) 0)) by (by apply lookup_nth).
  rewrite (aget_fmap_Num t i (nth i t 0)) by (by apply lookup_nth).
  rewrite (aget_fmap_Num (snd d) i (nth i (snd d) 0)) by (by apply lookup_nth).
  cbn. do 2 f_equal. unfold geoTerm. lra.
Qed.

Lemma outputDelta_num (o t : list R) neighbors (nd : list (list R * list R))
    layers weights biases :
  (length o <= length t)%nat ->
  Forall2 (fun n d =>
    forward (Sample.input n) layers weights biases = Ok (Num <$> fst d) /\
    Sample.target n = Num <$> snd d /\
    (length o <= length (fst d))%nat /\ (length o <= length (snd d))%nat) neighbors nd ->
  outputDelta (Num <$> o) (Num <$> t) neighbors layers weights biases
  = Ok (Num <$> imap (fun i o_i =>
          deltaFormula o_i (nth i t 0)
            ((fun d => (nth i (fst d) 0, nth i (snd d) 0)) <$> nd)) o).
Proof.
  intros Ht Hnd. unfold outputDelta, imapM.
  apply (imapM_from_fmap _ Num Num
    (fun i o_i => deltaFormula o_i (nth i t 0)
       ((fun d => (nth i (fst d) 0, nth i (snd d) 0)) <$> nd)) 0 o).
  intros i o_i Hi. cbn. apply lookup_lt_Some in Hi.
  rewrite (geoGradient_num o_i i t neighbors nd layers weights biases).
  - cbn. rewrite (aget_fmap_Num t i (nth i t 0)) by (apply lookup_nth; lia).
    cbn. do 2 f_equal. unfold deltaFormula. rewrite <- list_fmap_compose.
    rewrite Rplus_0_l. reflexivity.
  - lia.
  - eapply Forall2_impl; [exact Hnd|]. cbn. intros n d (? & ? & ? & ?).
    repeat split; try done; lia.
Qed.

(** C2, as stated, fails: the lengths of the entries are never checked.
    With one input and one output neuron, a weight entry of two slots
    instead of one is used as if it had one, and an empty weight entry
    and an empty bias row make the output NaN; neither function
    throws. *)
Lemma wrong_length_does_not_halt :
  let layers := [ {| num_neurons := 1; activation_function := Some "linear"%string |};
                  {| num_neurons := 1; activation_function := Some "linear"%string |} ] in
  let long := {[ "layer0_1"%string := [Num 0.5; Num 9] ]} in
  let short := {[ "layer0_1"%string := [] ]} in
  forward [Num 1] layers long [[Num 0]; [Num 0]] = Ok [Num 0.5] /\
  forward [Num 1] layers short [[Num 0]; []] = Ok [NaN] /\
  backpropagate [Num 1] [Num 0] [] layers long [[Num 0]; [Num 0]]
  = Ok {| weightGradients := {[ "layer0_1"%string := [Num 0.5] ]};
          biasGradients := [[Num 0]; [Num 0.5]] |} /\
  backpropagate [Num 1] [Num 0] [] layers short [[Num 0]; []]
  = Ok {| weightGradients := {[ "layer0_1"%string := [NaN] ]};
          biasGradients := [[Num 0]; [NaN]] |}.
Proof.
  cbn zeta. split; [|split; [|split]].
  - unfold forward, forwardRound, getActivationFunction. js_eval.
    unfold Rmin, Rmax. repeat destruct (Rle_dec _ _); do 3 f_equal; lra.
  - unfold forward, forwardRound, getActivationFunction. by js_eval.
  - unfold backpropagate, backpropForwardPass, passRound, outputDelta, backwardPass,
      backwardRound, getActivationFunction. js_eval.
    rewrite insert_empty. do 2 f_equal.
    + do 3 f_equal. lra.
    + do 4 f_equal. lra.
  - unfold backpropagate, backpropForwardPass, passRound, outputDelta, backwardPass,
      backwardRound, getActivationFunction. js_eval.
    by rewrite insert_empty.
Qed.

(** C2 (amended): [forward] and [backpropagate] halt with an error
    exactly when an entry they read through is missing: the bias row of
    a destination layer that has a neuron, or the weight entry of a
    pair of layers that both have one.  The length of an entry never
    makes them halt. *)
Theorem throws_iff_entry_missing input target neighbors layers weights biases :
  (forward input layers weights biases = Throw TypeError
   <-> ~ entriesPresent layers weights biases) /\
  (backpropagate input target neighbors layers weights biases = Throw TypeError
   <-> ~ entriesPresent layers weights biases).
Proof.
  split.
  - rewrite <- not_Ok_Throw.
    by rewrite (forward_Ok_iff input layers weights biases).
  - rewrite <- not_Ok_Throw.
    by rewrite (backpropagate_Ok_iff input target neighbors layers weights biases).
Qed.

(** *** The pass of [backpropagate] and [forward] *)

(** The loop over the neurons stores the images of what the same loop
    stores without a final function. *)
Lemma neuron_loop_post (g : nat -> result value) (post : value -> value) n z :
  for_range 0 n (fun j next => zj ← g j; Ok (<[j := zj]> next))
    (replicate n (Num 0)) = Ok z ->
  for_range 0 n (fun j next => zj ← g j; Ok (<[j := post zj]> next))
    (replicate n (Num 0)) = Ok (post <$> z).
Proof.
  intros Hz. pose proof (neuron_loop_inv g (fun v => v) n z Hz) as [Hlen Hslots].
  destruct (neuron_loop_total g post n) as [out Hout].
  { intros j Hj. destruct (Hslots j Hj) as (zj & Hzj & _). by eauto. }
  rewrite Hout. f_equal.
  apply neuron_loop_inv in Hout as [Hlen' Hslots'].
  apply list_eq. intros j. rewrite list_lookup_fmap.
  destruct (decide (j < n)%nat) as [Hj|Hj].
  - destruct (Hslots j Hj) as (zj & Hzj & ->).
    destruct (Hslots' j Hj) as (zj' & Hzj' & ->). cbn. congruence.
  - rewrite !lookup_ge_None_2 by lia. done.
Qed.

(** Before the last layer pair, a round of [forward] computes the
    activations a round of the pass computes. *)
Lemma forwardRound_passRound layers weights biases i st st' :
  passRound layers weights biases i st = Ok st' ->
  forwardRound layers weights biases i (ps_current st)
  = Ok (if bool_decide (i = (length layers - 2)%nat)
        then ensureBounds <$> ps_current st'
        else ps_current st').
Proof.
  unfold passRound, forwardRound.
  destruct (layerAt layers i) as [li|]; [|done]. cbn.
  destruct (layerAt layers (i + 1)) as [li1|]; [|done]. cbn.
  intros (z & Hz & [= <-])%bind_Ok. cbn.
  rewrite (neuron_loop_post _
    (fun v => if bool_decide (i = (length layers - 2)%nat)
              then ensureBounds (output (getActivationFunction (activation_function li)) v)
              else output (getActivationFunction (activation_function li)) v)
    _ z Hz).
  f_equal. case_bool_decide; [|done].
  by rewrite <- list_fmap_compose.
Qed.

Lemma passRound_last layers weights biases i st st' :
  passRound layers weights biases i st = Ok st' ->
  last (ps_activations st') = Some (ps_current st').
Proof.
  unfold passRound. intros (li & _ & H)%bind_Ok.
  apply bind_Ok in H as (li1 & _ & H). cbn zeta in H.
  apply bind_Ok in H as (z & _ & [= <-]). cbn. apply last_snoc.
Qed.

(** With two layers or more, [forward] returns the activations of the
    last layer of the pass of [backpropagate], clamped. *)
Lemma forward_clamps_pass input layers weights biases pass a :
  (2 <= length layers)%nat ->
  backpropForwardPass input layers weights biases = Ok pass ->
  last (ps_activations pass) = Some a ->
  forward input layers weights biases = Ok (ensureBounds <$> a).
Proof.
  intros Hlen. unfold backpropForwardPass, forward.
  destruct (length layers - 1)%nat as [|m] eqn:Hm; [lia|].
  rewrite !for_range_snoc. intros (st & Hfirst & Hlast)%bind_Ok Ha.
  assert (for_range 0 m (forwardRound layers weights biases) input
          = Ok (ps_current st)) as ->.
  { clear Hlast Ha. assert (m <= length layers - 2)%nat as Hle by lia.
    clear Hm. revert st Hfirst. induction m as [|m IH]; intros st Hfirst.
    - by injection Hfirst as <-.
    - rewrite for_range_snoc in Hfirst. rewrite for_range_snoc.
      apply bind_Ok in Hfirst as (st0 & Hfirst & Hround).
      rewrite (IH ltac:(lia) st0 Hfirst). cbn [mbind result_bind].
      rewrite (forwardRound_passRound _ _ _ _ _ _ Hround).
      by rewrite bool_decide_eq_false_2 by lia. }
  cbn [mbind result_bind]. rewrite (forwardRound_passRound _ _ _ _ _ _ Hlast).
  rewrite bool_decide_eq_true_2 by lia.
  apply passRound_last in Hlast. congruence.
Qed.

(** *** The delta of the output layer *)

(** The delta of every output dimension, in terms of the activation [o]
    of the last layer in the pass of [backpropagate] and of what
    [forward] returns on the inputs of the neighbours. *)
Lemma backpropagate_output_delta input (o t : list R) neighbors
    (nd : list (list R * list R)) layers weights biases pass :
  (2 <= length layers)%nat ->
  backpropForwardPass input layers weights biases = Ok pass ->
  last (ps_activations pass) = Some (Num <$> o) ->
  (length o <= length t)%nat ->
  Forall2 (fun n d =>
    forward (Sample.input n) layers weights biases = Ok (Num <$> fst d) /\
    Sample.target n = Num <$> snd d /\
    (length o <= length (fst d))%nat /\ (length o <= length (snd d))%nat) neighbors nd ->
  exists g,
    backpropagate input (Num <$> t) neighbors layers weights biases = Ok g /\
    biasGradients g !! (length layers - 1)%nat
    = Some (Num <$> imap (fun i o_i =>
              deltaFormula o_i (nth i t 0)
                ((fun d => (nth i (fst d) 0, nth i (snd d) 0)) <$> nd)) o).
Proof.
  intros Hlen Hpass Hlast Ht Hnd.
  destruct (backpropagate_delta input (Num <$> t) neighbors layers weights biases pass
    Hlen Hpass) as (lastActivation & delta & g & Hlast' & Hdelta & Hg & Hbias).
  rewrite Hlast in Hlast'. injection Hlast' as <-.
  rewrite (outputDelta_num o t neighbors nd) in Hdelta by done.
  injection Hdelta as <-. by exists g.
Qed.

(** C7, as stated, fails: the delta is not taken at the output of the
    example.  The network below has one linear neuron fed by one input
    with the weight [2].  On the input [1] the output of the example,
    as [forward] returns it, is [1]: the weighted sum [2], clamped.  The
    neighbour has the input [0.25], hence the output [0.5], and the
    target [0.125]; the target of the example is [0].  The formula at
    the output [1] gives [1.075]; the delta [backpropagate] uses is
    [2.275], the formula at [2], the activation before the clamp. *)
Lemma delta_is_not_at_the_clamped_output :
  let weights : Weights := {[ "layer0_1"%string := [Num 2] ]} in
  let biases := [[Num 0]; [Num 0]] in
  let neighbors := [Sample.make [Num 0.25] [Num 0.125]] in
  forward [Num 1] tinyLayers weights biases = Ok [Num 1] /\
  forward [Num 0.25] tinyLayers weights biases = Ok [Num 0.5] /\
  deltaFormula 1 0 [(0.5, 0.125)] = 1.075 /\
  exists g,
    backpropagate [Num 1] [Num 0] neighbors tinyLayers weights biases = Ok g /\
    biasGradients g !! 1%nat = Some [Num 2.275] /\
    biasGradients g !! 1%nat <> Some [Num (deltaFormula 1 0 [(0.5, 0.125)])].
Proof.
  cbn zeta.
  assert (forward [Num 1] tinyLayers {[ "layer0_1"%string := [Num 2] ]}
            [[Num 0]; [Num 0]] = Ok [Num 1]) as Hout.
  { unfold forward, forwardRound, getActivationFunction, tinyLayers. js_eval.
    unfold Rmin, Rmax. repeat destruct (Rle_dec _ _); do 3 f_equal; lra. }
  assert (forward [Num 0.25] tinyLayers {[ "layer0_1"%string := [Num 2] ]}
            [[Num 0]; [Num 0]] = Ok [Num 0.5]) as Hn.
  { unfold forward, forwardRound, getActivationFunction, tinyLayers. js_eval.
    unfold Rmin, Rmax. repeat destruct (Rle_dec _ _); do 3 f_equal; lra. }
  assert (deltaFormula 1 0 [(0.5, 0.125)] = 1.075) as Hformula.
  { unfold deltaFormula, geoTerm, Rsum. cbn [fmap list_fmap foldr fst snd].
    rewrite (Rabs_pos_eq (1 - 0.5)) by lra. rewrite (Rabs_left (0 - 0.125)) by lra.
    unfold Rsign. rewrite decide_True by lra. lra. }
  split; [exact Hout|]. split; [exact Hn|]. split; [exact Hformula|].
  destruct (backpropagate_output_delta [Num 1] [2] [0]
    [Sample.make [Num 0.25] [Num 0.125]] [([0.5], [0.125])] tinyLayers
    {[ "layer0_1"%string := [Num 2] ]} [[Num 0]; [Num 0]]
    {| ps_current := [Num 2]; ps_activations := [[Num 1]; [Num 2]];
       ps_zs := [[Num 2]] |}) as (g & Hg & Hdelta).
  - cbn. lia.
  - unfold backpropForwardPass, passRound, getActivationFunction, tinyLayers. js_eval.
    do 2 f_equal; repeat f_equal; lra.
  - reflexivity.
  - cbn. lia.
  - constructor; [|constructor]. cbn. repeat split; try lia. exact Hn.
  - exists g. split; [exact Hg|].
    assert (deltaFormula 2 0 [(0.5, 0.125)] = 2.275) as Hcode.
    { unfold deltaFormula, geoTerm, Rsum. cbn [fmap list_fmap foldr fst snd].
      rewrite (Rabs_pos_eq (2 - 0.5)) by lra. rewrite (Rabs_left (0 - 0.125)) by lra.
      unfold Rsign. rewrite decide_True by lra. lra. }
    cbn in Hdelta. rewrite Hcode in Hdelta. split; [exact Hdelta|].
    rewrite Hdelta, Hformula. intros [= H]. lra.
Qed.

(** C7 (amended): the delta of every output dimension is
    [(o_i - t_i) + 0.1 * sum over the neighbours of
     2 * sign (o_i - n_out_i) * (|o_i - n_out_i| - |t_i - n_target_i|)],
    where [o] is the activation of the last layer as the pass of
    [backpropagate] computes it, before any clamp, and every [n_out] is
    what [forward] returns on the input of the neighbour; that delta is
    the bias gradient returned for the last layer.  The output of the
    example, as [forward] returns it, is [o] clamped to [[-1, 1]]; it is
    [o] itself when [o] lies there. *)
Theorem output_delta_formula input (o t : list R) neighbors
    (nd : list (list R * list R)) layers weights biases :
  (2 <= length layers)%nat ->
  (exists pass, backpropForwardPass input layers weights biases = Ok pass /\
                last (ps_activations pass) = Some (Num <$> o)) ->
  (length o <= length t)%nat ->
  Forall2 (fun n d =>
    forward (Sample.input n) layers weights biases = Ok (Num <$> fst d) /\
    Sample.target n = Num <$> snd d /\
    (length o <= length (fst d))%nat /\ (length o <= length (snd d))%nat) neighbors nd ->
  exists g,
    backpropagate input (Num <$> t) neighbors layers weights biases = Ok g /\
    biasGradients g !! (length layers - 1)%nat
    = Some (Num <$> imap (fun i o_i =>
              deltaFormula o_i (nth i t 0)
                ((fun d => (nth i (fst d) 0, nth i (snd d) 0)) <$> nd)) o) /\
    forward input layers weights biases
    = Ok (Num <$> ((fun o_i => Rmax (-1) (Rmin 1 o_i)) <$> o)) /\
    (Forall (fun o_i => -1 <= o_i <= 1) o ->
     forward input layers weights biases = Ok (Num <$> o)).
Proof.
  intros Hlen (pass & Hpass & Hlast) Ht Hnd.
  destruct (backpropagate_output_delta input o t neighbors nd layers weights biases pass
    Hlen Hpass Hlast Ht Hnd) as (g & Hg & Hdelta).
  exists g. split; [exact Hg|]. split; [exact Hdelta|].
  rewrite (forward_clamps_pass input layers weights biases pass _ Hlen Hpass Hlast).
  rewrite <- !list_fmap_compose. split; [reflexivity|].
  intros Hin. f_equal. apply list_eq. intros i.
  rewrite !list_lookup_fmap. destruct (o !! i) as [x|] eqn:Hx; [|reflexivity].
  cbn. f_equal. apply ensureBounds_inside.
  exact (proj1 (Forall_lookup _ _) Hin i x Hx).
Qed.

Lemma output_delta_formula_witness :
  let layers := [ {| num_neurons := 1; activation_function := Some "linear"%string |};
                  {| num_neurons := 1; activation_function := Some "linear"%string |} ] in
  let weights := {[ "layer0_1"%string := [Num 2] ]} in
  let biases := [[Num 0]; [Num 0]] in
  let neighbors := [Sample.make [Num 0.25] [Num 0.125]] in
  exists g,
    backpropagate [Num 1] (Num <$> [0]) neighbors layers weights biases = Ok g /\
    biasGradients g !! 1%nat
    = Some (Num <$> imap (fun i o_i =>
              deltaFormula o_i (nth i [0] 0)
                ((fun d => (nth i (fst d) 0, nth i (snd d) 0)) <$> [([0.5], [0.125])]))
              [2]) /\
    forward [Num 1] layers weights biases
    = Ok (Num <$> ((fun o_i => Rmax (-1) (Rmin 1 o_i)) <$> [2])) /\
    (Forall (fun o_i => -1 <= o_i <= 1) [2] ->
     forward [Num 1] layers weights biases = Ok (Num <$> [2])).
Proof.
  cbn zeta.
  apply (output_delta_formula [Num 1] [2] [0] _ [([0.5], [0.125])]).
  - cbn. lia.
  - eexists. split.
    + unfold backpropForwardPass, passRound, getActivationFunction. js_eval.
      reflexivity.
    + cbn. do 3 f_equal. lra.
  - cbn. lia.
  - constructor; [|constructor]. cbn. repeat split; try lia.
    unfold forward, forwardRound, getActivationFunction. js_eval.
    unfold Rmin, Rmax. repeat destruct (Rle_dec _ _); do 3 f_equal; lra.
Defined.

(** ** Gradient clipping *)

Lemma Rsum_squares_nonneg (g : list R) : 0 <= Rsum ((fun x => x * x) <$> g).
Proof.
  induction g as [|x g IH]; unfold Rsum in *; cbn; [lra|]. nra.
Qed.


Lemma l2norm_nonneg g : 0 <= l2norm g.
Proof. apply sqrt_pos. Qed.


Lemma foldl_squares (g : list R) (a : R) :
  foldl (fun sum g => vadd sum (vmul g g)) (Num a) (Num <$> g)
  = Num (a + Rsum ((fun x => x * x) <$> g)).
Proof.
  revert a. induction g as [|x g IH]; intros a; unfold Rsum in *; cbn.
  - f_equal. lra.
  - rewrite IH. f_equal. lra.
Qed.

Lemma clipVector_num (g : list R) :
  clipVector (Num 0.5) (Num <$> g)
  = Num <$> (if decide (0.5 < l2norm g)
             then (fun x => x * (0.5 / l2norm g)) <$> g
             else g).
Proof.
  unfold clipVector. rewrite foldl_squares, Rplus_0_l.
  unfold Math_sqrt. cbn [toNumber].
  rewrite decide_False by (pose proof (Rsum_squares_nonneg g); lra).
  fold (l2norm g). unfold vgt, vlt. cbn [toNumber].
  destruct (decide (0.5 < l2norm g)) as [Hbig|Hsmall].
  - rewrite bool_decide_eq_true_2 by done.
    unfold vdiv. cbn [toNumber]. rewrite decide_False by lra.
    rewrite <- !list_fmap_compose. by apply list_fmap_ext.
  - by rewrite bool_decide_eq_false_2 by done.
Qed.



(** ** Dataset generation *)

Lemma arith2_isNumber f a b : isNumber (arith2 f a b).
Proof.
  unfold arith2. destruct (toNumber a), (toNumber b); [right; by eexists|by left..].
Qed.

Lemma normalRandomLoop_S random fuel pos :
  normalRandomLoop random (S fuel) pos
  = let v1 := 2 * random pos - 1 in
    let v2 := 2 * random (S pos) - 1 in
    if bool_decide (1 < v1 * v1 + v2 * v2)
    then normalRandomLoop random fuel (S (S pos))
    else Some (Ok (Num v1, Num (v1 * v1 + v2 * v2)), S (S pos)).
Proof.
  cbn. unfold mbind, G_bind, gbind, Math_random. cbn.
  by destruct (bool_decide _).
Qed.

Lemma normalRandomLoop_returns random pos k :
  acceptedAt random (pos + 2 * k)%nat ->
  exists fuel v pos',
    forall fuel', (fuel <= fuel')%nat ->
      normalRandomLoop random fuel' pos = Some (Ok v, pos').
Proof.
  revert pos. induction k as [|k IH]; intros pos Hacc.
  - exists 1%nat. eexists. eexists. intros [|fuel'] Hfuel; [lia|].
    rewrite normalRandomLoop_S. cbn zeta.
    rewrite bool_decide_eq_false_2; [done|].
    unfold acceptedAt in Hacc. rewrite Nat.add_0_r in Hacc. lra.
  - destruct (decide (1 < (2 * random pos - 1) * (2 * random pos - 1)
                       + (2 * random (S pos) - 1) * (2 * random (S pos) - 1)))
      as [Hrej|Hok].
    + destruct (IH (S (S pos))) as (fuel & v & pos' & Hrun).
      { by replace (S (S pos) + 2 * k)%nat with (pos + 2 * S k)%nat by lia. }
      exists (S fuel), v, pos'. intros [|fuel'] Hfuel; [lia|].
      rewrite normalRandomLoop_S. cbn zeta.
      rewrite bool_decide_eq_true_2 by done. apply Hrun. lia.
    + exists 1%nat. eexists. eexists. intros [|fuel'] Hfuel; [lia|].
      rewrite normalRandomLoop_S. cbn zeta.
      by rewrite bool_decide_eq_false_2.
Qed.

Lemma normalRandom_returns random mean variance pos :
  accepts random ->
  exists fuel x pos',
    isNumber x /\
    forall fuel', (fuel <= fuel')%nat ->
      normalRandom random fuel' mean variance pos = Some (Ok x, pos').
Proof.
  intros Hacc. destruct (Hacc pos) as [k Hk].
  destruct (normalRandomLoop_returns random pos k Hk) as (fuel & [v1 s] & pos' & Hrun).
  exists fuel. eexists. exists pos'. split; [|intros fuel' Hfuel].
  2: { unfold normalRandom, mbind, G_bind, gbind. rewrite (Hrun fuel' Hfuel). done. }
  apply arith2_isNumber.
Qed.

Lemma Int_part_IZR (z : Z) : Int_part (IZR z) = z.
Proof.
  destruct (base_Int_part (IZR z)) as [Hle Hgt].
  apply le_IZR in Hle.
  assert (IZR z < IZR (Int_part (IZR z) + 1)) as Hlt by (rewrite plus_IZR; lra).
  apply lt_IZR in Hlt. lia.
Qed.

Lemma centerAt_returns (u : R) pos :
  0 <= u < 1 ->
  exists p, centerAt (Math_floor (vmul (Num u) (Num 4))) pos = Some (Ok p, pos).
Proof.
  intros Hu. cbn. destruct (base_Int_part (u * 4)) as [Hle Hgt].
  assert (0 <= Int_part (u * 4) < 4)%Z as Hip.
  { split.
    - apply Z.lt_succ_r. apply lt_IZR. rewrite succ_IZR. lra.
    - apply lt_IZR. lra. }
  rewrite Int_part_IZR.
  rewrite decide_True by (split; [apply IZR_le; lia|done]).
  destruct (lookup_lt_is_Some_2 centers (Z.to_nat (Int_part (u * 4)))) as [p Hp].
  { cbn. lia. }
  rewrite Hp. by exists p.
Qed.

(** The size plays no part in [generateRandomInput]. *)
Lemma generateRandomInput_size random fuel size size' datasetType noise pos :
  generateRandomInput random fuel size datasetType noise pos
  = generateRandomInput random fuel size' datasetType noise pos.
Proof. done. Qed.

Lemma generateRandomInput_returns random size datasetType noise pos :
  inUnit random -> accepts random ->
  exists fuel x y pos',
    isNumber x /\ isNumber y /\
    forall fuel', (fuel <= fuel')%nat ->
      generateRandomInput random fuel' size datasetType noise pos
      = Some (Ok [x; y], pos').
Proof.
  intros Hunit Hacc. unfold generateRandomInput.
  destruct (decide (datasetType = "circle"%string)).
  { exists 0%nat. do 3 eexists. split; [|split].
    3: { intros fuel' _. reflexivity. }
    all: apply arith2_isNumber. }
  destruct (decide (datasetType = "gaussian"%string)).
  { unfold mbind, G_bind, gbind, Math_random.
    destruct (centerAt_returns (random pos) (S pos) (Hunit pos)) as [[cx cy] Hc].
    destruct (normalRandom_returns random cx
      (vadd (Num 0.2) (vmul (orDefault noise (Num 0.1)) (Num 0.3))) (S pos) Hacc)
      as (fuel1 & x & pos1 & Hnx & Hx).
    destruct (normalRandom_returns random cy
      (vadd (Num 0.2) (vmul (orDefault noise (Num 0.1)) (Num 0.3))) pos1 Hacc)
      as (fuel2 & y & pos2 & Hny & Hy).
    exists (Nat.max fuel1 fuel2), x, y, pos2.
    split; [done|]. split; [done|]. intros fuel' Hfuel.
    rewrite Hc, (Hx fuel') by lia. rewrite (Hy fuel') by lia. done. }
  destruct (decide (datasetType = "spiral"%string)).
  { exists 0%nat. do 3 eexists. split; [|split].
    3: { intros fuel' _. reflexivity. }
    all: apply arith2_isNumber. }
  destruct (decide (datasetType = "xor"%string)).
  { exists 0%nat. do 3 eexists. split; [|split].
    3: { intros fuel' _. reflexivity. }
    all: apply arith2_isNumber. }
  exists 0%nat. do 3 eexists. split; [|split].
  3: { intros fuel' _. reflexivity. }
  all: apply arith2_isNumber.
Qed.

Lemma generateSamples_returns random sampleSize datasetType noise pos :
  inUnit random -> accepts random ->
  exists fuel samples pos',
    length samples = sampleSize /\
    Forall (fun p => length p = 2%nat /\ Forall isNumber p) samples /\
    forall fuel', (fuel <= fuel')%nat ->
      generateSamples random fuel' sampleSize datasetType noise pos
      = Some (Ok samples, pos').
Proof.
  intros Hunit Hacc. revert pos.
  induction sampleSize as [|n IH]; intros pos.
  - exists 0%nat, [], pos. by repeat split.
  - destruct (generateRandomInput_returns random (Num 2) datasetType noise pos Hunit Hacc)
      as (fuel1 & x & y & pos1 & Hnx & Hny & Hp).
    destruct (IH pos1) as (fuel2 & samples & pos2 & Hlen & Hall & Hrun).
    exists (Nat.max fuel1 fuel2), ([x; y] :: samples), pos2.
    split; [cbn; lia|]. split.
    { constructor; [|done]. split; [reflexivity|].
      constructor; [exact Hnx|]. constructor; [exact Hny|]. constructor. }
    intros fuel' Hfuel. cbn [generateSamples].
    unfold mbind, G_bind, gbind.
    rewrite (Hp fuel') by lia. rewrite (Hrun fuel') by lia. done.
Qed.

(** C10: whatever the pattern, the noise and the size, and for every
    sequence of random numbers that meets the assumptions on
    [Math.random], [generateRandomInput] returns a vector of exactly two
    numbers, the same for every size; and [generateDataset] returns as
    many samples as asked, of two numbers each. *)
Theorem generator_is_two_dimensional random size size' sampleSize datasetType noise pos :
  inUnit random -> accepts random ->
  (exists fuel x y pos',
     isNumber x /\ isNumber y /\
     forall fuel', (fuel <= fuel')%nat ->
       generateRandomInput random fuel' size datasetType noise pos
       = Some (Ok [x; y], pos') /\
       generateRandomInput random fuel' size' datasetType noise pos
       = Some (Ok [x; y], pos')) /\
  (exists fuel samples pos',
     length samples = sampleSize /\
     Forall (fun p => length p = 2%nat /\ Forall isNumber p) samples /\
     forall fuel', (fuel <= fuel')%nat ->
       generateDataset random fuel' sampleSize datasetType noise pos
       = Some (Ok samples, pos')).
Proof.
  intros Hunit Hacc. split.
  - destruct (generateRandomInput_returns random size datasetType noise pos Hunit Hacc)
      as (fuel & x & y & pos' & Hnx & Hny & Hrun).
    exists fuel, x, y, pos'. split; [done|]. split; [done|]. intros fuel' Hfuel.
    rewrite <- (generateRandomInput_size random fuel' size size'). by split; apply Hrun.
  - unfold generateDataset. by apply generateSamples_returns.
Qed.

(** ** The store: what a computation of the trainer may change *)

Section StoreLogic.
Context {Host : Type}.
Implicit Types (s : @State Host).

Lemma triple_bind {A B} P (m : @T Host A) Q (k : A -> @T Host B) R E :
  triple P m Q E -> (forall a, triple (Q a) (k a) R E) ->
  triple P (m ≫= k) R E.
Proof.
  intros Hm Hk s Hs. specialize (Hm s Hs).
  unfold mbind, T_bind, tbind. destruct (m s) as [[a| |] s']; [|done..].
  by apply Hk.
Qed.

Lemma triple_weaken {A} (P P' : @State Host -> Prop) (m : @T Host A)
    (Q Q' : A -> @State Host -> Prop) E :
  triple P m Q E -> (forall s, P' s -> P s) -> (forall a s, Q a s -> Q' a s) ->
  triple P' m Q' E.
Proof.
  intros Hm HP HQ s Hs. specialize (Hm s (HP s Hs)).
  destruct (m s) as [[a| |] s']; [by apply HQ|done..].
Qed.

Lemma triple_ret {A} (P : @State Host -> Prop) (a : A) E :
  triple P (mret a : @T Host A) (fun a' s => a' = a /\ P s) E.
Proof. by intros s Hs. Qed.

Lemma triple_lift {A} (P : @State Host -> Prop) (r : result A) :
  triple P (lift r : @T Host A) (fun a s => r = Ok a /\ P s) P.
Proof. intros s Hs. unfold lift. by destruct r. Qed.

Lemma triple_diverge {A} (P : @State Host -> Prop) (Q : A -> @State Host -> Prop) :
  triple P (diverge : @T Host A) Q P.
Proof. by intros s Hs. Qed.

Lemma triple_readWeights (P : @State Host -> Prop) l :
  triple P (readWeights l : @T Host _)
    (fun w s => st_heap s !! l = Some (ObjWeights w) /\ P s) P.
Proof.
  intros s Hs. unfold readWeights.
  destruct (st_heap s !! l) as [[w|rows]|] eqn:Hl; cbn; auto.
Qed.

Lemma triple_readRows (P : @State Host -> Prop) l :
  triple P (readRows l : @T Host _)
    (fun rows s => st_heap s !! l = Some (ObjRows rows) /\ P s) P.
Proof.
  intros s Hs. unfold readRows.
  destruct (st_heap s !! l) as [[w|rows]|] eqn:Hl; cbn; auto.
Qed.

Lemma triple_forEachT {A St} (I : @State Host -> Prop) (body : St -> A -> @T Host St)
    (st : St) (l : list A) :
  (forall st x, triple I (body st x) (fun _ => I) I) ->
  triple I (forEachT body st l) (fun _ => I) I.
Proof.
  intros Hbody. revert st. induction l as [|x l IH]; intros st.
  - by intros s Hs.
  - cbn [forEachT]. eapply triple_bind; [apply Hbody|]. intros st'. apply IH.
Qed.

Lemma triple_imapT_from {A B} (I : @State Host -> Prop) (f : nat -> A -> @T Host B)
    (i : nat) (l : list A) :
  (forall i x, triple I (f i x) (fun _ => I) I) ->
  triple I (imapT_from f i l) (fun _ => I) I.
Proof.
  intros Hf. revert i. induction l as [|x l IH]; intros i.
  - by intros s Hs.
  - cbn [imapT_from]. eapply triple_bind; [apply Hf|]. intros y.
    eapply triple_bind; [apply IH|]. intros ys. by intros s Hs.
Qed.

(** *** The objects of the caller are not written *)

Lemma keeps_bind h0 {A B} (m : @T Host A) (k : A -> @T Host B) :
  keeps h0 m -> (forall a, keeps h0 (k a)) -> keeps h0 (m ≫= k).
Proof. intros Hm Hk. eapply triple_bind; [exact Hm|exact Hk]. Qed.

Lemma keeps_ret h0 {A} (a : A) : keeps h0 (mret a : @T Host A).
Proof. intros s Hs. exact Hs. Qed.

Lemma keeps_lift h0 {A} (r : result A) : keeps h0 (lift r : @T Host A).
Proof. intros s Hs. unfold lift. destruct r; exact Hs. Qed.

Lemma keeps_diverge h0 {A} : keeps h0 (diverge : @T Host A).
Proof. intros s Hs. exact Hs. Qed.

Lemma keeps_readWeights h0 l : keeps h0 (readWeights l : @T Host _).
Proof.
  intros s Hs. unfold readWeights.
  destruct (st_heap s !! l) as [[w|rows]|]; exact Hs.
Qed.

Lemma keeps_readRows h0 l : keeps h0 (readRows l : @T Host _).
Proof.
  intros s Hs. unfold readRows.
  destruct (st_heap s !! l) as [[w|rows]|]; exact Hs.
Qed.

Lemma keeps_writeKey h0 l key arr : l ∉ dom h0 -> keeps h0 (writeKey l key arr : @T Host _).
Proof.
  intros Hl s Hs. unfold writeKey.
  destruct (st_heap s !! l) as [[w|rows]|]; [|exact Hs..].
  intros l' Hl'. cbn. rewrite lookup_insert_ne by set_solver. by apply Hs.
Qed.

Lemma keeps_writeSlot h0 l i j v : l ∉ dom h0 -> keeps h0 (writeSlot l i j v : @T Host _).
Proof.
  intros Hl s Hs. unfold writeSlot.
  destruct (st_heap s !! l) as [[w|rows]|]; [exact Hs| |exact Hs].
  destruct (rows !! i); [|exact Hs].
  intros l' Hl'. cbn. rewrite lookup_insert_ne by set_solver. by apply Hs.
Qed.

Lemma keeps_callHost h0 {Ret} (f : Host -> result Ret * Host) : keeps h0 (callHost f).
Proof.
  intros s Hs. unfold callHost. destruct (f (st_host s)) as [[x|e] h]; exact Hs.
Qed.

(** A new object is put where no object of [h0] is. *)
Lemma alloc_fresh h0 o :
  triple (untouched h0) (alloc o : @T Host _)
    (fun l s => (l ∉ dom h0) /\ untouched h0 s) (untouched h0).
Proof.
  intros s Hs. unfold alloc. cbn.
  set (new := fresh (dom (st_heap s))).
  assert (new ∉ dom h0) as Hfresh.
  { intros Hin. apply (is_fresh (dom (st_heap s))). fold new.
    apply elem_of_dom. rewrite (Hs _ Hin). by apply elem_of_dom. }
  split; [done|]. intros l Hl. cbn.
  rewrite lookup_insert_ne; [by apply Hs|]. congruence.
Qed.

Lemma keeps_forEachT h0 {A St} (body : St -> A -> @T Host St) (st : St) (l : list A) :
  (forall st x, keeps h0 (body st x)) -> keeps h0 (forEachT body st l).
Proof. apply triple_forEachT. Qed.

Lemma keeps_imapT h0 {A B} (f : nat -> A -> @T Host B) (l : list A) :
  (forall i x, keeps h0 (f i x)) -> keeps h0 (imapT f l).
Proof. apply triple_imapT_from. Qed.

End StoreLogic.

(** ** The trainer writes its own objects only *)

Section Frame.
Context {Host Ret : Type}.
Variable shuffle : nat -> list Example -> list Example.
Variable h0 : gmap nat obj.
Variable layers : list NeuronLayer.
Variable biases : nat.
Variables currentWeights weightVelocities biasVelocities : nat.
Hypothesis currentWeights_own : currentWeights ∉ dom h0.
Hypothesis weightVelocities_own : weightVelocities ∉ dom h0.
Hypothesis biasVelocities_own : biasVelocities ∉ dom h0.

Local Ltac keeps_step :=
  first
    [ apply keeps_ret | apply keeps_lift | apply keeps_diverge
    | apply keeps_readWeights | apply keeps_readRows
    | apply keeps_callHost
    | apply keeps_writeKey; assumption
    | apply keeps_writeSlot; assumption
    | apply keeps_bind; [|intros ?] ].

Lemma keeps_updateWeightsKey l2Factor momentum scaledLR gradients key :
  keeps (Host := Host) h0
    (updateWeightsKey currentWeights weightVelocities l2Factor
       momentum scaledLR gradients key).
Proof. unfold updateWeightsKey. repeat keeps_step. Qed.

Lemma keeps_updateBiasSlot momentum scaledLR gradients i j b :
  keeps (Host := Host) h0
    (updateBiasSlot biasVelocities momentum scaledLR gradients i j b).
Proof. unfold updateBiasSlot. repeat keeps_step. Qed.

Lemma keeps_accumulateBatch l2Factor batch st :
  keeps (Host := Host) h0
    (accumulateBatch layers biases currentWeights l2Factor batch st).
Proof.
  unfold accumulateBatch. repeat keeps_step.
  apply keeps_forEachT. intros acc example. repeat keeps_step.
Qed.

Lemma keeps_applyUpdate l2Factor batch momentum decayedLR batchGradients currentBiases :
  keeps (Host := Host) h0
    (applyUpdate currentWeights weightVelocities biasVelocities l2Factor batch
       momentum decayedLR batchGradients currentBiases).
Proof.
  unfold applyUpdate. apply keeps_bind.
  - apply keeps_forEachT. intros _ key. apply keeps_updateWeightsKey.
  - intros _. apply keeps_imapT. intros i layer. apply keeps_imapT.
    intros j b. apply keeps_updateBiasSlot.
Qed.

Lemma keeps_trainBatch l2Factor batch momentum decayedLR st :
  keeps (Host := Host) h0
    (trainBatch layers biases currentWeights weightVelocities biasVelocities
       l2Factor batch momentum decayedLR st).
Proof.
  unfold trainBatch. apply keeps_bind; [apply keeps_accumulateBatch|].
  intros acc. apply keeps_bind; [apply keeps_applyUpdate|].
  intros newBiases. apply keeps_ret.
Qed.

Lemma keeps_batchLoop l2Factor batchSize shuffledData momentum decayedLR fuel i st :
  keeps (Host := Host) h0
    (batchLoop layers biases currentWeights weightVelocities biasVelocities
       l2Factor batchSize shuffledData momentum decayedLR fuel i st).
Proof.
  revert i st. induction fuel as [|fuel IH]; intros i st; cbn [batchLoop].
  - case_bool_decide; [apply keeps_diverge|apply keeps_ret].
  - case_bool_decide; [|apply keeps_ret].
    apply keeps_bind; [apply keeps_trainBatch|]. intros st'. apply IH.
Qed.

Lemma keeps_trainEpoch learningRate l2Factor epochs batchSize
    (onProgress : option (@Callback Host Ret)) normalizedData epoch st :
  keeps h0
    (trainEpoch shuffle layers biases currentWeights weightVelocities biasVelocities
       learningRate l2Factor epochs batchSize onProgress normalizedData epoch st).
Proof.
  unfold trainEpoch. apply keeps_bind; [apply keeps_batchLoop|].
  intros st'. apply keeps_bind; [|intros ?; apply keeps_ret].
  destruct onProgress as [callback|]; repeat keeps_step.
Qed.

Lemma keeps_epochLoop learningRate l2Factor epochs batchSize
    (onProgress : option (@Callback Host Ret)) normalizedData n epoch st :
  keeps h0
    (epochLoop shuffle layers biases currentWeights weightVelocities biasVelocities
       learningRate l2Factor epochs batchSize onProgress normalizedData n epoch st).
Proof.
  revert epoch st. induction n as [|n IH]; intros epoch st; cbn [epochLoop].
  - apply keeps_ret.
  - apply keeps_bind; [apply keeps_trainEpoch|]. intros [st' avgError].
    destruct (vlt avgError (Num 1e-4)); [apply keeps_ret|apply IH].
Qed.

End Frame.

Lemma untouched_refl {Host} (s : @State Host) : untouched (st_heap s) s.
Proof. by intros l _. Qed.

Lemma keeps_alloc_bind {Host} (h0 : gmap nat obj) {B} (o : obj) (k : nat -> @T Host B) :
  (forall l, l ∉ dom h0 -> keeps h0 (k l)) -> keeps h0 (alloc o ≫= k).
Proof.
  intros Hk. eapply triple_bind; [apply alloc_fresh|].
  intros l s [Hl Hs]. by apply Hk.
Qed.

Lemma keeps_final {Host A} (h0 : gmap nat obj) (m : @T Host A) s :
  keeps h0 m -> untouched h0 s -> untouched h0 (m s).2.
Proof.
  intros Hm Hs. specialize (Hm s Hs). by destruct (m s) as [[a| |] s'].
Qed.

(** C9: when [trainNetwork] ends, normally or with an error, every
    object that was in the store when it was called -- the weight table
    and the bias table of the caller among them -- is as it was: the
    trainer writes only the objects it has created itself. *)
Theorem trainNetwork_leaves_caller_objects {Host Ret : Type}
    (shuffle : nat -> list Example -> list Example) (layers : list NeuronLayer)
    (weights biases : nat) (trainingData : list Sample.t)
    (options : @Options Host Ret) (s : @State Host) (l : nat) :
  l ∈ dom (st_heap s) ->
  st_heap (trainNetwork shuffle layers weights biases trainingData options s).2 !! l
  = st_heap s !! l.
Proof.
  intros Hl. revert l Hl. apply keeps_final; [|apply untouched_refl].
  unfold trainNetwork.
  apply keeps_bind; [apply keeps_readWeights|]. intros w0.
  apply keeps_alloc_bind. intros currentWeights HcurrentWeights.
  apply keeps_bind; [apply keeps_readRows|]. intros b0.
  apply keeps_bind; [apply keeps_readWeights|]. intros w0'.
  apply keeps_alloc_bind. intros weightVelocities HweightVelocities.
  apply keeps_bind; [apply keeps_readRows|]. intros b0'.
  apply keeps_alloc_bind. intros biasVelocities HbiasVelocities.
  apply keeps_bind; [apply keeps_lift|]. intros inputBounds.
  apply keeps_bind; [apply keeps_lift|]. intros targetBounds.
  apply keeps_bind; [by apply keeps_epochLoop|]. intros st.
  apply keeps_bind; [apply keeps_readWeights|]. intros cw.
  apply keeps_ret.
Qed.

(** ** The epoch loop and the progress callback *)

Section Epochs.
Context {Host Ret : Type}.
Implicit Types (s : @State Host).

Lemma tbind_ext {A B} (m1 m2 : @T Host A) (k1 k2 : A -> @T Host B) s :
  m1 s = m2 s -> (forall a s', k1 a s' = k2 a s') ->
  (m1 ≫= k1) s = (m2 ≫= k2) s.
Proof.
  intros Hm Hk. unfold mbind, T_bind, tbind. rewrite Hm.
  destruct (m2 s) as [[a| |] s']; [apply Hk|done..].
Qed.

Lemma tbind_Returned {A B} (m : @T Host A) (k : A -> @T Host B) s b s' :
  (m ≫= k) s = (Returned b, s') ->
  exists a s1, m s = (Returned a, s1) /\ k a s1 = (Returned b, s').
Proof.
  unfold mbind, T_bind, tbind.
  destruct (m s) as [[a| |] s1]; [by eauto|done..].
Qed.

(** The value a callback returns is dropped at once. *)
Lemma callHost_drop (f1 f2 : Host -> result Ret * Host) s :
  (forall h, sameOutcome (f1 h).1 (f2 h).1 /\ (f1 h).2 = (f2 h).2) ->
  (callHost f1 ≫= fun _ => mret tt) s = (callHost f2 ≫= fun _ => mret tt) s.
Proof.
  intros Hf. unfold mbind, T_bind, tbind, callHost.
  destruct (Hf (st_host s)) as [Hout Hhost].
  destruct (f1 (st_host s)) as [r1 h1], (f2 (st_host s)) as [r2 h2].
  cbn in Hout, Hhost. subst h2.
  destruct r1 as [x1|e1], r2 as [x2|e2]; cbn in Hout; try done. by subst.
Qed.

Variable shuffle : nat -> list Example -> list Example.
Variable layers : list NeuronLayer.
Variable biases : nat.
Variables currentWeights weightVelocities biasVelocities : nat.
Variables learningRate l2Factor : value.
Variables epochs batchSize : nat.
Variable normalizedData : list Example.

Lemma trainEpoch_callback (callback1 callback2 : @Callback Host Ret) epoch st s :
  differOnlyInReturn callback1 callback2 ->
  trainEpoch shuffle layers biases currentWeights weightVelocities biasVelocities
    learningRate l2Factor epochs batchSize (Some callback1) normalizedData epoch st s
  = trainEpoch shuffle layers biases currentWeights weightVelocities biasVelocities
      learningRate l2Factor epochs batchSize (Some callback2) normalizedData epoch st s.
Proof.
  intros Hcb. unfold trainEpoch.
  apply tbind_ext; [done|]. intros st' s'.
  apply tbind_ext; [|done].
  apply tbind_ext; [done|]. intros cw s''.
  apply callHost_drop. intros h. apply Hcb.
Qed.

Lemma epochLoop_callback (callback1 callback2 : @Callback Host Ret) n epoch st s :
  differOnlyInReturn callback1 callback2 ->
  epochLoop shuffle layers biases currentWeights weightVelocities biasVelocities
    learningRate l2Factor epochs batchSize (Some callback1) normalizedData n epoch st s
  = epochLoop shuffle layers biases currentWeights weightVelocities biasVelocities
      learningRate l2Factor epochs batchSize (Some callback2) normalizedData n epoch st s.
Proof.
  intros Hcb. revert epoch st s. induction n as [|n IH]; intros epoch st s; [done|].
  cbn [epochLoop]. apply tbind_ext; [by apply trainEpoch_callback|].
  intros [st' avgError] s'. destruct (vlt avgError (Num 1e-4)); [done|apply IH].
Qed.

(** A mini-batch leaves the record of the errors as it is. *)
Lemma batchLoop_errors shuffledData momentum decayedLR fuel i st s st' s' :
  batchLoop layers biases currentWeights weightVelocities biasVelocities
    l2Factor batchSize shuffledData momentum decayedLR fuel i st s = (Returned st', s') ->
  ls_errors st' = ls_errors st.
Proof.
  revert i st s. induction fuel as [|fuel IH]; intros i st s; cbn [batchLoop].
  - case_bool_decide; [done|]. by intros [= <- _].
  - case_bool_decide; [|by intros [= <- _]].
    intros (st1 & s1 & Hbatch & Hrest)%tbind_Returned.
    rewrite (IH _ _ _ Hrest).
    unfold trainBatch in Hbatch.
    apply tbind_Returned in Hbatch as (acc & s2 & _ & Hbatch).
    apply tbind_Returned in Hbatch as (newBiases & s3 & _ & Hbatch).
    by injection Hbatch as <- _.
Qed.

Variable onProgress : option (@Callback Host Ret).

(** An epoch that returns has put its mean error, the total error
    over the number of examples, in front of the record. *)
Lemma trainEpoch_errors epoch st s st' avgError s' :
  trainEpoch shuffle layers biases currentWeights weightVelocities biasVelocities
    learningRate l2Factor epochs batchSize onProgress normalizedData epoch st s
  = (Returned (st', avgError), s') ->
  ls_errors st' = avgError :: ls_errors st /\
  avgError = vdiv (ls_totalError st') (Num (INR (length normalizedData))).
Proof.
  unfold trainEpoch. intros (st1 & s1 & Hloop & Hrest)%tbind_Returned.
  apply batchLoop_errors in Hloop. cbn in Hloop.
  apply tbind_Returned in Hrest as (u & s2 & _ & Hrest).
  injection Hrest as <- <- _. cbn. by rewrite Hloop.
Qed.

(** The loop runs at most [n] epochs, goes on after every epoch whose
    mean error is not below the threshold, and stops before the [n]-th
    only after an epoch whose mean error is below it. *)
Lemma epochLoop_errors n epoch st s st' s' :
  epochLoop shuffle layers biases currentWeights weightVelocities biasVelocities
    learningRate l2Factor epochs batchSize onProgress normalizedData n epoch st s
  = (Returned st', s') ->
  exists new,
    ls_errors st' = new ++ ls_errors st /\
    (length new <= n)%nat /\
    Forall aboveThreshold (tail new) /\
    ((length new < n)%nat ->
       exists e rest, new = e :: rest /\ vlt e (Num 1e-4) = true).
Proof.
  revert epoch st s. induction n as [|n IH]; intros epoch st s; cbn [epochLoop].
  - intros [= <- _]. exists []. split; [done|]. split; [done|].
    split; [by constructor|]. cbn. lia.
  - intros ([st1 avgError] & s1 & Hepoch & Hrest)%tbind_Returned.
    apply trainEpoch_errors in Hepoch as [Herr _].
    destruct (vlt avgError (Num 1e-4)) eqn:Hlow.
    + injection Hrest as <- _. exists [avgError].
      split; [done|]. split; [cbn; lia|]. split; [by constructor|].
      intros _. by eauto.
    + apply IH in Hrest as (new & Hnew & Hlen & Habove & Hstop).
      exists (new ++ [avgError]). rewrite Hnew, Herr, <- app_assoc.
      split; [done|]. split; [rewrite length_app; cbn; lia|]. split.
      * destruct new as [|e new]; [by constructor|]. cbn.
        apply Forall_app. split; [done|]. by repeat constructor.
      * rewrite length_app. cbn. intros Hlt.
        destruct Hstop as (e & rest & -> & He); [lia|]. by eauto.
Qed.

End Epochs.

(** C8: two runs that differ only in the value the progress callback
    returns are the same run: the same result -- weights, biases, error
    and record of the epochs -- and the same store and host state at the
    end.  A run that returns has gone through at most [epochs] epochs,
    has gone on after every epoch whose mean error was not below 1e-4,
    and has stopped before the last epoch only after an epoch whose mean
    error was below 1e-4. *)
Theorem callback_return_ignored {Host Ret : Type}
    (shuffle : nat -> list Example -> list Example) (layers : list NeuronLayer)
    (weights biases : nat) (trainingData : list Sample.t)
    (learningRate l2Factor : value) (epochs batchSize : option nat)
    (callback1 callback2 : @Callback Host Ret) (s : @State Host) :
  differOnlyInReturn callback1 callback2 ->
  let options callback :=
    {| opt_learningRate := learningRate; opt_epochs := epochs;
       opt_batchSize := batchSize; opt_l2Factor := l2Factor;
       opt_onProgress := Some callback |} in
  trainNetwork shuffle layers weights biases trainingData (options callback1) s
  = trainNetwork shuffle layers weights biases trainingData (options callback2) s /\
  forall r s',
    trainNetwork shuffle layers weights biases trainingData (options callback1) s
    = (Returned r, s') ->
    (length (tr_errors r) <= default 200%nat epochs)%nat /\
    Forall aboveThreshold (tail (tr_errors r)) /\
    ((length (tr_errors r) < default 200%nat epochs)%nat ->
       exists e rest, tr_errors r = e :: rest /\ vlt e (Num 1e-4) = true).
Proof.
  intros Hcb options. split.
  - unfold trainNetwork. cbn.
    repeat (apply tbind_ext; [done|]; intros ? ?).
    apply tbind_ext; [by apply epochLoop_callback|]. done.
  - intros r s'. unfold trainNetwork. cbn.
    intros (w0 & s1 & _ & H)%tbind_Returned.
    apply tbind_Returned in H as (cw & s2 & _ & H).
    apply tbind_Returned in H as (b0 & s3 & _ & H).
    apply tbind_Returned in H as (w0' & s4 & _ & H).
    apply tbind_Returned in H as (wv & s5 & _ & H).
    apply tbind_Returned in H as (b0' & s6 & _ & H).
    apply tbind_Returned in H as (bv & s7 & _ & H).
    apply tbind_Returned in H as (inputBounds & s8 & _ & H).
    apply tbind_Returned in H as (targetBounds & s9 & _ & H).
    apply tbind_Returned in H as (st & s10 & Hloop & H).
    apply tbind_Returned in H as (cw' & s11 & _ & H).
    injection H as <- _. cbn.
    apply epochLoop_errors in Hloop as (new & Hnew & Hlen & Habove & Hstop).
    cbn in Hnew. rewrite app_nil_r in Hnew. by rewrite Hnew.
Qed.

(** ** The update of the parameters *)

Lemma velocityRule_num (m s l2 v g w : R) :
  velocityRule (Num m) (Num s) (Num l2) (Num v) (Num g) (Num w)
  = Num (m * v - s * (g + l2 * w)).
Proof. done. Qed.

Lemma biasVelocityRule_num (m s v g : R) :
  biasVelocityRule (Num m) (Num s) (Num v) (Num g) = Num (m * v - s * g).
Proof. done. Qed.

Lemma imapM_from_pure {A B} (f : nat -> A -> result B) (h : nat -> A -> B) i l :
  (forall k x, f k x = Ok (h k x)) ->
  imapM_from f i l = Ok (imap (fun k => h (i + k)%nat) l).
Proof.
  intros Hf. revert i. induction l as [|x l IH]; intros i; [done|].
  cbn. rewrite Hf. cbn. rewrite (IH (S i)). cbn. rewrite Nat.add_0_r.
  do 2 f_equal. apply imap_ext. intros k y _. cbn. f_equal. lia.
Qed.

Lemma imapM_pure {A B} (f : nat -> A -> result B) (h : nat -> A -> B) l :
  (forall k x, f k x = Ok (h k x)) -> imapM f l = Ok (imap h l).
Proof. intros Hf. unfold imapM. by rewrite (imapM_from_pure f h). Qed.

Lemma aget_aset arr j v : aget (aset arr j v) j = v.
Proof.
  unfold aset, aget. case_decide as Hj.
  - by rewrite list_lookup_insert_eq.
  - rewrite lookup_app_r by lia. rewrite lookup_app_r; rewrite length_replicate; [|lia].
    by replace (j - length arr - (j - length arr))%nat with 0%nat by lia.
Qed.

Lemma aget_aset_ne arr j j' v : (j < length arr)%nat -> j' <> j ->
  aget (aset arr j v) j' = aget arr j'.
Proof.
  intros Hj Hne. unfold aset, aget. rewrite decide_True by done.
  by rewrite list_lookup_insert_ne.
Qed.

Lemma length_aset arr j v : (j < length arr)%nat -> length (aset arr j v) = length arr.
Proof. intros Hj. unfold aset. rewrite decide_True by done. apply length_insert. Qed.

Section Update.
Context {Host : Type}.
Implicit Types (s : @State Host).
Variables currentWeights weightVelocities biasVelocities : nat.
Variables l2Factor momentum scaledLR : value.
Hypothesis cw_wv : currentWeights <> weightVelocities.
Hypothesis cw_bv : currentWeights <> biasVelocities.
Hypothesis wv_bv : weightVelocities <> biasVelocities.

Lemma updateWeightsKey_run gradients key s cw wv g v w :
  st_heap s !! currentWeights = Some (ObjWeights cw) ->
  st_heap s !! weightVelocities = Some (ObjWeights wv) ->
  gradients !! key = Some g -> wv !! key = Some v -> cw !! key = Some w ->
  exists s',
    updateWeightsKey currentWeights weightVelocities l2Factor momentum scaledLR
      gradients key s = (Returned tt, s') /\
    weightsUpdated currentWeights weightVelocities s s'
      (<[key := newWeights w (newVelocities l2Factor momentum scaledLR v g w)]> cw)
      (<[key := newVelocities l2Factor momentum scaledLR v g w]> wv).
Proof.
  intros Hcw Hwv Hg Hv Hw.
  unfold updateWeightsKey, mbind, T_bind, tbind, readWeights, writeKey, lift, entryAt.
  rewrite Hwv, Hv, Hcw.
  rewrite (imapM_pure _
    (fun i v_i => velocityRule momentum scaledLR l2Factor v_i (aget g i) (aget w i))).
  2:{ intros i v_i. by rewrite Hw, Hg. }
  rewrite Hwv. cbn [st_heap st_host].
  rewrite lookup_insert_ne, Hcw, Hw by done. cbn [st_heap st_host].
  rewrite lookup_insert_eq.
  rewrite (imapM_pure _ (fun i w_i => vadd w_i (aget (newVelocities l2Factor momentum scaledLR v g w) i))).
  2:{ intros i w_i. by rewrite lookup_insert_eq. }
  cbn [st_heap st_host]. rewrite lookup_insert_ne, Hcw by done.
  eexists. split; [done|]. unfold weightsUpdated. cbn [st_heap st_host].
  rewrite lookup_insert_eq. rewrite lookup_insert_ne, lookup_insert_eq by done.
  split; [done|]. split; [done|]. split; [done|].
  intros l Hl1 Hl2. by rewrite !lookup_insert_ne.
Qed.

Lemma weights_loop gradients (keys : list string) s cw wv :
  NoDup keys ->
  (forall key, key ∈ keys ->
     is_Some (gradients !! key) /\ is_Some (wv !! key) /\ is_Some (cw !! key)) ->
  st_heap s !! currentWeights = Some (ObjWeights cw) ->
  st_heap s !! weightVelocities = Some (ObjWeights wv) ->
  exists s' cw' wv',
    forEachT (fun _ key =>
      updateWeightsKey currentWeights weightVelocities l2Factor momentum scaledLR
        gradients key) tt keys s = (Returned tt, s') /\
    weightsUpdated currentWeights weightVelocities s s' cw' wv' /\
    (forall key g v w,
      key ∈ keys -> gradients !! key = Some g -> wv !! key = Some v ->
      cw !! key = Some w ->
      wv' !! key = Some (newVelocities l2Factor momentum scaledLR v g w) /\
      cw' !! key = Some (newWeights w (newVelocities l2Factor momentum scaledLR v g w))) /\
    (forall key, key ∉ keys -> wv' !! key = wv !! key /\ cw' !! key = cw !! key).
Proof.
  intros Hnodup. revert s cw wv.
  induction Hnodup as [|key keys Hnotin Hnodup IH]; intros s cw wv Hkeys Hcw Hwv.
  - exists s, cw, wv. split; [done|]. split; [by repeat split|]. split; [|done].
    intros key g v w Hin. by apply elem_of_nil in Hin.
  - destruct (Hkeys key) as ([g Hg] & [v Hv] & [w Hw]); [by left|].
    destruct (updateWeightsKey_run gradients key s cw wv g v w)
      as (s1 & Hrun1 & Hcw1 & Hwv1 & Hhost1 & Hother1); [done..|].
    destruct (IH s1 (<[key := newWeights w (newVelocities l2Factor momentum scaledLR v g w)]> cw)
                    (<[key := newVelocities l2Factor momentum scaledLR v g w]> wv))
      as (s' & cw' & wv' & Hrun & (Hcw' & Hwv' & Hhost' & Hother') & Hspec & Hrest);
      [|done|done|].
    { intros key' Hin. destruct (Hkeys key') as (? & ? & ?); [by right|].
      assert (key' <> key) by (intros ->; done).
      by rewrite !lookup_insert_ne. }
    exists s', cw', wv'. split.
    { cbn [forEachT]. unfold mbind, T_bind, tbind. by rewrite Hrun1. }
    split.
    { split; [done|]. split; [done|]. split; [congruence|].
      intros l Hl1 Hl2. rewrite Hother' by done. by apply Hother1. }
    split.
    + intros key' g' v' w' Hin Hg' Hv' Hw'.
      apply elem_of_cons in Hin as [->|Hin].
      * assert (g' = g) as -> by congruence. assert (v' = v) as -> by congruence.
        assert (w' = w) as -> by congruence.
        destruct (Hrest key Hnotin) as [-> ->]. by rewrite !lookup_insert_eq.
      * assert (key' <> key) by (intros ->; done).
        apply Hspec; [done..| |]; by rewrite lookup_insert_ne.
    + intros key' Hnotin'. apply not_elem_of_cons in Hnotin' as [Hne Hnotin'].
      destruct (Hrest key' Hnotin') as [-> ->]. by rewrite !lookup_insert_ne.
Qed.

Lemma updateBiasSlot_run gradients i j b s bv row grow :
  st_heap s !! biasVelocities = Some (ObjRows bv) ->
  bv !! i = Some row -> gradients !! i = Some grow ->
  exists s',
    updateBiasSlot biasVelocities momentum scaledLR gradients i j b s
    = (Returned (vadd b (biasVelocityRule momentum scaledLR (aget row j) (aget grow j))),
       s') /\
    biasesUpdated biasVelocities s s'
      (<[i := aset row j
                (biasVelocityRule momentum scaledLR (aget row j) (aget grow j))]> bv).
Proof.
  intros Hbv Hrow Hgrow.
  unfold updateBiasSlot, mbind, T_bind, tbind, readRows, writeSlot, lift.
  rewrite Hbv, Hrow, Hgrow. cbn [elemAt]. rewrite Hbv, Hrow.
  cbn [st_heap st_host]. rewrite lookup_insert_eq.
  rewrite list_lookup_insert_eq by (by eapply lookup_lt_Some).
  cbn [elemAt]. rewrite aget_aset.
  eexists. split; [done|]. unfold biasesUpdated. cbn [st_heap st_host].
  rewrite lookup_insert_eq. split; [done|]. split; [done|].
  intros l Hl. by rewrite lookup_insert_ne.
Qed.

Lemma biasRow_loop gradients i (layer : list value) j0 s bv row grow :
  st_heap s !! biasVelocities = Some (ObjRows bv) ->
  bv !! i = Some row -> gradients !! i = Some grow ->
  (j0 + length layer <= length row)%nat ->
  exists s' row',
    imapT_from (fun j b =>
      updateBiasSlot biasVelocities momentum scaledLR gradients i j b) j0 layer s
    = (Returned (imap (fun k b =>
         vadd b (biasVelocityRule momentum scaledLR
                   (aget row (j0 + k)) (aget grow (j0 + k)))) layer), s') /\
    biasesUpdated biasVelocities s s' (<[i := row']> bv) /\
    length row' = length row /\
    (forall j, (j0 <= j < j0 + length layer)%nat ->
       aget row' j = biasVelocityRule momentum scaledLR (aget row j) (aget grow j)) /\
    (forall j, ~ (j0 <= j < j0 + length layer)%nat -> aget row' j = aget row j).
Proof.
  revert j0 s bv row. induction layer as [|b layer IH]; intros j0 s bv row Hbv Hrow Hgrow Hlen.
  - exists s, row. split; [done|]. split.
    { rewrite list_insert_id by done. by repeat split. }
    split; [done|]. split; [|done]. cbn. intros j Hj. lia.
  - cbn in Hlen.
    destruct (updateBiasSlot_run gradients i j0 b s bv row grow Hbv Hrow Hgrow)
      as (s1 & Hrun1 & Hbv1 & Hhost1 & Hother1).
    set (v' := biasVelocityRule momentum scaledLR (aget row j0) (aget grow j0)) in *.
    destruct (IH (S j0) s1 (<[i := aset row j0 v']> bv) (aset row j0 v'))
      as (s' & row' & Hrun & (Hbv' & Hhost' & Hother') & Hlen' & Hin & Hout).
    { done. }
    { apply list_lookup_insert_eq. by eapply lookup_lt_Some. }
    { done. }
    { rewrite length_aset by lia. lia. }
    exists s', row'. split.
    { cbn [imapT_from]. unfold mbind, T_bind, tbind. rewrite Hrun1, Hrun.
      cbn. unfold tret. subst v'. rewrite ?Nat.add_0_r. do 3 f_equal.
      apply imap_ext. intros k x _. cbn.
      rewrite aget_aset_ne by lia. do 3 f_equal; lia. }
    split.
    { split; [by rewrite list_insert_insert_eq in Hbv'|]. split; [congruence|].
      intros l Hl. rewrite Hother' by done. by apply Hother1. }
    split; [by rewrite Hlen', length_aset by lia|].
    split.
    + intros j Hj. cbn [length] in Hj. destruct (decide (j = j0)) as [->|Hne].
      * rewrite Hout by lia. apply aget_aset.
      * rewrite Hin by lia. by rewrite aget_aset_ne by lia.
    + intros j Hj. cbn [length] in Hj. rewrite Hout by lia.
      apply aget_aset_ne; lia.
Qed.

Lemma bias_loop gradients (currentBiases : list (list value)) i0 s bv :
  st_heap s !! biasVelocities = Some (ObjRows bv) ->
  (forall k layer, currentBiases !! k = Some layer ->
     exists row grow, bv !! (i0 + k)%nat = Some row /\
       gradients !! (i0 + k)%nat = Some grow /\ (length layer <= length row)%nat) ->
  exists s' bv',
    imapT_from (fun i (layer : list value) =>
      imapT (fun j b =>
        updateBiasSlot biasVelocities momentum scaledLR gradients i j b) layer)
      i0 currentBiases s
    = (Returned (imap (fun k layer =>
         imap (fun j b =>
           vadd b (biasVelocityRule momentum scaledLR
                     (aget2 bv (i0 + k) j) (aget2 gradients (i0 + k) j))) layer)
         currentBiases), s') /\
    biasesUpdated biasVelocities s s' bv' /\
    (forall k layer j, currentBiases !! k = Some layer -> (j < length layer)%nat ->
       aget2 bv' (i0 + k) j
       = biasVelocityRule momentum scaledLR
           (aget2 bv (i0 + k) j) (aget2 gradients (i0 + k) j)) /\
    (forall i, (i < i0)%nat -> bv' !! i = bv !! i).
Proof.
  revert i0 s bv.
  induction currentBiases as [|layer currentBiases IH]; intros i0 s bv Hbv Hrows.
  - exists s, bv. split; [done|]. split; [by repeat split|]. split; [|done].
    intros k layer j Hk. done.
  - destruct (Hrows 0%nat layer eq_refl) as (row & grow & Hrow & Hgrow & Hlen).
    rewrite Nat.add_0_r in Hrow, Hgrow.
    destruct (biasRow_loop gradients i0 layer 0 s bv row grow Hbv Hrow Hgrow)
      as (s1 & row' & Hrun1 & (Hbv1 & Hhost1 & Hother1) & Hlen1 & Hin1 & Hout1);
      [cbn; lia|].
    destruct (IH (S i0) s1 (<[i0 := row']> bv) Hbv1)
      as (s' & bv' & Hrun & (Hbv' & Hhost' & Hother') & Hspec & Hbefore).
    { intros k layer' Hk. destruct (Hrows (S k) layer' Hk) as (r & gr & Hr & Hgr & Hl).
      exists r, gr. replace (S i0 + k)%nat with (i0 + S k)%nat by lia.
      split; [|done]. by rewrite list_lookup_insert_ne by lia. }
    exists s', bv'. split.
    { cbn [imapT_from]. unfold mbind, T_bind, tbind, imapT at 1. rewrite Hrun1, Hrun.
      cbn. unfold tret. rewrite ?Nat.add_0_r. do 3 f_equal.
      - apply imap_ext. intros j b _. cbn. unfold aget2. by rewrite Hrow, Hgrow.
      - apply imap_ext. intros k layer' _. cbn. apply imap_ext. intros j b _. cbn.
        unfold aget2. rewrite list_lookup_insert_ne by lia.
        by replace (i0 + S k)%nat with (S (i0 + k)) by lia. }
    split.
    { split; [done|]. split; [congruence|].
      intros l Hl. rewrite Hother' by done. by apply Hother1. }
    split.
    + intros [|k] layer' j Hk Hj.
      * injection Hk as <-. rewrite Nat.add_0_r. unfold aget2 at 1.
        rewrite Hbefore by lia.
        rewrite list_lookup_insert_eq by (by eapply lookup_lt_Some). cbn.
        rewrite Hin1 by lia. unfold aget2. by rewrite Hrow, Hgrow.
      * cbn in Hk. specialize (Hspec k layer' j Hk Hj).
        replace (i0 + S k)%nat with (S i0 + k)%nat by lia. rewrite Hspec.
        unfold aget2. by rewrite list_lookup_insert_ne by lia.
    + intros i Hi. rewrite Hbefore by lia. by rewrite list_lookup_insert_ne by lia.
Qed.

(** The update of a batch, end to end. *)
Lemma applyUpdate_run l2 (batch : list Example) decayedLR batchGradients
    (currentBiases : list (list value)) s cw wv bv :
  l2 = l2Factor ->
  scaledLR = vdiv decayedLR (Num (INR (length batch))) ->
  st_heap s !! currentWeights = Some (ObjWeights cw) ->
  st_heap s !! weightVelocities = Some (ObjWeights wv) ->
  st_heap s !! biasVelocities = Some (ObjRows bv) ->
  dom (bg_weights batchGradients) ⊆ dom wv ->
  dom (bg_weights batchGradients) ⊆ dom cw ->
  Forall2 (fun layer row : list value => length layer = length row) currentBiases bv ->
  (length currentBiases <= length (bg_biases batchGradients))%nat ->
  exists newBiases s' cw' wv' bv',
    applyUpdate currentWeights weightVelocities biasVelocities l2 batch
      momentum decayedLR batchGradients currentBiases s = (Returned newBiases, s') /\
    st_heap s' !! currentWeights = Some (ObjWeights cw') /\
    st_heap s' !! weightVelocities = Some (ObjWeights wv') /\
    st_heap s' !! biasVelocities = Some (ObjRows bv') /\
    (forall key g v w,
       bg_weights batchGradients !! key = Some g -> wv !! key = Some v ->
       cw !! key = Some w ->
       wv' !! key = Some (newVelocities l2Factor momentum scaledLR v g w) /\
       cw' !! key = Some (newWeights w (newVelocities l2Factor momentum scaledLR v g w))) /\
    (forall i layer j b,
       currentBiases !! i = Some layer -> layer !! j = Some b ->
       aget2 bv' i j
       = biasVelocityRule momentum scaledLR
           (aget2 bv i j) (aget2 (bg_biases batchGradients) i j) /\
       aget2 newBiases i j = vadd b (aget2 bv' i j)).
Proof.
  intros -> HscaledLR Hcw Hwv Hbv Hdomv Hdomw Hshape Hgrads.
  destruct (weights_loop (bg_weights batchGradients)
    (elements (dom (bg_weights batchGradients))) s cw wv)
    as (s1 & cw' & wv' & Hrun1 & (Hcw1 & Hwv1 & Hhost1 & Hother1) & Hspec1 & _);
    [apply NoDup_elements| |done|done|].
  { intros key Hkey%elem_of_elements. split; [by apply elem_of_dom|].
    split; apply elem_of_dom; set_solver. }
  destruct (bias_loop (bg_biases batchGradients) currentBiases 0 s1 bv)
    as (s' & bv' & Hrun2 & (Hbv' & Hhost' & Hother') & Hspec2 & _).
  { rewrite Hother1 by done. done. }
  { intros k layer Hk. cbn.
    destruct (Forall2_lookup_l _ _ _ _ _ Hshape Hk) as (row & Hrow & Hlen).
    destruct (lookup_lt_is_Some_2 (bg_biases batchGradients) k) as [grow Hgrow].
    { apply lookup_lt_Some in Hk. lia. }
    exists row, grow. repeat split; try done. lia. }
  eexists _, s', cw', wv', bv'. split.
  { unfold applyUpdate, mbind, T_bind, tbind. rewrite <- HscaledLR.
    rewrite Hrun1. unfold imapT at 1. exact Hrun2. }
  split; [by rewrite Hother'|]. split; [by rewrite Hother'|]. split; [done|].
  split.
  - intros key g v w Hg Hv Hw. apply Hspec1; [|done..].
    apply elem_of_elements, elem_of_dom. by eauto.
  - intros i layer j b Hlayer Hb. cbn in Hspec2.
    split; [apply (Hspec2 i layer j Hlayer); by eapply lookup_lt_Some|].
    rewrite (Hspec2 i layer j Hlayer) by (by eapply lookup_lt_Some).
    unfold aget2 at 1. rewrite list_lookup_imap, Hlayer. cbn.
    unfold aget. by rewrite list_lookup_imap, Hb.
Qed.

End Update.

(** *** A batch of one example in a run configured for batches of two *)

Lemma addWeightGradients_empty wg : addWeightGradients ∅ wg = wg.
Proof.
  unfold addWeightGradients. apply map_eq. intros key.
  rewrite lookup_union_with, lookup_empty. by destruct (wg !! key).
Qed.

#[local] Opaque addL2Penalty addWeightGradients.

Lemma tiny_accumulateBatch :
  exists e,
    accumulateBatch tinyLayers 0 1 (Num 1) [tinyExample] tinyLoopState tinyStore
    = (Returned
         {| ba_totalError := e;
            ba_gradients :=
              {| bg_weights := {[ "layer0_1"%string := [Num 0] ]};
                 bg_biases := [[Num 0]; [Num 1]] |} |},
       tinyStore).
Proof.
  unfold accumulateBatch, mbind, T_bind, tbind, readRows, readWeights, tinyStore.
  cbn [st_heap st_host]. rewrite lookup_insert_eq.
  cbn [forEachT]. unfold mbind, T_bind, tbind, readWeights. cbn [st_heap st_host].
  rewrite lookup_insert_ne, lookup_insert_eq by done.
  unfold accumulateExample, forward, forwardRound, getActivationFunction,
    tinyLayers, tinyExample, tinyLoopState.
  js_eval. rewrite !take_0. js_eval.
  unfold backpropagate, backpropForwardPass, passRound, outputDelta, backwardPass,
    backwardRound, getActivationFunction. js_eval.
  rewrite addWeightGradients_empty, insert_empty.
  eexists. unfold lift, tret. do 4 f_equal.
  - do 3 f_equal. lra.
  - do 2 f_equal; [do 2 f_equal; lra|]. do 3 f_equal. lra.
Qed.

#[local] Transparent addL2Penalty addWeightGradients.

(** C5, as stated, fails on a batch that is shorter than the configured
    batch size.  The run below is configured for batches of two and
    receives a batch of one example; the learning rate is [1], the
    momentum [0.9], the L2 factor [1], the weight [1], and the clipped
    gradient of the weight is [0] and that of the output bias [1].  The
    new velocities are [-1] and [-1]: the learning rate was divided by
    the length of the batch, [1].  Divided by the configured batch size
    it would have given [-0.5] and [-0.5]. *)
Lemma short_batch_divides_by_its_length :
  exists st' s' wv' bv',
    batchLoop tinyLayers 0 1 2 3 (Num 1) 2 [tinyExample] (Num 0.9) (Num 1)
      1 0 tinyLoopState tinyStore = (Returned st', s') /\
    st_heap s' !! 2%nat = Some (ObjWeights wv') /\
    st_heap s' !! 3%nat = Some (ObjRows bv') /\
    wv' !! "layer0_1"%string = Some [Num (-1)] /\
    aget2 bv' 1 0 = Num (-1) /\
    velocityRule (Num 0.9) (vdiv (Num 1) (Num (INR 2))) (Num 1) (Num 0) (Num 0) (Num 1)
    = Num (-0.5) /\
    biasVelocityRule (Num 0.9) (vdiv (Num 1) (Num (INR 2))) (Num 0) (Num 1)
    = Num (-0.5).
Proof.
  destruct tiny_accumulateBatch as [e Hacc].
  set (grads := {| bg_weights := {[ "layer0_1"%string := [Num 0] ]};
                   bg_biases := [[Num 0]; [Num 1]] |}) in Hacc.
  assert (st_heap tinyStore !! 1%nat
          = Some (ObjWeights {[ "layer0_1"%string := [Num 1] ]})) as Hcw.
  { unfold tinyStore. cbn [st_heap].
    rewrite lookup_insert_ne by lia. rewrite lookup_insert_eq. reflexivity. }
  assert (st_heap tinyStore !! 2%nat
          = Some (ObjWeights {[ "layer0_1"%string := [Num 0] ]})) as Hwv.
  { unfold tinyStore. cbn [st_heap].
    rewrite !lookup_insert_ne by lia. rewrite lookup_insert_eq. reflexivity. }
  assert (st_heap tinyStore !! 3%nat = Some (ObjRows [[Num 0]; [Num 0]])) as Hbv.
  { unfold tinyStore. cbn [st_heap].
    rewrite !lookup_insert_ne by lia. rewrite lookup_insert_eq. reflexivity. }
  assert (dom (bg_weights (clipBatchGradients grads))
          = ({[ "layer0_1"%string ]} : gset string)) as Hdom.
  { unfold clipBatchGradients, clipGradients, grads. cbn [bg_weights].
    rewrite dom_fmap_L. apply dom_singleton_L. }
  destruct (applyUpdate_run (Host := unit) 1 2 3 (Num 1) (Num 0.9)
    (vdiv (Num 1) (Num (INR 1))) ltac:(lia) ltac:(lia) ltac:(lia)
    (Num 1) [tinyExample] (Num 1) (clipBatchGradients grads)
    [[Num 0]; [Num 1]] tinyStore
    {[ "layer0_1"%string := [Num 1] ]} {[ "layer0_1"%string := [Num 0] ]}
    [[Num 0]; [Num 0]] eq_refl eq_refl Hcw Hwv Hbv)
    as (newBiases & s' & cw' & wv' & bv' & Hrun & Hcw' & Hwv' & Hbv' & Hw & Hb).
  { rewrite Hdom, dom_singleton_L. reflexivity. }
  { rewrite Hdom, dom_singleton_L. reflexivity. }
  { constructor; [reflexivity|]. constructor; [reflexivity|]. constructor. }
  { cbn [length clipBatchGradients bg_biases grads]. lia. }
  assert (clipVector (Num 0.5) [Num 0] = [Num 0]) as Hclip.
  { change [Num 0] with (Num <$> [0]). rewrite clipVector_num.
    rewrite decide_False; [reflexivity|].
    unfold l2norm, Rsum. cbn [fmap list_fmap foldr].
    replace (0 * 0 + 0) with 0 by lra. rewrite sqrt_0. lra. }
  exists {| ls_currentBiases := newBiases; ls_totalError := e; ls_errors := [] |},
    s', wv', bv'.
  split.
  { cbn [batchLoop]. rewrite bool_decide_eq_true_2 by (cbn [length]; lia).
    change (take _ (drop 0 [tinyExample])) with [tinyExample].
    unfold trainBatch, mbind, T_bind, tbind. rewrite Hacc.
    cbn [ba_gradients ba_totalError tinyLoopState ls_currentBiases ls_errors].
    rewrite Hrun.
    rewrite bool_decide_eq_false_2 by (cbn [length]; lia). reflexivity. }
  split; [exact Hwv'|]. split; [exact Hbv'|]. split; [|split; [|split]].
  - destruct (Hw "layer0_1"%string [Num 0] [Num 0] [Num 1]) as [-> _].
    { unfold clipBatchGradients, clipGradients, grads. cbn [bg_weights].
      rewrite lookup_fmap, lookup_singleton_eq. cbn [fmap option_fmap option_map].
      by rewrite Hclip. }
    { apply lookup_singleton_eq. }
    { apply lookup_singleton_eq. }
    unfold newVelocities. cbn. rewrite decide_False by lra.
    do 3 f_equal. field.
  - destruct (Hb 1%nat [Num 1] 0%nat (Num 1)) as [-> _]; [reflexivity..|].
    cbn. rewrite decide_False by lra. f_equal. field.
  - cbn. rewrite decide_False by lra. f_equal. lra.
  - cbn. rewrite decide_False by lra. f_equal. lra.
Qed.

(** C5 (amended): in the update of a mini-batch, the velocity of every
    weight becomes
    [momentum * velocity - (lr / n) * (gradient + l2Factor * weight)]
    and the weight is then incremented by the new velocity, and every
    bias is updated by the same rule without the L2 term; [lr] is the
    decayed learning rate of the epoch and [n] is the number of examples
    of the batch at hand, which is the configured batch size except for
    a last, shorter batch.  The update returns whenever the velocities
    and the weights have the keys of the gradients and the bias
    velocities the shape of the biases. *)
Theorem batch_update_rule {Host : Type}
    (currentWeights weightVelocities biasVelocities : nat)
    (l2Factor momentum decayedLR : value) (batch : list Example)
    (batchGradients : BatchGradients) (currentBiases : list (list value))
    (s : @State Host) (cw wv : Weights) (bv : list (list value)) :
  currentWeights <> weightVelocities ->
  currentWeights <> biasVelocities ->
  weightVelocities <> biasVelocities ->
  st_heap s !! currentWeights = Some (ObjWeights cw) ->
  st_heap s !! weightVelocities = Some (ObjWeights wv) ->
  st_heap s !! biasVelocities = Some (ObjRows bv) ->
  dom (bg_weights batchGradients) ⊆ dom wv ->
  dom (bg_weights batchGradients) ⊆ dom cw ->
  Forall2 (fun layer row : list value => length layer = length row) currentBiases bv ->
  (length currentBiases <= length (bg_biases batchGradients))%nat ->
  let scaledLR := vdiv decayedLR (Num (INR (length batch))) in
  exists newBiases s' cw' wv' bv',
    applyUpdate currentWeights weightVelocities biasVelocities l2Factor batch
      momentum decayedLR batchGradients currentBiases s = (Returned newBiases, s') /\
    st_heap s' !! currentWeights = Some (ObjWeights cw') /\
    st_heap s' !! weightVelocities = Some (ObjWeights wv') /\
    st_heap s' !! biasVelocities = Some (ObjRows bv') /\
    (forall key g v w,
       bg_weights batchGradients !! key = Some g -> wv !! key = Some v ->
       cw !! key = Some w ->
       wv' !! key = Some (newVelocities l2Factor momentum scaledLR v g w) /\
       cw' !! key
       = Some (newWeights w (newVelocities l2Factor momentum scaledLR v g w))) /\
    (forall i layer j b,
       currentBiases !! i = Some layer -> layer !! j = Some b ->
       aget2 bv' i j
       = biasVelocityRule momentum scaledLR
           (aget2 bv i j) (aget2 (bg_biases batchGradients) i j) /\
       aget2 newBiases i j = vadd b (aget2 bv' i j)).
Proof.
  intros H1 H2 H3 Hcw Hwv Hbv Hdomv Hdomw Hshape Hgrads scaledLR.
  by apply (applyUpdate_run currentWeights weightVelocities biasVelocities
              l2Factor momentum scaledLR H1 H2 H3 l2Factor batch decayedLR
              batchGradients currentBiases s cw wv bv).
Qed.

Lemma batch_update_rule_witness :
  let batchGradients :=
    {| bg_weights := {[ "layer0_1"%string := [Num 0] ]};
       bg_biases := [[Num 0]; [Num 1]] |} in
  let scaledLR := vdiv (Num 1) (Num (INR (length [tinyExample]))) in
  exists newBiases s' cw' wv' bv',
    applyUpdate 1 2 3 (Num 1) [tinyExample] (Num 0.9) (Num 1) batchGradients
      [[Num 0]; [Num 1]] tinyStore = (Returned newBiases, s') /\
    st_heap s' !! 1%nat = Some (ObjWeights cw') /\
    st_heap s' !! 2%nat = Some (ObjWeights wv') /\
    st_heap s' !! 3%nat = Some (ObjRows bv') /\
    (forall key g v w,
       bg_weights batchGradients !! key = Some g ->
       ({[ "layer0_1"%string := [Num 0] ]} : Weights) !! key = Some v ->
       ({[ "layer0_1"%string := [Num 1] ]} : Weights) !! key = Some w ->
       wv' !! key = Some (newVelocities (Num 1) (Num 0.9) scaledLR v g w) /\
       cw' !! key
       = Some (newWeights w (newVelocities (Num 1) (Num 0.9) scaledLR v g w))) /\
    (forall i layer j b,
       [[Num 0]; [Num 1]] !! i = Some layer -> layer !! j = Some b ->
       aget2 bv' i j
       = biasVelocityRule (Num 0.9) scaledLR
           (aget2 [[Num 0]; [Num 0]] i j) (aget2 (bg_biases batchGradients) i j) /\
       aget2 newBiases i j = vadd b (aget2 bv' i j)).
Proof.
  cbn zeta.
  apply (batch_update_rule (Host := unit) 1 2 3 (Num 1) (Num 0.9) (Num 1)
           [tinyExample] _ [[Num 0]; [Num 1]] tinyStore
           {[ "layer0_1"%string := [Num 1] ]} {[ "layer0_1"%string := [Num 0] ]}
           [[Num 0]; [Num 0]]).
  - lia.
  - lia.
  - lia.
  - unfold tinyStore. cbn [st_heap].
    rewrite lookup_insert_ne by lia. rewrite lookup_insert_eq. reflexivity.
  - unfold tinyStore. cbn [st_heap].
    rewrite !lookup_insert_ne by lia. rewrite lookup_insert_eq. reflexivity.
  - unfold tinyStore. cbn [st_heap].
    rewrite !lookup_insert_ne by lia. rewrite lookup_insert_eq. reflexivity.
  - cbn [bg_weights]. rewrite !dom_singleton_L. reflexivity.
  - cbn [bg_weights]. rewrite !dom_singleton_L. reflexivity.
  - constructor; [reflexivity|]. constructor; [reflexivity|]. constructor.
  - cbn [length bg_biases]. lia.
Defined.

(** A network whose weight entry is missing makes [forward] throw. *)
Lemma throws_iff_entry_missing_witness :
  forward [Num 1] tinyLayers ∅ [[Num 0]; [Num 1]] = Throw TypeError.
Proof.
  apply (proj2 (proj1 (throws_iff_entry_missing [Num 1] [] [] tinyLayers ∅
                         [[Num 0]; [Num 1]]))).
  intros Hpresent.
  destruct (Hpresent 0%nat _ _ eq_refl eq_refl) as [_ Hw].
  destruct Hw as [w Hw]; [cbn; lia..|]. by rewrite lookup_empty in Hw.
Defined.

Lemma forward_output_clamped_witness :
  exists out,
    forward [Num 1] tinyLayers
      (numWeights {[ "layer0_1"%string := [2] ]}) (numRows [[0]; [0]]) = Ok out /\
    Forall clamped out.
Proof.
  apply (forward_output_clamped [Num 1] tinyLayers
           (numWeights {[ "layer0_1"%string := [2] ]}) (numRows [[0]; [0]])).
  - cbn. lia.
  - apply matchingShape_entriesPresent. split.
    + intros [|[|i]] li; cbn; intros [= <-]; eexists; split; reflexivity.
    + intros [|[|i]] li li1; cbn; intros [= <-]; [|done..]. intros [= <-].
      exists [2]. split; [|reflexivity]. apply lookup_singleton_eq.
Defined.

Lemma trainNetwork_leaves_caller_objects_witness :
  st_heap (trainNetwork (fun _ l => l) tinyLayers 1 0 tinyData
             ({| opt_learningRate := Undefined; opt_epochs := None;
                 opt_batchSize := None; opt_l2Factor := Undefined;
                 opt_onProgress := None |} : @Options unit bool)
             tinyStore).2 !! 1%nat
  = st_heap tinyStore !! 1%nat.
Proof.
  apply trainNetwork_leaves_caller_objects.
  apply elem_of_dom. unfold tinyStore. cbn [st_heap].
  rewrite lookup_insert_ne by lia. rewrite lookup_insert_eq. by eexists.
Defined.

Lemma callback_return_ignored_witness :
  let options callback :=
    {| opt_learningRate := Undefined; opt_epochs := None;
       opt_batchSize := None; opt_l2Factor := Undefined;
       opt_onProgress := Some callback |} in
  trainNetwork (fun _ l => l) tinyLayers 1 0 tinyData
    (options (fun _ _ _ _ (h : unit) => (Ok true, h))) tinyStore
  = trainNetwork (fun _ l => l) tinyLayers 1 0 tinyData
      (options (fun _ _ _ _ (h : unit) => (Ok false, h))) tinyStore.
Proof.
  cbn zeta.
  apply (callback_return_ignored (fun _ l => l) tinyLayers 1 0 tinyData
           Undefined Undefined None None
           (fun _ _ _ _ (h : unit) => (Ok true, h))
           (fun _ _ _ _ (h : unit) => (Ok false, h)) tinyStore).
  intros epoch error weights biases h. split; reflexivity.
Defined.

Lemma generator_is_two_dimensional_witness :
  (exists fuel x y pos',
     isNumber x /\ isNumber y /\
     forall fuel', (fuel <= fuel')%nat ->
       generateRandomInput (fun _ => 0.5) fuel' (Num 2) "gaussian" Undefined 0%nat
       = Some (Ok [x; y], pos') /\
       generateRandomInput (fun _ => 0.5) fuel' (Num 7) "gaussian" Undefined 0%nat
       = Some (Ok [x; y], pos')) /\
  (exists fuel samples pos',
     length samples = 3%nat /\
     Forall (fun p => length p = 2%nat /\ Forall isNumber p) samples /\
     forall fuel', (fuel <= fuel')%nat ->
       generateDataset (fun _ => 0.5) fuel' 3 "gaussian" Undefined 0%nat
       = Some (Ok samples, pos')).
Proof.
  apply (generator_is_two_dimensional (fun _ => 0.5) (Num 2) (Num 7) 3
           "gaussian" Undefined 0%nat).
  - intros n. lra.
  - intros pos. exists 0%nat. unfold acceptedAt. lra.
Defined.

(** * Further properties of the engine *)

(** ** Clamping and activation functions *)

(** X1: on numbers, [ensureBounds val min max] never answers less than
    [min]; with [min <= max] it answers a number of [[min, max]], which
    is [val] itself when [val] lies there, and clamping twice is
    clamping once; with the bounds inverted it answers [min] whatever
    [val] is. *)
Theorem ensureBoundsWith_clamps (val lo hi : R) :
  exists r,
    ensureBoundsWith (Num val) (Num lo) (Num hi) = Num r /\
    lo <= r /\
    (lo <= hi -> r <= hi /\ (lo <= val <= hi -> r = val) /\
       ensureBoundsWith (Num r) (Num lo) (Num hi) = Num r) /\
    (hi < lo -> r = lo).
Proof.
  assert (forall v, ensureBoundsWith (Num v) (Num lo) (Num hi)
                    = Num (Rmax lo (Rmin hi v))) as Heval by done.
  exists (Rmax lo (Rmin hi val)). split; [apply Heval|].
  split; [apply Rmax_l|]. split.
  - intros Hle. split; [|split].
    + apply Rmax_lub; [done|apply Rmin_l].
    + intros [H1 H2]. rewrite Rmin_right by done. by apply Rmax_right.
    + rewrite Heval. f_equal.
      rewrite (Rmin_right hi (Rmax lo (Rmin hi val))).
      * apply Rmax_right, Rmax_l.
      * apply Rmax_lub; [done|apply Rmin_l].
  - intros Hlt. apply Rmax_left. pose proof (Rmin_l hi val). lra.
Qed.

Lemma Rpow_js_2 (x : R) : Rpow_js x 2 = Some (x * x).
Proof.
  unfold Rpow_js. rewrite decide_False by lra.
  destruct (decide (0 < x)) as [Hpos|Hnpos].
  { f_equal. change 2 with (INR 2). rewrite Rpower_pow by done. cbn. lra. }
  destruct (decide (x = 0)) as [->|Hne].
  { rewrite decide_True by lra. f_equal. lra. }
  assert (Int_part 2 = 2%Z) as Hip by apply (Int_part_IZR 2).
  rewrite decide_True.
  - rewrite Hip. f_equal. change (powerRZ x 2) with (x * (x * 1)). lra.
  - unfold frac_part. rewrite Hip. lra.
Qed.

Lemma Math_pow_2 (x : R) : Math_pow (Num x) (Num 2) = Num (x * x).
Proof. unfold Math_pow. cbn. by rewrite Rpow_js_2. Qed.

Lemma cosh_pos (x : R) : 0 < cosh x.
Proof.
  unfold cosh. pose proof (exp_pos x). pose proof (exp_pos (- x)). lra.
Qed.

Lemma derivable_pt_lim_tanh (x : R) :
  derivable_pt_lim tanh x (1 - tanh x * tanh x).
Proof.
  pose proof (cosh_pos x) as Hc.
  replace (1 - tanh x * tanh x)
    with ((cosh x * cosh x - sinh x * sinh x) / Rsqr (cosh x)).
  - apply (derivable_pt_lim_div sinh cosh).
    + apply derivable_pt_lim_sinh.
    + apply derivable_pt_lim_cosh.
    + lra.
  - unfold tanh, Rsqr. field. lra.
Qed.

Lemma derivable_pt_lim_sigmoid (x : R) :
  derivable_pt_lim (fun y => 1 / (1 + exp (- y))) x
    (1 / (1 + exp (- x)) * (1 - 1 / (1 + exp (- x)))).
Proof.
  pose proof (exp_pos (- x)) as He.
  assert (derivable_pt_lim (fun y => exp (- y)) x (- exp (- x))) as Hexp.
  { replace (- exp (- x)) with (exp (- x) * -1) by lra.
    apply (derivable_pt_lim_comp (fun y => - y) exp).
    - apply (derivable_pt_lim_opp id x 1). apply derivable_pt_lim_id.
    - apply derivable_pt_lim_exp. }
  replace (1 / (1 + exp (- x)) * (1 - 1 / (1 + exp (- x))))
    with ((0 * (1 + exp (- x)) - (0 + - exp (- x)) * 1) / Rsqr (1 + exp (- x))).
  - apply (derivable_pt_lim_div (fct_cte 1) (fun y => 1 + exp (- y))).
    + apply derivable_pt_lim_const.
    + apply (derivable_pt_lim_plus (fct_cte 1) (fun y => exp (- y))).
      * apply derivable_pt_lim_const.
      * exact Hexp.
    + lra.
  - unfold Rsqr. field. lra.
Qed.

Lemma derivable_pt_lim_relu (x : R) :
  x <> 0 ->
  derivable_pt_lim (Rmax 0) x (if decide (0 < x) then 1 else 0).
Proof.
  intros Hx. destruct (decide (0 < x)) as [Hpos|Hneg].
  - apply (derivable_pt_lim_locally_ext id (Rmax 0) x 0 (x + 1)); [lra| |].
    + intros z Hz. unfold id. rewrite Rmax_right; lra.
    + apply derivable_pt_lim_id.
  - apply (derivable_pt_lim_locally_ext (fct_cte 0) (Rmax 0) x (x - 1) 0); [lra| |].
    + intros z Hz. unfold fct_cte. rewrite Rmax_left; lra.
    + apply derivable_pt_lim_const.
Qed.

(** X2: whatever name selects it, the [derivative] that
    [getActivationFunction] returns is the derivative of the [output] it
    returns: at every number for the sigmoid, tanh and linear, and at
    every number but zero for relu. *)
Theorem activation_derivative (type : option string) (x : R) :
  (type = Some "relu"%string -> x <> 0) ->
  exists f f' : R -> R,
    (forall y, output (getActivationFunction type) (Num y) = Num (f y)) /\
    (forall y, derivative (getActivationFunction type) (Num y) = Num (f' y)) /\
    derivable_pt_lim f x (f' x).
Proof.
  intros Hrelu. unfold getActivationFunction.
  destruct (decide (type = Some "relu"%string)) as [Hr|_].
  { exists (Rmax 0), (fun y => if decide (0 < y) then 1 else 0).
    split; [done|]. split.
    - intros y. cbn. unfold reluDerivative, vgt, vlt. cbn.
      destruct (decide (0 < y)).
      + by rewrite bool_decide_eq_true_2.
      + by rewrite bool_decide_eq_false_2.
    - by apply derivable_pt_lim_relu, Hrelu. }
  destruct (decide (type = Some "tanh"%string)) as [_|_].
  { exists tanh, (fun y => 1 - tanh y * tanh y).
    split; [done|]. split.
    - intros y. cbn [derivative]. unfold tanhDerivative, tanh_act.
      change (Math_tanh (Num y)) with (Num (tanh y)). by rewrite Math_pow_2.
    - apply derivable_pt_lim_tanh. }
  destruct (decide (type = Some "linear"%string)) as [_|_].
  { exists id, (fun _ => 1). split; [done|]. split; [done|].
    apply derivable_pt_lim_id. }
  exists (fun y => 1 / (1 + exp (- y))),
         (fun y => 1 / (1 + exp (- y)) * (1 - 1 / (1 + exp (- y)))).
  assert (forall y, sigmoid (Num y) = Num (1 / (1 + exp (- y)))) as Hs.
  { intros y. unfold sigmoid. cbn. rewrite decide_False; [done|].
    pose proof (exp_pos (- y)). lra. }
  split; [exact Hs|]. split.
  - intros y. cbn [derivative]. unfold sigmoidDerivative. by rewrite Hs.
  - apply derivable_pt_lim_sigmoid.
Qed.

Lemma activation_derivative_witness :
  exists f f' : R -> R,
    (forall y, output (getActivationFunction (Some "relu"%string)) (Num y) = Num (f y)) /\
    (forall y, derivative (getActivationFunction (Some "relu"%string)) (Num y)
               = Num (f' y)) /\
    derivable_pt_lim f 2 (f' 2).
Proof. apply (activation_derivative (Some "relu"%string) 2). intros _. lra. Defined.

(** ** The layers [forward] and [backpropagate] read *)

Lemma for_range_ext {St} (body body' : nat -> St -> result St) start n s :
  (forall i t, (start <= i < start + n)%nat -> body i t = body' i t) ->
  for_range start n body s = for_range start n body' s.
Proof.
  revert start s. induction n as [|n IH]; intros start s Hext; [done|].
  cbn. rewrite Hext by lia. destruct (body' start s) as [t|e]; [|done]. cbn.
  apply IH. intros i u Hi. apply Hext. lia.
Qed.

Lemma for_down_ext {St} (body body' : nat -> St -> result St) n s :
  (forall l t, (l < n)%nat -> body l t = body' l t) ->
  for_down n body s = for_down n body' s.
Proof.
  revert s. induction n as [|n IH]; intros s Hext; [done|].
  cbn. rewrite Hext by lia. destruct (body' n s) as [t|e]; [|done]. cbn.
  apply IH. intros l u Hl. apply Hext. lia.
Qed.

(** What a round reads of the layers: layer [i] and the size of layer
    [i + 1]. *)
Lemma layerAt_app_l (ls : list NeuronLayer) l i :
  (i < length ls)%nat -> layerAt (ls ++ [l]) i = layerAt ls i.
Proof. intros Hi. unfold layerAt. by rewrite lookup_app_l. Qed.

Lemma layerAt_next_size (ls : list NeuronLayer) l l' i {A} (k : nat -> result A) :
  num_neurons l' = num_neurons l -> (i < length ls)%nat ->
  (li1 ← layerAt (ls ++ [l']) (i + 1); k (num_neurons li1))
  = (li1 ← layerAt (ls ++ [l]) (i + 1); k (num_neurons li1)).
Proof.
  intros Hn Hi. unfold layerAt.
  destruct (decide (i + 1 < length ls)%nat) as [Hlt|Hge].
  - by rewrite !lookup_app_l.
  - rewrite !lookup_app_r by lia.
    replace (i + 1 - length ls)%nat with 0%nat by lia. cbn. by rewrite Hn.
Qed.

Lemma forwardRound_last_layer ls l l' weights biases i current :
  num_neurons l' = num_neurons l -> (i < length ls)%nat ->
  forwardRound (ls ++ [l']) weights biases i current
  = forwardRound (ls ++ [l]) weights biases i current.
Proof.
  intros Hn Hi. unfold forwardRound. rewrite (layerAt_app_l ls l' i Hi), (layerAt_app_l ls l i Hi).
  destruct (layerAt ls i) as [li|e]; [|done]. cbn [mbind result_bind].
  rewrite !length_app. cbn [length].
  apply (layerAt_next_size ls l l' i
    (fun n => for_range 0 n (fun j next =>
       z ← weightedSum current (weights !! layerKey i) biases i (num_neurons li) n j;
       Ok (<[j := if bool_decide (i = (length ls + 1 - 2)%nat)
                  then ensureBounds (output (getActivationFunction (activation_function li)) z)
                  else output (getActivationFunction (activation_function li)) z]> next))
       (replicate n (Num 0))) Hn Hi).
Qed.

Lemma forward_last_layer ls l l' weights biases input :
  num_neurons l' = num_neurons l ->
  forward input (ls ++ [l']) weights biases = forward input (ls ++ [l]) weights biases.
Proof.
  intros Hn. unfold forward. rewrite !length_app. cbn [length].
  apply for_range_ext. intros i t Hi. apply forwardRound_last_layer; [done|lia].
Qed.

Lemma passRound_last_layer ls l l' weights biases i st :
  num_neurons l' = num_neurons l -> (i < length ls)%nat ->
  passRound (ls ++ [l']) weights biases i st
  = passRound (ls ++ [l]) weights biases i st.
Proof.
  intros Hn Hi. unfold passRound. rewrite (layerAt_app_l ls l' i Hi), (layerAt_app_l ls l i Hi).
  destruct (layerAt ls i) as [li|e]; [|done]. cbn [mbind result_bind].
  apply (layerAt_next_size ls l l' i
    (fun n =>
       z ← for_range 0 n (fun j z =>
            zj ← weightedSum (ps_current st) (weights !! layerKey i) biases i
                   (num_neurons li) n j;
            Ok (<[j := zj]> z)) (replicate n (Num 0));
       Ok {| ps_activations :=
               ps_activations st
               ++ [output (getActivationFunction (activation_function li)) <$> z];
             ps_zs := ps_zs st ++ [z];
             ps_current :=
               output (getActivationFunction (activation_function li)) <$> z |})
    Hn Hi).
Qed.

Lemma backwardRound_last_layer ls l l' weights activations zs k st :
  num_neurons l' = num_neurons l -> (k < length ls)%nat ->
  backwardRound (ls ++ [l']) weights activations zs k st
  = backwardRound (ls ++ [l]) weights activations zs k st.
Proof.
  intros Hn Hk. unfold backwardRound.
  rewrite (layerAt_app_l ls l' k Hk), (layerAt_app_l ls l k Hk).
  destruct (layerAt ls k) as [ll|e]; [|done]. cbn [mbind result_bind].
  apply (layerAt_next_size ls l l' k
    (fun n =>
       wg ← for_range 0 (num_neurons ll) (fun i wg =>
              for_range 0 n (fun j wg =>
                a ← elemAt (activations !! k) i;
                Ok (wg ++ [vmul a (aget (bs_delta st) j)])) wg) [];
       if bool_decide (0 < k)%nat then
         newDelta ← for_range 0 (num_neurons ll) (fun i newDelta =>
           acc ← for_range 0 n (fun j acc =>
             w ← elemAt (weights !! layerKey k) (i * n + j)%nat;
             Ok (vadd acc (vmul w (aget (bs_delta st) j)))) (aget newDelta i);
           z ← elemAt (zs !! (k - 1)%nat) i;
           Ok (<[i := vmul acc
                        (derivative (getActivationFunction (activation_function ll)) z)]>
                 newDelta))
           (replicate (num_neurons ll) (Num 0));
         Ok {| bs_grads :=
                 {| weightGradients :=
                      <[layerKey k := wg]> (weightGradients (bs_grads st));
                    biasGradients :=
                      <[(k + 1)%nat := bs_delta st]> (biasGradients (bs_grads st)) |};
               bs_delta := newDelta |}
       else Ok {| bs_grads :=
                    {| weightGradients :=
                         <[layerKey k := wg]> (weightGradients (bs_grads st));
                       biasGradients :=
                         <[(k + 1)%nat := bs_delta st]> (biasGradients (bs_grads st)) |};
                  bs_delta := bs_delta st |})
    Hn Hk).
Qed.

(** X3: the activation function recorded for the last layer is never
    used.  A transition applies the activation of its source layer, so
    replacing the last layer by one of the same size leaves the results
    of [forward] and of [backpropagate] as they are. *)
Theorem last_activation_unused input target neighbors (ls : list NeuronLayer)
    (size : nat) (type type' : option string) weights biases :
  let l := {| num_neurons := size; activation_function := type |} in
  let l' := {| num_neurons := size; activation_function := type' |} in
  forward input (ls ++ [l']) weights biases = forward input (ls ++ [l]) weights biases /\
  backpropagate input target neighbors (ls ++ [l']) weights biases
  = backpropagate input target neighbors (ls ++ [l]) weights biases.
Proof.
  intros l l'.
  assert (num_neurons l' = num_neurons l) as Hn by done.
  split; [by apply forward_last_layer|].
  unfold backpropagate, backpropForwardPass.
  rewrite !length_app. cbn [length].
  rewrite (for_range_ext (passRound (ls ++ [l']) weights biases)
             (passRound (ls ++ [l]) weights biases)).
  2: { intros i t Hi. apply passRound_last_layer; [done|lia]. }
  destruct (for_range _ _ _ _) as [pass|e]; [|done]. cbn [mbind result_bind].
  destruct (rowAt _ _) as [lastActivation|e]; [|done]. cbn [mbind result_bind].
  assert (outputDelta lastActivation target neighbors (ls ++ [l']) weights biases
          = outputDelta lastActivation target neighbors (ls ++ [l]) weights biases) as ->.
  { unfold outputDelta, geoGradient. f_equal.
    apply FunctionalExtensionality.functional_extensionality. intros i.
    apply FunctionalExtensionality.functional_extensionality. intros output_i.
    f_equal. f_equal.
    apply FunctionalExtensionality.functional_extensionality. intros geoGrad.
    apply FunctionalExtensionality.functional_extensionality. intros neighbor.
    by rewrite (forward_last_layer ls l l'). }
  destruct (outputDelta _ _ _ _ _ _) as [delta|e]; [|done]. cbn [mbind result_bind].
  unfold backwardPass. rewrite !length_app. cbn [length].
  rewrite !fmap_app. cbn [fmap list_fmap].
  rewrite (for_down_ext (backwardRound (ls ++ [l']) weights (ps_activations pass) (ps_zs pass))
             (backwardRound (ls ++ [l]) weights (ps_activations pass) (ps_zs pass))).
  2: { intros k t Hk. apply backwardRound_last_layer; [done|lia]. }
  done.
Qed.

(** With two layers or more, the result of [forward] has one slot per
    neuron of the last layer. *)
Lemma forward_length input layers weights biases out l :
  (2 <= length layers)%nat -> last layers = Some l ->
  forward input layers weights biases = Ok out ->
  length out = num_neurons l.
Proof.
  intros Hlen Hl. unfold forward.
  destruct (length layers - 1)%nat as [|m] eqn:Hm; [lia|].
  rewrite for_range_snoc. intros (cur & _ & Hlast)%bind_Ok.
  unfold forwardRound in Hlast.
  apply bind_Ok in Hlast as (li & _ & Hlast).
  apply bind_Ok in Hlast as (li1 & Hli1 & Hlast).
  cbn zeta in Hlast.
  apply (neuron_loop_inv _ (fun z => if bool_decide _ then _ else _)) in Hlast
    as [Hn _].
  apply layerAt_Ok in Hli1. rewrite last_lookup in Hl.
  replace (0 + m + 1)%nat with (pred (length layers)) in Hli1 by lia.
  congruence.
Qed.

(** X4: [forward] does not look at the length of its input.  With two
    layers or more, and the entries it reads through in place, it
    returns one slot per neuron of the last layer, whatever the input
    is. *)
Theorem forward_output_size input layers weights biases l :
  (2 <= length layers)%nat -> last layers = Some l ->
  entriesPresent layers weights biases ->
  exists out,
    forward input layers weights biases = Ok out /\ length out = num_neurons l.
Proof.
  intros Hlen Hl Hpresent.
  destruct (proj2 (forward_Ok_iff input layers weights biases) Hpresent) as [out Hout].
  exists out. split; [done|]. by apply (forward_length input layers weights biases).
Qed.

Lemma tiny_entriesPresent w b0 b1 :
  entriesPresent tinyLayers {[ "layer0_1"%string := w ]} [b0; b1].
Proof.
  intros [|[|i]] li li1; cbn; intros [= <-]; [|done..]. intros [= <-].
  split; intros; [by eexists|]. exists w. apply lookup_singleton_eq.
Qed.

Lemma forward_output_size_witness :
  exists out,
    forward [] tinyLayers {[ "layer0_1"%string := [Num 2] ]} [[Num 0]; [Num 0]] = Ok out /\
    length out = 1%nat.
Proof.
  apply (forward_output_size [] tinyLayers _ _
           {| num_neurons := 1; activation_function := Some "linear"%string |}).
  - cbn. lia.
  - reflexivity.
  - apply tiny_entriesPresent.
Defined.

(** ** Bounded activations and the final clamp *)

Lemma tanh_bounds (x : R) : -1 < tanh x < 1.
Proof.
  pose proof (cosh_pos x) as Hc. pose proof (exp_pos x). pose proof (exp_pos (- x)).
  assert (- cosh x < sinh x < cosh x) as [Hlo Hhi] by (unfold sinh, cosh; lra).
  unfold tanh. split.
  - apply (Rmult_lt_reg_r (cosh x)); [done|]. field_simplify; lra.
  - apply (Rmult_lt_reg_r (cosh x)); [done|]. field_simplify; lra.
Qed.

Lemma sigmoid_bounds (x : R) : 0 < 1 / (1 + exp (- x)) < 1.
Proof.
  pose proof (exp_pos (- x)) as He. split.
  - apply Rdiv_lt_0_compat; lra.
  - apply (Rmult_lt_reg_r (1 + exp (- x))); [lra|]. field_simplify; lra.
Qed.

Lemma arith1_cases f v : arith1 f v = NaN \/ exists x, toNumber v = Some x /\ arith1 f v = Num (f x).
Proof. unfold arith1. destruct (toNumber v) as [x|]; [right; by exists x|by left]. Qed.

(** The sigmoid and tanh answer NaN or a number of [[-1, 1]], which
    [ensureBounds] leaves as it is. *)
Lemma bounded_activation_clamped type v :
  type <> Some "relu"%string -> type <> Some "linear"%string ->
  ensureBounds (output (getActivationFunction type) v)
  = output (getActivationFunction type) v.
Proof.
  intros Hrelu Hlinear. unfold getActivationFunction.
  rewrite decide_False by done.
  destruct (decide (type = Some "tanh"%string)) as [_|_].
  { cbn [output]. unfold tanh_act, Math_tanh.
    destruct (arith1_cases tanh v) as [->|(x & _ & ->)]; [done|].
    apply ensureBounds_inside. pose proof (tanh_bounds x). lra. }
  rewrite decide_False by done. cbn [output]. unfold sigmoid.
  destruct (toNumber v) as [x|] eqn:Hv.
  - assert (vadd (Num 1) (Math_exp (vneg v)) = Num (1 + exp (- x))) as ->.
    { unfold Math_exp, vneg, vadd, arith1, arith2. by rewrite Hv. }
    unfold vdiv. cbn [toNumber]. pose proof (exp_pos (- x)).
    rewrite decide_False by lra.
    apply ensureBounds_inside. pose proof (sigmoid_bounds x). lra.
  - assert (vadd (Num 1) (Math_exp (vneg v)) = NaN) as ->.
    { unfold Math_exp, vneg, vadd, arith1, arith2. by rewrite Hv. }
    done.
Qed.

Lemma passRound_current layers weights biases i st st' li :
  layers !! i = Some li ->
  passRound layers weights biases i st = Ok st' ->
  exists z, ps_current st'
            = output (getActivationFunction (activation_function li)) <$> z.
Proof.
  intros Hli. unfold passRound. apply layerAt_Ok in Hli. rewrite Hli.
  cbn [mbind result_bind].
  intros (li1 & _ & H)%bind_Ok. cbn zeta in H.
  apply bind_Ok in H as (z & _ & [= <-]). by exists z.
Qed.

(** X5: when the activation applied to the output layer -- the one
    recorded for the layer before the last -- is the sigmoid or tanh,
    the final clamp of [forward] changes nothing: [forward] returns
    exactly the activations of the last layer that the pass of
    [backpropagate] computes. *)
Theorem forward_is_last_activation input layers weights biases pass a li :
  (2 <= length layers)%nat ->
  layers !! (length layers - 2)%nat = Some li ->
  activation_function li <> Some "relu"%string ->
  activation_function li <> Some "linear"%string ->
  backpropForwardPass input layers weights biases = Ok pass ->
  last (ps_activations pass) = Some a ->
  forward input layers weights biases = Ok a.
Proof.
  intros Hlen Hli Hrelu Hlinear Hpass Ha.
  rewrite (forward_clamps_pass input layers weights biases pass a Hlen Hpass Ha).
  f_equal. unfold backpropForwardPass in Hpass.
  destruct (length layers - 1)%nat as [|m] eqn:Hm; [lia|].
  rewrite for_range_snoc in Hpass. apply bind_Ok in Hpass as (st & _ & Hlast).
  replace (0 + m)%nat with (length layers - 2)%nat in Hlast by lia.
  pose proof (passRound_last _ _ _ _ _ _ Hlast) as Hcur.
  destruct (passRound_current _ _ _ _ _ _ _ Hli Hlast) as [z Hz].
  rewrite Ha in Hcur. injection Hcur as ->. rewrite Hz.
  rewrite <- list_fmap_compose. apply list_fmap_ext. intros j v _. cbn.
  by apply bounded_activation_clamped.
Qed.

Lemma forward_is_last_activation_witness :
  let layers :=
    [ {| num_neurons := 1; activation_function := Some "tanh"%string |};
      {| num_neurons := 1; activation_function := None |} ] in
  let weights : Weights := {[ "layer0_1"%string := [Num 2] ]} in
  forward [Num 1] layers weights [[Num 0]; [Num 0]] = Ok [Num (tanh (0 + 1 * 2))].
Proof.
  cbn zeta.
  apply (forward_is_last_activation [Num 1] _ _ _
           {| ps_activations := [[Num 1]; [Num (tanh (0 + 1 * 2))]];
              ps_zs := [[Num (0 + 1 * 2)]];
              ps_current := [Num (tanh (0 + 1 * 2))] |}
           [Num (tanh (0 + 1 * 2))]
           {| num_neurons := 1; activation_function := Some "tanh"%string |}).
  - cbn. lia.
  - reflexivity.
  - discriminate.
  - discriminate.
  - unfold backpropForwardPass, passRound, getActivationFunction. by js_eval.
  - reflexivity.
Defined.

(** ** The bounds of a set of points *)

Lemma findBounds_unfold points :
  findBounds points
  = (p0 ← rowAt points 0;
     Ok (foldl (fun b '(n, point) => visitPoint (bool_decide (n = 0%nat)) b point)
           {| mins := replicate (length p0) NaN; maxs := replicate (length p0) NaN |}
           (imap pair points))).
Proof. done. Qed.

(** A point is visited slot by slot; a slot the point does not have is
    left alone. *)
Lemma visitPoint_lookup first lo hi p :
  (length p <= length lo)%nat -> (length p <= length hi)%nat ->
  let b := visitPoint first {| mins := lo; maxs := hi |} p in
  length (mins b) = length lo /\ length (maxs b) = length hi /\
  forall i,
    mins b !! i
    = match p !! i with
      | Some v => (fun c => boundStep Math_min first c v) <$> lo !! i
      | None => lo !! i
      end /\
    maxs b !! i
    = match p !! i with
      | Some v => (fun c => boundStep Math_max first c v) <$> hi !! i
      | None => hi !! i
      end.
Proof.
  induction p as [|x q IH] using rev_ind; intros Hlo Hhi.
  { cbn. split; [done|]. split; [done|]. by intros i. }
  rewrite length_app in Hlo, Hhi. cbn in Hlo, Hhi.
  destruct IH as (Hlmin & Hlmax & Hslots); [lia..|].
  unfold visitPoint in *. rewrite imap_app, foldl_app. cbn [imap foldl].
  rewrite Nat.add_0_r.
  set (b := foldl _ _ (imap pair q)) in *. cbn [mins maxs].
  unfold aset. rewrite !decide_True by lia. rewrite !length_insert.
  split; [done|]. split; [done|]. intros i.
  destruct (Hslots (length q)) as [Hmin Hmax].
  rewrite (lookup_ge_None_2 q) in Hmin, Hmax by lia.
  destruct (lookup_lt_is_Some_2 lo (length q)) as [c Hc]; [lia|].
  destruct (lookup_lt_is_Some_2 hi (length q)) as [c' Hc']; [lia|].
  destruct (decide (i = length q)) as [->|Hne].
  - rewrite !list_lookup_insert_eq by lia.
    rewrite lookup_app_r by lia. rewrite Nat.sub_diag. cbn.
    unfold aget. rewrite Hmin, Hmax, Hc, Hc'. done.
  - rewrite !list_lookup_insert_ne by done.
    destruct (Hslots i) as [-> ->].
    destruct (decide (i < length q)%nat) as [Hlt|Hge].
    + by rewrite lookup_app_l.
    + rewrite (lookup_ge_None_2 q) by lia.
      rewrite (lookup_ge_None_2 (q ++ [x])); [done|].
      rewrite length_app. cbn. lia.
Qed.

Lemma Bounds_eq (b : Bounds) lo hi :
  mins b = lo -> maxs b = hi -> b = {| mins := lo; maxs := hi |}.
Proof. destruct b. cbn. by intros -> ->. Qed.

(** The first point replaces the infinities. *)
Lemma visitPoint_first (p : list R) :
  visitPoint true
    {| mins := replicate (length p) NaN; maxs := replicate (length p) NaN |}
    (Num <$> p)
  = {| mins := Num <$> p; maxs := Num <$> p |}.
Proof.
  destruct (visitPoint_lookup true (replicate (length p) NaN) (replicate (length p) NaN)
              (Num <$> p)) as (Hlmin & Hlmax & Hslots).
  { by rewrite length_fmap, length_replicate. }
  { by rewrite length_fmap, length_replicate. }
  apply Bounds_eq; apply list_eq; intros i; destruct (Hslots i) as [Hmin Hmax]; rewrite ?Hmin, ?Hmax;
    rewrite list_lookup_fmap; destruct (p !! i) as [x|] eqn:Hx; cbn.
  - rewrite lookup_replicate_2; [done|]. by apply lookup_lt_Some in Hx.
  - apply lookup_ge_None_2. rewrite length_replicate. by apply lookup_ge_None_1.
  - rewrite lookup_replicate_2; [done|]. by apply lookup_lt_Some in Hx.
  - apply lookup_ge_None_2. rewrite length_replicate. by apply lookup_ge_None_1.
Qed.

(** A later point lowers the minima and raises the maxima. *)
Lemma visitPoint_next (lo hi p : list R) :
  length lo = length p -> length hi = length p ->
  visitPoint false {| mins := Num <$> lo; maxs := Num <$> hi |} (Num <$> p)
  = {| mins := Num <$> zip_with Rmin lo p; maxs := Num <$> zip_with Rmax hi p |}.
Proof.
  intros Hlo Hhi.
  destruct (visitPoint_lookup false (Num <$> lo) (Num <$> hi) (Num <$> p))
    as (Hlmin & Hlmax & Hslots).
  { rewrite !length_fmap. lia. }
  { rewrite !length_fmap. lia. }
  apply Bounds_eq; apply list_eq; intros i; destruct (Hslots i) as [Hmin Hmax]; rewrite ?Hmin, ?Hmax;
    rewrite !list_lookup_fmap, lookup_zip_with; destruct (p !! i) as [x|] eqn:Hx; cbn.
  - by destruct (lo !! i).
  - rewrite (lookup_ge_None_2 lo); [done|]. apply lookup_ge_None_1 in Hx. lia.
  - by destruct (hi !! i).
  - rewrite (lookup_ge_None_2 hi); [done|]. apply lookup_ge_None_1 in Hx. lia.
Qed.

Lemma foldl_visit_later {A} (f : nat -> A -> nat * A) (b : Bounds)
    (points : list A) (g : A -> list value) :
  (forall i x, exists n, f i x = (S n, x)) ->
  foldl (fun b '(n, point) => visitPoint (bool_decide (n = 0%nat)) b (g point)) b
    (imap f points)
  = foldl (fun b point => visitPoint false b (g point)) b points.
Proof.
  revert f b. induction points as [|x points IH]; intros f b Hf; [done|].
  cbn. destruct (Hf 0%nat x) as [n ->]. cbn.
  apply IH. intros i y. apply Hf.
Qed.

Lemma foldl_visit_numeric (rest : list (list R)) (lo hi : list R) :
  rectangular (length lo) rest -> length hi = length lo ->
  foldl (fun b point => visitPoint false b point)
    {| mins := Num <$> lo; maxs := Num <$> hi |} (numRows rest)
  = {| mins := Num <$> foldl (zip_with Rmin) lo rest;
       maxs := Num <$> foldl (zip_with Rmax) hi rest |}.
Proof.
  revert lo hi. induction rest as [|p rest IH]; intros lo hi Hrect Hhi; [done|].
  apply Forall_cons in Hrect as [Hp Hrect].
  change (numRows (p :: rest)) with ((Num <$> p) :: numRows rest). cbn [foldl].
  rewrite visitPoint_next by lia.
  apply IH.
  - rewrite length_zip_with. by replace (length lo `min` length p)%nat with (length lo) by lia.
  - rewrite !length_zip_with. lia.
Qed.

(** What the bounds of a set of numeric points of the same size are. *)
Lemma findBounds_numeric (p0 : list R) (rest : list (list R)) :
  rectangular (length p0) rest ->
  findBounds (numRows (p0 :: rest))
  = Ok {| mins := Num <$> foldl (zip_with Rmin) p0 rest;
          maxs := Num <$> foldl (zip_with Rmax) p0 rest |}.
Proof.
  intros Hrect. rewrite findBounds_unfold.
  change (numRows (p0 :: rest)) with ((Num <$> p0) :: numRows rest).
  change (rowAt ((Num <$> p0) :: numRows rest) 0) with (Ok (Num <$> p0)).
  cbn [mbind result_bind imap foldl]. rewrite bool_decide_eq_true_2 by done.
  rewrite length_fmap. rewrite visitPoint_first.
  rewrite (foldl_visit_later (pair ∘ S) _ _ (fun p => p)).
  2: { intros i x. by exists i. }
  f_equal. by apply (foldl_visit_numeric rest p0 p0).
Qed.

Lemma foldl_zip_length (f : R -> R -> R) (acc : list R) (rest : list (list R)) :
  rectangular (length acc) rest ->
  length (foldl (zip_with f) acc rest) = length acc.
Proof.
  revert acc. induction rest as [|p rest IH]; intros acc Hrect; [done|].
  apply Forall_cons in Hrect as [Hp Hrect]. cbn.
  rewrite IH; rewrite length_zip_with; [lia|].
  by replace (length acc `min` length p)%nat with (length acc) by lia.
Qed.

(** The running minimum is below the start and below every point, and
    is the start or a coordinate of a point. *)
Lemma foldl_min_spec (acc : list R) (rest : list (list R)) i m :
  rectangular (length acc) rest ->
  foldl (zip_with Rmin) acc rest !! i = Some m ->
  exists a, acc !! i = Some a /\ m <= a /\
    (forall p x, p ∈ rest -> p !! i = Some x -> m <= x) /\
    (m = a \/ exists p, p ∈ rest /\ p !! i = Some m).
Proof.
  revert acc. induction rest as [|p rest IH]; intros acc Hrect Hm.
  { exists m. cbn in Hm. split; [done|]. split; [lra|]. split; [|by left].
    intros p x Hp. by apply elem_of_nil in Hp. }
  apply Forall_cons in Hrect as [Hp Hrect]. cbn in Hm.
  destruct (IH (zip_with Rmin acc p)) as (a' & Ha' & Hle & Hall & Hatt); [|done|].
  { rewrite length_zip_with. by replace (length acc `min` length p)%nat with (length acc) by lia. }
  rewrite lookup_zip_with in Ha'.
  destruct (acc !! i) as [a|] eqn:Ha; [|done]. cbn in Ha'.
  destruct (p !! i) as [x0|] eqn:Hx0; [|done]. cbn in Ha'. injection Ha' as <-.
  exists a. split; [done|].
  pose proof (Rmin_l a x0). pose proof (Rmin_r a x0).
  split; [lra|]. split.
  - intros q x [->|Hq]%elem_of_cons Hx.
    + rewrite Hx0 in Hx. injection Hx as <-. lra.
    + by apply (Hall q).
  - destruct Hatt as [->|(q & Hq & Hqm)].
    + unfold Rmin. destruct (Rle_dec a x0); [by left|right].
      exists p. split; [apply elem_of_cons; by left|done].
    + right. exists q. split; [apply elem_of_cons; by right|done].
Qed.

Lemma foldl_max_spec (acc : list R) (rest : list (list R)) i m :
  rectangular (length acc) rest ->
  foldl (zip_with Rmax) acc rest !! i = Some m ->
  exists a, acc !! i = Some a /\ a <= m /\
    (forall p x, p ∈ rest -> p !! i = Some x -> x <= m) /\
    (m = a \/ exists p, p ∈ rest /\ p !! i = Some m).
Proof.
  revert acc. induction rest as [|p rest IH]; intros acc Hrect Hm.
  { exists m. cbn in Hm. split; [done|]. split; [lra|]. split; [|by left].
    intros p x Hp. by apply elem_of_nil in Hp. }
  apply Forall_cons in Hrect as [Hp Hrect]. cbn in Hm.
  destruct (IH (zip_with Rmax acc p)) as (a' & Ha' & Hle & Hall & Hatt); [|done|].
  { rewrite length_zip_with. by replace (length acc `min` length p)%nat with (length acc) by lia. }
  rewrite lookup_zip_with in Ha'.
  destruct (acc !! i) as [a|] eqn:Ha; [|done]. cbn in Ha'.
  destruct (p !! i) as [x0|] eqn:Hx0; [|done]. cbn in Ha'. injection Ha' as <-.
  exists a. split; [done|].
  pose proof (Rmax_l a x0). pose proof (Rmax_r a x0).
  split; [lra|]. split.
  - intros q x [->|Hq]%elem_of_cons Hx.
    + rewrite Hx0 in Hx. injection Hx as <-. lra.
    + by apply (Hall q).
  - destruct Hatt as [->|(q & Hq & Hqm)].
    + unfold Rmax. destruct (Rle_dec a x0); [right|by left].
      exists p. split; [apply elem_of_cons; by left|done].
    + right. exists q. split; [apply elem_of_cons; by right|done].
Qed.

(** The bounds enclose every point of the set and are reached. *)
Lemma findBounds_spec (p0 : list R) (rest : list (list R)) :
  rectangular (length p0) rest ->
  exists lo hi : list R,
    findBounds (numRows (p0 :: rest)) = Ok {| mins := Num <$> lo; maxs := Num <$> hi |} /\
    length lo = length p0 /\ length hi = length p0 /\
    forall i m M, lo !! i = Some m -> hi !! i = Some M ->
      (forall p x, p ∈ p0 :: rest -> p !! i = Some x -> m <= x <= M) /\
      (exists p, p ∈ p0 :: rest /\ p !! i = Some m) /\
      (exists p, p ∈ p0 :: rest /\ p !! i = Some M).
Proof.
  intros Hrect.
  exists (foldl (zip_with Rmin) p0 rest), (foldl (zip_with Rmax) p0 rest).
  split; [by apply findBounds_numeric|].
  split; [by apply foldl_zip_length|]. split; [by apply foldl_zip_length|].
  intros i m M Hm HM.
  destruct (foldl_min_spec p0 rest i m Hrect Hm) as (a & Ha & Hma & Hmall & Hmatt).
  destruct (foldl_max_spec p0 rest i M Hrect HM) as (a' & Ha' & HMa & HMall & HMatt).
  rewrite Ha in Ha'. injection Ha' as <-.
  split; [|split].
  - intros p x [->|Hp]%elem_of_cons Hx.
    + rewrite Ha in Hx. injection Hx as <-. lra.
    + split; [by apply (Hmall p)|by apply (HMall p)].
  - destruct Hmatt as [->|(p & Hp & Hpm)].
    + exists p0. split; [apply elem_of_cons; by left|done].
    + exists p. split; [apply elem_of_cons; by right|done].
  - destruct HMatt as [->|(p & Hp & HpM)].
    + exists p0. split; [apply elem_of_cons; by left|done].
    + exists p. split; [apply elem_of_cons; by right|done].
Qed.

(** X6: on a non-empty set of numeric points that all have the size of
    the first, [findBounds] returns one minimum and one maximum per
    dimension; every coordinate of every point lies between them, and
    each of them is a coordinate of some point of the set. *)
Theorem findBounds_encloses (p0 : list R) (rest : list (list R)) :
  rectangular (length p0) rest ->
  exists lo hi : list R,
    findBounds (numRows (p0 :: rest)) = Ok {| mins := Num <$> lo; maxs := Num <$> hi |} /\
    length lo = length p0 /\ length hi = length p0 /\
    forall i m M, lo !! i = Some m -> hi !! i = Some M ->
      (forall p x, p ∈ p0 :: rest -> p !! i = Some x -> m <= x <= M) /\
      (exists p, p ∈ p0 :: rest /\ p !! i = Some m) /\
      (exists p, p ∈ p0 :: rest /\ p !! i = Some M).
Proof. apply findBounds_spec. Qed.

Lemma findBounds_encloses_witness :
  exists lo hi : list R,
    findBounds (numRows ([1; 5] :: [[3; 2]]))
    = Ok {| mins := Num <$> lo; maxs := Num <$> hi |} /\
    length lo = length [1; 5] /\ length hi = length [1; 5] /\
    forall i m M, lo !! i = Some m -> hi !! i = Some M ->
      (forall p x, p ∈ [1; 5] :: [[3; 2]] -> p !! i = Some x -> m <= x <= M) /\
      (exists p, p ∈ [1; 5] :: [[3; 2]] /\ p !! i = Some m) /\
      (exists p, p ∈ [1; 5] :: [[3; 2]] /\ p !! i = Some M).
Proof.
  apply (findBounds_encloses [1; 5] [[3; 2]]).
  constructor; [reflexivity|constructor].
Defined.

(** ** Normalisation under the bounds of the set *)

Lemma unitScale_pos i : 0 < unitScale i.
Proof. unfold unitScale. destruct (decide _); lra. Qed.

Lemma normalize_slot (p lo hi : list R) i x m M :
  p !! i = Some x -> lo !! i = Some m -> hi !! i = Some M ->
  normalizePoint (Num <$> p) (Num <$> lo) (Num <$> hi) !! i
  = Some (Num (unitCoordinate (unitScale i) m M x)).
Proof.
  intros Hx Hm HM. unfold normalizePoint.
  rewrite list_lookup_imap, list_lookup_fmap, Hx. cbn.
  rewrite (aget_fmap_Num _ _ _ Hm), (aget_fmap_Num _ _ _ HM). cbn.
  unfold unitCoordinate, unitScale. case_bool_decide.
  - by rewrite decide_True.
  - destruct (decide (M - m = 0)); [done|].
    destruct (decide (i = 2%nat)); cbn; do 3 f_equal; lra.
Qed.

Lemma unitCoordinate_range scale m M x :
  0 < scale -> m <= x <= M ->
  0 <= unitCoordinate scale m M x <= scale.
Proof.
  intros Hs [Hlo Hhi]. unfold unitCoordinate.
  destruct (decide (M - m = 0)); [lra|].
  assert (0 < M - m) as Hr by lra.
  assert (0 <= (x - m) / (M - m) <= 1) as [H0 H1].
  { split.
    - apply Rle_mult_inv_pos; lra.
    - apply (Rmult_le_reg_r (M - m)); [done|]. field_simplify; lra. }
  split; nra.
Qed.

(** X7: [normalizePoint] sends a coordinate that lies between the
    bounds of its dimension into [[0, 1]], and into [[0, 0.5]] on the
    third dimension: the lower bound goes to zero, and the upper bound
    of a dimension with extent goes to the upper end. *)
Theorem normalizePoint_range (p lo hi : list R) i x m M :
  p !! i = Some x -> lo !! i = Some m -> hi !! i = Some M -> m <= x <= M ->
  exists y,
    normalizePoint (Num <$> p) (Num <$> lo) (Num <$> hi) !! i = Some (Num y) /\
    0 <= y <= unitScale i /\
    (x = m -> y = 0) /\
    (m < M -> x = M -> y = unitScale i).
Proof.
  intros Hx Hm HM Hin. exists (unitCoordinate (unitScale i) m M x).
  split; [by apply normalize_slot|].
  split; [apply unitCoordinate_range; [apply unitScale_pos|done]|].
  unfold unitCoordinate. split.
  - intros ->. destruct (decide _); [done|]. field. lra.
  - intros Hlt ->. rewrite decide_False by lra. field. lra.
Qed.

Lemma normalizePoint_range_witness :
  exists y,
    normalizePoint (Num <$> [0; 0; 3]) (Num <$> [0; 0; 1]) (Num <$> [1; 1; 5]) !! 2%nat
    = Some (Num y) /\
    0 <= y <= unitScale 2 /\
    (3 = 1 -> y = 0) /\
    (1 < 5 -> 3 = 5 -> y = unitScale 2).
Proof.
  apply (normalizePoint_range [0; 0; 3] [0; 0; 1] [1; 1; 5] 2 3 1 5);
    [reflexivity..|lra].
Defined.

(** X8: the normalisation [trainNetwork] applies to its data.  Under
    the bounds [findBounds] returns for a set of numeric points of the
    same size, [normalizePoint] sends every point of the set to numbers
    of [[0, 1]], and of [[0, 0.5]] on the third dimension. *)
Theorem normalized_data_in_range (p0 : list R) (rest : list (list R)) (p : list R) :
  rectangular (length p0) rest -> p ∈ p0 :: rest ->
  exists b (q : list R),
    findBounds (numRows (p0 :: rest)) = Ok b /\
    normalizePoint (Num <$> p) (mins b) (maxs b) = Num <$> q /\
    length q = length p /\
    forall i y, q !! i = Some y -> 0 <= y <= unitScale i.
Proof.
  intros Hrect Hp.
  destruct (findBounds_spec p0 rest Hrect) as (lo & hi & Hb & Hlo & Hhi & Hin).
  assert (length p = length p0) as Hlen.
  { apply elem_of_cons in Hp as [->|Hp]; [done|].
    by apply (proj1 (Forall_forall _ _) Hrect). }
  exists {| mins := Num <$> lo; maxs := Num <$> hi |}.
  exists (imap (fun i x => unitCoordinate (unitScale i) (nth i lo 0) (nth i hi 0) x) p).
  split; [done|]. cbn [mins maxs]. split; [|split].
  - apply list_eq. intros i. rewrite list_lookup_fmap, list_lookup_imap.
    destruct (p !! i) as [x|] eqn:Hx.
    + pose proof (lookup_lt_Some _ _ _ Hx) as Hi.
      rewrite (normalize_slot p lo hi i x (nth i lo 0) (nth i hi 0)); [done|done|..];
        apply lookup_nth; lia.
    + unfold normalizePoint. by rewrite list_lookup_imap, list_lookup_fmap, Hx.
  - by rewrite length_imap.
  - intros i y. rewrite list_lookup_imap.
    destruct (p !! i) as [x|] eqn:Hx; [|done]. cbn. intros [= <-].
    pose proof (lookup_lt_Some _ _ _ Hx) as Hi.
    apply unitCoordinate_range; [apply unitScale_pos|].
    destruct (Hin i (nth i lo 0) (nth i hi 0)) as [Hall _];
      [apply lookup_nth; lia..|].
    by apply (Hall p x).
Qed.

Lemma normalized_data_in_range_witness :
  exists b (q : list R),
    findBounds (numRows ([1; 5] :: [[3; 2]])) = Ok b /\
    normalizePoint (Num <$> [3; 2]) (mins b) (maxs b) = Num <$> q /\
    length q = length [3; 2] /\
    forall i y, q !! i = Some y -> 0 <= y <= unitScale i.
Proof.
  apply (normalized_data_in_range [1; 5] [[3; 2]] [3; 2]).
  - constructor; [reflexivity|constructor].
  - apply elem_of_cons. right. apply elem_of_cons. by left.
Defined.

(** ** [processOutputs] and its normalisation into [[-1, 1]] *)

Lemma signedCoordinate_range m M x :
  m <= x <= M -> -1 <= signedCoordinate m M x <= 1.
Proof.
  intros [Hlo Hhi]. unfold signedCoordinate.
  destruct (decide (M - m = 0)); [lra|].
  assert (0 < M - m) as Hr by lra.
  assert (0 <= (x - m) / (M - m) <= 1) as [H0 H1].
  { split.
    - apply Rle_mult_inv_pos; lra.
    - apply (Rmult_le_reg_r (M - m)); [done|]. field_simplify; lra. }
  split; lra.
Qed.

Lemma normalizeArray_numeric (p0 : list R) (rest : list (list R)) (lo hi : list R) :
  findBounds (numRows (p0 :: rest))
  = Ok {| mins := Num <$> lo; maxs := Num <$> hi |} ->
  length lo = length p0 -> length hi = length p0 ->
  rectangular (length p0) rest ->
  normalizeArray (numRows (p0 :: rest))
  = Ok (numRows ((fun p => imap (fun i x =>
            signedCoordinate (nth i lo 0) (nth i hi 0) x) p) <$> (p0 :: rest))).
Proof.
  intros Hb Hlo Hhi Hrect. unfold normalizeArray. rewrite Hb.
  cbn [mbind result_bind mins maxs]. f_equal.
  unfold numRows. rewrite <- !list_fmap_compose.
  apply list_fmap_ext. intros k p Hp. cbn.
  assert (length p = length p0) as Hlen.
  { destruct k as [|k]; [by injection Hp as <-|].
    apply (proj1 (Forall_lookup _ _) Hrect k p Hp). }
  apply list_eq. intros i.
  rewrite list_lookup_imap, !list_lookup_fmap, list_lookup_imap.
  destruct (p !! i) as [x|] eqn:Hx; [|done]. cbn.
  pose proof (lookup_lt_Some _ _ _ Hx) as Hi.
  rewrite (aget_fmap_Num lo i (nth i lo 0)) by (apply lookup_nth; lia).
  rewrite (aget_fmap_Num hi i (nth i hi 0)) by (apply lookup_nth; lia).
  cbn. unfold signedCoordinate. case_bool_decide.
  - by rewrite decide_True.
  - by rewrite !decide_False.
Qed.

(** X9: on a non-empty set of numeric points of the same size,
    [normalizeArray] returns as many points, of the same size, whose
    coordinates all lie in [[-1, 1]]. *)
Theorem normalizeArray_range (p0 : list R) (rest : list (list R)) :
  rectangular (length p0) rest ->
  exists out : list (list R),
    normalizeArray (numRows (p0 :: rest)) = Ok (numRows out) /\
    Forall2 (fun p q : list R => length q = length p) (p0 :: rest) out /\
    forall k q i y, out !! k = Some q -> q !! i = Some y -> -1 <= y <= 1.
Proof.
  intros Hrect.
  destruct (findBounds_spec p0 rest Hrect) as (lo & hi & Hb & Hlo & Hhi & Hin).
  eexists. split; [by apply (normalizeArray_numeric p0 rest lo hi)|]. split.
  - apply Forall2_fmap_r, Forall_Forall2_diag, Forall_forall.
    intros p _. unfold compose. by rewrite length_imap.
  - intros k q i y. rewrite list_lookup_fmap.
    destruct ((p0 :: rest) !! k) as [p|] eqn:Hp; [|done]. cbn. intros [= <-].
    rewrite list_lookup_imap.
    destruct (p !! i) as [x|] eqn:Hx; [|done]. cbn. intros [= <-].
    assert (length p = length p0) as Hlen.
    { destruct k as [|k]; [by injection Hp as <-|].
      apply (proj1 (Forall_lookup _ _) Hrect k p Hp). }
    pose proof (lookup_lt_Some _ _ _ Hx) as Hi.
    apply signedCoordinate_range.
    destruct (Hin i (nth i lo 0) (nth i hi 0)) as [Hall _];
      [apply lookup_nth; lia..|].
    apply (Hall p x); [|done]. by apply list_elem_of_lookup_2 in Hp.
Qed.

Lemma normalizeArray_range_witness :
  exists out : list (list R),
    normalizeArray (numRows ([1; 5] :: [[3; 2]])) = Ok (numRows out) /\
    Forall2 (fun p q : list R => length q = length p) ([1; 5] :: [[3; 2]]) out /\
    forall k q i y, out !! k = Some q -> q !! i = Some y -> -1 <= y <= 1.
Proof.
  apply (normalizeArray_range [1; 5] [[3; 2]]).
  constructor; [reflexivity|constructor].
Defined.

Lemma denormalize_signed (q lo hi : list R) i y m M :
  q !! i = Some y -> lo !! i = Some m -> hi !! i = Some M ->
  denormalizePoint (Num <$> q) (Num <$> lo) (Num <$> hi) !! i
  = Some (Num (if decide (M - m = 0) then m else (y + 1) / 2 * (M - m) + m)).
Proof.
  intros Hy Hm HM. unfold denormalizePoint.
  rewrite list_lookup_imap, list_lookup_fmap, Hy. cbn.
  rewrite (aget_fmap_Num _ _ _ Hm), (aget_fmap_Num _ _ _ HM). cbn.
  case_bool_decide.
  - by rewrite decide_True.
  - by rewrite !decide_False by lra.
Qed.

(** X10: [denormalizePoint] is the inverse of the normalisation of
    [normalizeArray].  Under the bounds of a set of numeric points of
    the same size, it sends the image of every point of the set back to
    the point, also on the dimensions without extent. *)
Theorem denormalize_inverts_normalizeArray (p0 : list R) (rest : list (list R)) :
  rectangular (length p0) rest ->
  exists (lo hi : list R) (out : list (list R)),
    findBounds (numRows (p0 :: rest))
    = Ok {| mins := Num <$> lo; maxs := Num <$> hi |} /\
    normalizeArray (numRows (p0 :: rest)) = Ok (numRows out) /\
    Forall2 (fun p q : list R =>
      denormalizePoint (Num <$> q) (Num <$> lo) (Num <$> hi) = Num <$> p)
      (p0 :: rest) out.
Proof.
  intros Hrect.
  destruct (findBounds_spec p0 rest Hrect) as (lo & hi & Hb & Hlo & Hhi & Hin).
  exists lo, hi. eexists. split; [done|].
  split; [by apply (normalizeArray_numeric p0 rest lo hi)|].
  apply Forall2_fmap_r, Forall_Forall2_diag, Forall_forall.
  intros p Hp.
  assert (length p = length p0) as Hlen.
  { apply elem_of_cons in Hp as [->|Hp]; [done|].
    by apply (proj1 (Forall_forall _ _) Hrect). }
  apply list_eq. intros i. rewrite list_lookup_fmap.
  destruct (p !! i) as [x|] eqn:Hx.
  - pose proof (lookup_lt_Some _ _ _ Hx) as Hi.
    assert (lo !! i = Some (nth i lo 0)) as Hm by (apply lookup_nth; lia).
    assert (hi !! i = Some (nth i hi 0)) as HM by (apply lookup_nth; lia).
    assert (imap (fun i x => signedCoordinate (nth i lo 0) (nth i hi 0) x) p !! i
            = Some (signedCoordinate (nth i lo 0) (nth i hi 0) x)) as Hy.
    { by rewrite list_lookup_imap, Hx. }
    unfold compose. rewrite (denormalize_signed _ lo hi i _ _ _ Hy Hm HM).
    cbn. do 2 f_equal.
    destruct (Hin i _ _ Hm HM) as [Hall _]. specialize (Hall p x Hp Hx).
    unfold signedCoordinate.
    destruct (decide (nth i hi 0 - nth i lo 0 = 0)); [lra|]. field. done.
  - unfold denormalizePoint.
    by rewrite list_lookup_imap, list_lookup_fmap, list_lookup_imap, Hx.
Qed.

Lemma denormalize_inverts_normalizeArray_witness :
  exists (lo hi : list R) (out : list (list R)),
    findBounds (numRows ([1; 5] :: [[3; 2]]))
    = Ok {| mins := Num <$> lo; maxs := Num <$> hi |} /\
    normalizeArray (numRows ([1; 5] :: [[3; 2]])) = Ok (numRows out) /\
    Forall2 (fun p q : list R =>
      denormalizePoint (Num <$> q) (Num <$> lo) (Num <$> hi) = Num <$> p)
      ([1; 5] :: [[3; 2]]) out.
Proof.
  apply (denormalize_inverts_normalizeArray [1; 5] [[3; 2]]).
  constructor; [reflexivity|constructor].
Defined.

Lemma findBounds_nonempty p points : exists b, findBounds (p :: points) = Ok b.
Proof. rewrite findBounds_unfold. cbn. by eexists. Qed.

Lemma normalizeArray_Ok arr out : normalizeArray arr = Ok out -> length out = length arr.
Proof.
  unfold normalizeArray. intros (b & _ & [= <-])%bind_Ok. by rewrite length_fmap.
Qed.

(** X11: [processOutputs] throws exactly when the list of inputs is
    empty -- there is then no first output to take the number of
    dimensions from -- or when [forward] throws, that is when an entry
    it reads through is missing; when it returns, it returns one row per
    input. *)
Theorem processOutputs_throws inputs layers weights biases :
  (processOutputs inputs layers weights biases = Throw TypeError
   <-> inputs = [] \/ ~ entriesPresent layers weights biases) /\
  (forall rows, processOutputs inputs layers weights biases = Ok rows ->
     length rows = length inputs).
Proof.
  split.
  - split.
    + intros Hthrow. destruct inputs as [|input inputs]; [by left|right].
      intros Hpresent.
      destruct (imapM_total (fun _ input => forward input layers weights biases)
                  (input :: inputs)) as [outputs Houtputs].
      { intros k x _. by apply forward_Ok_iff. }
      unfold processOutputs in Hthrow. rewrite Houtputs in Hthrow.
      cbn [mbind result_bind] in Hthrow.
      apply imapM_inv in Houtputs as [Hlen _].
      destruct outputs as [|o outputs]; [done|].
      unfold normalizeArray in Hthrow.
      destruct (findBounds_nonempty o outputs) as [b Hb]. by rewrite Hb in Hthrow.
    + intros [->|Hmissing]; [done|].
      destruct inputs as [|input inputs]; [done|].
      unfold processOutputs, imapM. cbn [imapM_from].
      apply not_Ok_Throw.
      assert (forward input layers weights biases = Throw TypeError) as ->; [|by intros [? ?]].
      apply not_Ok_Throw. intros Hok. by apply Hmissing, (forward_Ok_iff input).
  - intros rows. unfold processOutputs.
    intros (outputs & Houtputs & Hrows)%bind_Ok.
    apply imapM_inv in Houtputs as [Hlen _].
    apply normalizeArray_Ok in Hrows. lia.
Qed.

(** ** Distances and the geometric loss *)

Lemma ireduceM_from_pure {A St} (f : St -> A -> nat -> result St)
    (h : St -> A -> nat -> St) i acc l :
  (forall s x k, f s x k = Ok (h s x k)) ->
  ireduceM_from f i acc l
  = Ok (foldl (fun s '(k, x) => h s x k) acc (imap (fun k x => ((i + k)%nat, x)) l)).
Proof.
  intros Hf. revert i acc. induction l as [|x l IH]; intros i acc; [done|].
  cbn. rewrite Hf. cbn. rewrite (IH (S i)). rewrite Nat.add_0_r. do 2 f_equal.
  apply imap_ext. intros k y _. cbn. f_equal. lia.
Qed.

(** The sum of squares that [distance] accumulates, on numbers. *)
Lemma distance_sum (p1 p2 : list R) i acc :
  (i + length p1 <= length p2)%nat ->
  ireduceM_from (fun sum val k =>
      q ← elemAt (Some (Num <$> p2)) k;
      Ok (vadd sum (Math_pow (vsub val q) (Num 2)))) i (Num acc) (Num <$> p1)
  = Ok (Num (acc + sqDist p1 (drop i p2))).
Proof.
  revert i acc. induction p1 as [|x p1 IH]; intros i acc Hlen.
  { cbn. unfold sqDist. cbn. do 2 f_equal. lra. }
  cbn in Hlen. cbn [fmap list_fmap ireduceM_from elemAt mbind result_bind].
  destruct (lookup_lt_is_Some_2 p2 i) as [y Hy]; [lia|].
  rewrite (aget_fmap_Num _ _ _ Hy).
  change (vsub (Num x) (Num y)) with (Num (x - y)). rewrite Math_pow_2.
  change (vadd (Num acc) (Num ((x - y) * (x - y))))
    with (Num (acc + (x - y) * (x - y))).
  rewrite IH by lia. do 2 f_equal.
  rewrite (drop_S _ _ _ Hy). unfold sqDist, Rsum. cbn [zip_with foldr]. lra.
Qed.

Lemma sqDist_nonneg p1 p2 : 0 <= sqDist p1 p2.
Proof.
  unfold sqDist, Rsum. revert p2.
  induction p1 as [|x p1 IH]; intros [|y p2]; cbn [zip_with foldr]; try lra.
  specialize (IH p2). pose proof (Rle_0_sqr (x - y)) as Hsq. unfold Rsqr in Hsq. lra.
Qed.

Lemma sqDist_sym p1 p2 : sqDist p1 p2 = sqDist p2 p1.
Proof.
  unfold sqDist, Rsum. revert p2.
  induction p1 as [|x p1 IH]; intros [|y p2]; cbn [zip_with foldr]; try done.
  rewrite (IH p2). lra.
Qed.

Lemma sqDist_zero p1 p2 :
  length p1 = length p2 -> (sqDist p1 p2 = 0 <-> p1 = p2).
Proof.
  revert p2. induction p1 as [|x p1 IH]; intros [|y p2] Hlen; try done.
  cbn in Hlen.
  assert (sqDist (x :: p1) (y :: p2) = (x - y) * (x - y) + sqDist p1 p2) as -> by done.
  pose proof (sqDist_nonneg p1 p2). pose proof (Rle_0_sqr (x - y)) as Hsq.
  unfold Rsqr in Hsq. split.
  - intros Hsum. assert ((x - y) * (x - y) = 0) as Hxy by lra.
    apply Rmult_integral in Hxy. assert (x = y) as -> by lra.
    f_equal. apply IH; [lia|]. lra.
  - intros [= -> ->]. assert (sqDist p2 p2 = 0) as -> by (by apply IH). lra.
Qed.

Lemma distance_numeric (p1 p2 : list R) :
  (length p1 <= length p2)%nat ->
  distance (Num <$> p1) (Some (Num <$> p2)) = Ok (Num (sqrt (sqDist p1 p2))).
Proof.
  intros Hlen. unfold distance, ireduceM.
  rewrite (distance_sum p1 p2 0 0) by (cbn; lia).
  cbn [mbind result_bind]. rewrite drop_0, Rplus_0_l. f_equal.
  unfold Math_sqrt. cbn. pose proof (sqDist_nonneg p1 p2).
  by rewrite decide_False by lra.
Qed.

(** X12: on numeric points of the same size, [distance] is the
    Euclidean distance: it is not negative, it does not depend on the
    order of the two points, and it is zero exactly when the points are
    equal. *)
Theorem distance_euclidean (p1 p2 : list R) :
  length p1 = length p2 ->
  exists d,
    distance (Num <$> p1) (Some (Num <$> p2)) = Ok (Num d) /\
    distance (Num <$> p2) (Some (Num <$> p1)) = Ok (Num d) /\
    0 <= d /\ d * d = sqDist p1 p2 /\ (d = 0 <-> p1 = p2).
Proof.
  intros Hlen. exists (sqrt (sqDist p1 p2)).
  pose proof (sqDist_nonneg p1 p2) as Hpos.
  split; [apply distance_numeric; lia|].
  split; [rewrite (sqDist_sym p1 p2); apply distance_numeric; lia|].
  split; [apply sqrt_pos|]. split; [by apply sqrt_sqrt|].
  rewrite <- (sqDist_zero p1 p2 Hlen). split.
  - intros Hd. by apply sqrt_eq_0.
  - intros ->. apply sqrt_0.
Qed.

Lemma distance_euclidean_witness :
  exists d,
    distance (Num <$> [0; 3]) (Some (Num <$> [4; 0])) = Ok (Num d) /\
    distance (Num <$> [4; 0]) (Some (Num <$> [0; 3])) = Ok (Num d) /\
    0 <= d /\ d * d = sqDist [0; 3] [4; 0] /\ (d = 0 <-> [0; 3] = [4; 0]).
Proof. apply (distance_euclidean [0; 3] [4; 0]). reflexivity. Defined.

Lemma dimWeights_lookup i :
  (i < 3)%nat -> exists w, aget dimWeights i = Num w /\ 1 <= w.
Proof.
  intros Hi. destruct i as [|[|[|i]]]; [| | |lia]; cbn; eexists; split; try done; lra.
Qed.

(** The direct term of the geometric loss, on numbers and on at most
    three dimensions: it is at least the squared distance. *)
Lemma direct_term (p t : list R) i acc :
  (i + length p <= 3)%nat -> (i + length p <= length t)%nat ->
  exists r,
    ireduceM_from (fun sum val dim =>
        Ok (vadd sum (vmul (aget dimWeights dim)
                           (Math_pow (vsub val (aget (Num <$> t) dim)) (Num 2)))))
      i (Num acc) (Num <$> p) = Ok (Num r) /\
    acc + sqDist p (drop i t) <= r.
Proof.
  revert i acc. induction p as [|x p IH]; intros i acc H3 Ht.
  { exists acc. split; [done|]. unfold sqDist, Rsum. cbn. lra. }
  cbn in H3, Ht. cbn [fmap list_fmap ireduceM_from mbind result_bind].
  destruct (lookup_lt_is_Some_2 t i) as [y Hy]; [lia|].
  destruct (dimWeights_lookup i) as (w & -> & Hw); [lia|].
  rewrite (aget_fmap_Num _ _ _ Hy).
  change (vsub (Num x) (Num y)) with (Num (x - y)). rewrite Math_pow_2.
  change (vadd (Num acc) (vmul (Num w) (Num ((x - y) * (x - y)))))
    with (Num (acc + w * ((x - y) * (x - y)))).
  destruct (IH (S i) (acc + w * ((x - y) * (x - y)))) as (r & Hr & Hle); [lia..|].
  exists r. split; [done|].
  rewrite (drop_S _ _ _ Hy).
  assert (sqDist (x :: p) (y :: drop (S i) t)
          = (x - y) * (x - y) + sqDist p (drop (S i) t)) as -> by done.
  pose proof (Rle_0_sqr (x - y)) as Hsq. unfold Rsqr in Hsq. nra.
Qed.

(** X13: on numbers, for a prediction of at most three dimensions, a
    target that has them all and neighbours that have the dimensions of
    the prediction and of the target, [computeGeometricLoss] returns a
    number that is at least the squared distance between the prediction
    and the target. *)
Theorem geometric_loss_nonneg (predicted target : list R)
    (neighborsPred neighborsTarget : list (list R)) :
  (length predicted <= 3)%nat -> (length predicted <= length target)%nat ->
  (length neighborsPred <= length neighborsTarget)%nat ->
  Forall (fun np => length predicted <= length np)%nat neighborsPred ->
  Forall (fun nt => length target <= length nt)%nat neighborsTarget ->
  exists loss,
    computeGeometricLoss (Num <$> predicted) (Num <$> target)
      (numRows neighborsPred) (numRows neighborsTarget) = Ok (Num loss) /\
    0 <= sqDist predicted target <= loss.
Proof.
  intros H3 Ht Hn Hnp Hnt. unfold computeGeometricLoss, ireduceM.
  destruct (direct_term predicted target 0 0) as (direct & -> & Hdirect); [cbn; lia..|].
  cbn [mbind result_bind]. rewrite drop_0, Rplus_0_l in Hdirect.
  change (vadd (Num 0) (Num direct)) with (Num (0 + direct)).
  destruct (for_range_total (fun _ acc => exists r, acc = Num r /\ direct <= r)
    (fun i geometricLoss =>
       distPred ← distance (Num <$> predicted) (numRows neighborsPred !! i);
       distTarget ← distance (Num <$> target) (numRows neighborsTarget !! i);
       Ok (vadd geometricLoss (Math_pow (vsub distPred distTarget) (Num 2))))
    0 (length (numRows neighborsPred)) (Num (0 + direct)))
    as (res & Hres & loss & -> & Hloss).
  - eexists. split; [done|]. lra.
  - intros i acc Hi (r & -> & Hr). unfold numRows in *.
    rewrite length_fmap in Hi. rewrite !list_lookup_fmap.
    destruct (lookup_lt_is_Some_2 neighborsPred i) as [np Hnpi]; [lia|].
    destruct (lookup_lt_is_Some_2 neighborsTarget i) as [nt Hnti]; [lia|].
    rewrite Hnpi, Hnti. cbn [fmap option_fmap option_map].
    rewrite (distance_numeric predicted np)
      by (apply (proj1 (Forall_lookup _ _) Hnp i np Hnpi)).
    rewrite (distance_numeric target nt)
      by (apply (proj1 (Forall_lookup _ _) Hnt i nt Hnti)).
    cbn [mbind result_bind].
    change (vsub (Num ?a) (Num ?b)) with (Num (a - b)). rewrite Math_pow_2.
    eexists. split; [done|]. eexists. split; [done|].
    match goal with |- _ <= _ + ?e * ?e => pose proof (Rle_0_sqr e) as Hsq end.
    unfold Rsqr in Hsq. lra.
  - rewrite Hres. exists loss. split; [done|].
    split; [apply sqDist_nonneg|lra].
Qed.

Lemma geometric_loss_nonneg_witness :
  exists loss,
    computeGeometricLoss (Num <$> [1; 2; 3]) (Num <$> [1; 0; 3])
      (numRows [[0; 0; 0]]) (numRows [[1; 1; 1]]) = Ok (Num loss) /\
    0 <= sqDist [1; 2; 3] [1; 0; 3] <= loss.
Proof.
  apply (geometric_loss_nonneg [1; 2; 3] [1; 0; 3] [[0; 0; 0]] [[1; 1; 1]]);
    try (cbn; lia).
  - constructor; [cbn; lia|constructor].
  - constructor; [cbn; lia|constructor].
Defined.

Lemma vadd_NaN_l v : vadd NaN v = NaN.
Proof. done. Qed.

Lemma vadd_NaN_r v : vadd v NaN = NaN.
Proof. unfold vadd, arith2. by destruct (toNumber v). Qed.

Lemma direct_term_NaN (target l : list value) i :
  ireduceM_from (fun sum val dim =>
      Ok (vadd sum (vmul (aget dimWeights dim)
                         (Math_pow (vsub val (aget target dim)) (Num 2)))))
    i NaN l = Ok NaN.
Proof. revert i. induction l as [|x l IH]; intros i; [done|]. cbn. apply IH. Qed.

Lemma direct_term_beyond (target l : list value) i acc :
  (i <= 3)%nat -> (3 < i + length l)%nat ->
  ireduceM_from (fun sum val dim =>
      Ok (vadd sum (vmul (aget dimWeights dim)
                         (Math_pow (vsub val (aget target dim)) (Num 2)))))
    i acc l = Ok NaN.
Proof.
  revert i acc. induction l as [|x l IH]; intros i acc Hi H3; [cbn in H3; lia|].
  cbn [ireduceM_from mbind result_bind]. cbn in H3.
  destruct (decide (i = 3%nat)) as [->|Hi3].
  - change (aget dimWeights 3) with Undefined.
    change (vmul Undefined ?v) with NaN. rewrite vadd_NaN_r. apply direct_term_NaN.
  - apply IH; lia.
Qed.

Lemma distance_returns p1 p2 : exists d, distance p1 (Some p2) = Ok d.
Proof.
  unfold distance, ireduceM.
  rewrite (ireduceM_from_pure _
    (fun sum val i => vadd sum (Math_pow (vsub val (aget p2 i)) (Num 2)))) by done.
  by eexists.
Qed.

(** X14: the weights of the dimensions are three.  For a prediction of
    four dimensions or more the weight of the fourth is [undefined], so
    [computeGeometricLoss] returns NaN, whatever the numbers are. *)
Theorem geometric_loss_beyond_three (predicted target : list value)
    (neighborsPred neighborsTarget : list (list value)) :
  (3 < length predicted)%nat ->
  (length neighborsPred <= length neighborsTarget)%nat ->
  computeGeometricLoss predicted target neighborsPred neighborsTarget = Ok NaN.
Proof.
  intros H3 Hn. unfold computeGeometricLoss, ireduceM.
  rewrite direct_term_beyond by (cbn; lia). cbn [mbind result_bind].
  rewrite vadd_NaN_r.
  destruct (for_range_total (fun _ acc => acc = NaN)
    (fun i geometricLoss =>
       distPred ← distance predicted (neighborsPred !! i);
       distTarget ← distance target (neighborsTarget !! i);
       Ok (vadd geometricLoss (Math_pow (vsub distPred distTarget) (Num 2))))
    0 (length neighborsPred) NaN) as (res & Hres & ->); [done| |done].
  intros i acc Hi ->.
  destruct (lookup_lt_is_Some_2 neighborsPred i) as [np ->]; [lia|].
  destruct (lookup_lt_is_Some_2 neighborsTarget i) as [nt ->]; [lia|].
  destruct (distance_returns predicted np) as [dp ->].
  destruct (distance_returns target nt) as [dt ->].
  by eexists.
Qed.

Lemma geometric_loss_beyond_three_witness :
  computeGeometricLoss [Num 0; Num 0; Num 0; Num 0] [Num 0; Num 0; Num 0; Num 0] [] []
  = Ok NaN.
Proof. apply geometric_loss_beyond_three; cbn; lia. Defined.

(** ** The nearest neighbours *)

Lemma vgt_pos d : vgt d (Num 0) = true -> exists r, d = Num r /\ 0 < r.
Proof.
  unfold vgt, vlt. destruct d as [r| | |]; cbn; try done.
  - intros H%bool_decide_eq_true_1. by exists r.
  - intros H%bool_decide_eq_true_1. lra.
Qed.

Lemma insertByDist_perm x l : insertByDist x l ≡ₚ x :: l.
Proof.
  induction l as [|y l IH]; [done|]. cbn.
  destruct (vlt _ _); [|done]. rewrite IH. apply Permutation_swap.
Qed.

Lemma sortByDist_perm l : sortByDist l ≡ₚ l.
Proof.
  unfold sortByDist. induction l as [|x l IH]; [done|]. cbn.
  rewrite insertByDist_perm. by rewrite IH.
Qed.

Lemma insertByDist_sorted x l :
  is_num (snd x) -> Forall (fun y => is_num (snd y)) l ->
  StronglySorted byDistance l -> StronglySorted byDistance (insertByDist x l).
Proof.
  intros [rx Hx] Hnum Hsorted.
  induction l as [|y l IH]; [by repeat constructor|].
  apply Forall_cons in Hnum as [[ry Hy] Hnum].
  apply StronglySorted_inv in Hsorted as [Hsorted Hall].
  cbn. rewrite Hx, Hy. unfold vlt. cbn. case_bool_decide as Hlt.
  - apply SSorted_cons; [by apply IH|].
    rewrite insertByDist_perm. constructor; [|done].
    unfold byDistance, numberOf. rewrite Hx, Hy. cbn. lra.
  - apply SSorted_cons; [by apply SSorted_cons|].
    constructor.
    + unfold byDistance, numberOf. rewrite Hx, Hy. cbn. lra.
    + eapply Forall_impl; [exact Hall|]. intros z.
      unfold byDistance, numberOf. rewrite Hx, Hy. cbn. lra.
Qed.

Lemma sortByDist_sorted l :
  Forall (fun y => is_num (snd y)) l -> StronglySorted byDistance (sortByDist l).
Proof.
  unfold sortByDist. induction l as [|x l IH]; intros Hnum; [constructor|].
  apply Forall_cons in Hnum as [Hx Hnum]. cbn.
  apply insertByDist_sorted; [done| |by apply IH].
  fold (sortByDist l). by rewrite sortByDist_perm.
Qed.

(** The points paired with their distances, as [findKNearestNeighbors]
    builds them. *)
Lemma withDist_spec point points :
  exists withDist,
    imapM (fun (_ : nat) p =>
      d ← distance point (Some (arr_elems p)); Ok (p, d)) points = Ok withDist /\
    Forall (fun pd => fst pd ∈ points /\
                      distance point (Some (arr_elems (fst pd))) = Ok (snd pd)) withDist /\
    forall p, p ∈ points -> exists d, (p, d) ∈ withDist.
Proof.
  destruct (imapM_total (fun (_ : nat) p =>
      d ← distance point (Some (arr_elems p)); Ok (p, d)) points) as [withDist Hrun].
  { intros k p _. destruct (distance_returns point (arr_elems p)) as [d ->]. by eexists. }
  exists withDist. split; [done|].
  apply imapM_inv in Hrun as [Hlen Hslots]. split.
  - apply Forall_lookup. intros k pd Hpd.
    destruct (lookup_lt_is_Some_2 points k) as [p Hp].
    { apply lookup_lt_Some in Hpd. lia. }
    destruct (Hslots k p Hp) as (y & Hy & Hk).
    rewrite Hpd in Hk. injection Hk as <-.
    apply bind_Ok in Hy as (d & Hd & [= <-]). cbn.
    split; [by apply list_elem_of_lookup_2 in Hp|done].
  - intros p [k Hp]%list_elem_of_lookup_1.
    destruct (Hslots k p Hp) as (y & Hy & Hk).
    apply bind_Ok in Hy as (d & Hd & [= <-]).
    exists d. by apply list_elem_of_lookup_2 in Hk.
Qed.

Lemma StronglySorted_lookup {A} (R : relation A) l i j a b :
  StronglySorted R l -> (i < j)%nat -> l !! i = Some a -> l !! j = Some b -> R a b.
Proof.
  intros Hsorted Hij Ha Hb.
  rewrite <- (take_drop (S i) l) in Hsorted.
  apply (StronglySorted_app_1_elem_of R _ _ a b Hsorted).
  - apply (list_elem_of_lookup_2 _ i). rewrite lookup_take_lt by lia. done.
  - apply (list_elem_of_lookup_2 _ (j - S i)). rewrite lookup_drop.
    by replace (S i + (j - S i))%nat with j by lia.
Qed.

(** X15: [findKNearestNeighbors] never throws.  It returns at most [k]
    of the points, each at a positive distance from the given point --
    so never the point itself, nor a copy of it --, in the order of
    increasing distance; and a point at a positive distance that it
    leaves out is at least as far as every point it returns, of which
    there are then exactly [k]. *)
Theorem nearest_neighbours point points k :
  exists ns,
    findKNearestNeighbors point points k = Ok ns /\
    (length ns <= k)%nat /\
    (forall n, n ∈ ns ->
       n ∈ points /\
       exists d, distance point (Some (arr_elems n)) = Ok (Num d) /\ 0 < d) /\
    (forall i j n m dn dm, (i <= j)%nat -> ns !! i = Some n -> ns !! j = Some m ->
       distance point (Some (arr_elems n)) = Ok dn ->
       distance point (Some (arr_elems m)) = Ok dm ->
       numberOf dn <= numberOf dm) /\
    (forall p d, p ∈ points -> distance point (Some (arr_elems p)) = Ok (Num d) ->
       0 < d ->
       p ∈ ns \/
       (length ns = k /\
        forall n dn, n ∈ ns -> distance point (Some (arr_elems n)) = Ok dn ->
          numberOf dn <= d)).
Proof.
  destruct (withDist_spec point points) as (withDist & Hrun & Hinv & Hall).
  unfold findKNearestNeighbors. rewrite Hrun. cbn [mbind result_bind].
  set (kept := List.filter (fun pd => vgt (snd pd) (Num 0)) withDist).
  assert (forall pd, pd ∈ kept <-> pd ∈ withDist /\ vgt (snd pd) (Num 0) = true) as Hkept.
  { intros pd. unfold kept. rewrite !list_elem_of_In. apply filter_In. }
  assert (Forall (fun y => is_num (snd y)) kept) as Hnum.
  { apply Forall_forall. intros pd [_ Hpos]%Hkept.
    destruct (vgt_pos _ Hpos) as (r & -> & _). by eexists. }
  pose proof (sortByDist_sorted kept Hnum) as Hsorted.
  pose proof (sortByDist_perm kept) as Hperm.
  set (sorted := sortByDist kept) in *.
  assert (forall pd, pd ∈ sorted ->
            fst pd ∈ points /\
            distance point (Some (arr_elems (fst pd))) = Ok (snd pd) /\
            exists r, snd pd = Num r /\ 0 < r) as Hsound.
  { intros pd Hpd. rewrite Hperm in Hpd. apply Hkept in Hpd as [Hpd Hpos].
    destruct (proj1 (Forall_forall _ _) Hinv pd Hpd) as [H1 H2].
    split; [done|]. split; [done|]. by apply vgt_pos. }
  eexists. split; [reflexivity|].
  split; [rewrite length_fmap, length_take; lia|]. split; [|split].
  - intros n (pd & -> & Hpd)%list_elem_of_fmap.
    assert (pd ∈ sorted) as Hin.
    { rewrite <- (take_drop k sorted). apply elem_of_app. by left. }
    destruct (Hsound pd Hin) as (H1 & H2 & r & Hr & Hpos).
    split; [done|]. exists r. by rewrite H2, Hr.
  - intros i j n m dn dm Hij Hn Hm Hdn Hdm.
    rewrite list_lookup_fmap in Hn, Hm.
    destruct (take k sorted !! i) as [a|] eqn:Ha; [|done].
    destruct (take k sorted !! j) as [b|] eqn:Hb; [|done].
    cbn in Hn, Hm. injection Hn as <-. injection Hm as <-.
    destruct (Hsound a) as (_ & Hda & _).
    { rewrite <- (take_drop k sorted). apply elem_of_app. left.
      by apply list_elem_of_lookup_2 in Ha. }
    destruct (Hsound b) as (_ & Hdb & _).
    { rewrite <- (take_drop k sorted). apply elem_of_app. left.
      by apply list_elem_of_lookup_2 in Hb. }
    rewrite Hda in Hdn. rewrite Hdb in Hdm.
    injection Hdn as <-. injection Hdm as <-.
    destruct (decide (i = j)) as [->|Hne].
    + rewrite Ha in Hb. injection Hb as <-. lra.
    + assert (StronglySorted byDistance (take k sorted)) as Htake.
      { apply (StronglySorted_app_1_l _ _ (drop k sorted)). by rewrite take_drop. }
      apply (StronglySorted_lookup byDistance _ i j a b Htake); [lia|done..].
  - intros p d Hp Hd Hpos.
    destruct (Hall p Hp) as [d' Hin].
    destruct (proj1 (Forall_forall _ _) Hinv _ Hin) as [_ Hd']. cbn in Hd'.
    rewrite Hd in Hd'. injection Hd' as <-.
    assert ((p, Num d) ∈ sorted) as Hsort.
    { rewrite Hperm. apply Hkept. split; [done|]. cbn. unfold vgt, vlt. cbn.
      by apply bool_decide_eq_true_2. }
    rewrite <- (take_drop k sorted) in Hsort.
    apply elem_of_app in Hsort as [Htake|Hdrop].
    + left. apply list_elem_of_fmap. by exists (p, Num d).
    + right. split.
      * rewrite length_fmap, length_take.
        destruct (decide (k <= length sorted)%nat); [lia|].
        rewrite drop_ge in Hdrop by lia. by apply elem_of_nil in Hdrop.
      * intros n dn (pd & -> & Hpd)%list_elem_of_fmap Hdn.
        destruct (Hsound pd) as (_ & Hdpd & _).
        { rewrite <- (take_drop k sorted). apply elem_of_app. by left. }
        rewrite Hdpd in Hdn. injection Hdn as <-.
        assert (StronglySorted byDistance (take k sorted ++ drop k sorted)) as Hs.
        { by rewrite take_drop. }
        apply (StronglySorted_app_1_elem_of byDistance _ _ pd (p, Num d) Hs Hpd Hdrop).
Qed.

Lemma findKNearestNeighbors_members point points k :
  exists ns,
    findKNearestNeighbors point points k = Ok ns /\ forall n, n ∈ ns -> n ∈ points.
Proof.
  destruct (withDist_spec point points) as (withDist & Hrun & Hinv & _).
  unfold findKNearestNeighbors. rewrite Hrun. cbn [mbind result_bind].
  eexists. split; [reflexivity|].
  intros n (pd & -> & Hpd)%list_elem_of_fmap.
  assert (pd ∈ withDist) as Hin.
  { assert (pd ∈ sortByDist (List.filter (fun pd => vgt (snd pd) (Num 0)) withDist))
      as Hs.
    { rewrite <- (take_drop k (sortByDist _)). apply elem_of_app. by left. }
    rewrite sortByDist_perm in Hs. apply list_elem_of_In in Hs.
    apply filter_In in Hs as [Hs _]. by apply list_elem_of_In. }
  by destruct (proj1 (Forall_forall _ _) Hinv pd Hin) as [H1 _].
Qed.

(** An example is found by the identity of its input, when no two
    examples share one. *)
Lemma targetOfInput_found (batch : list Example) d :
  NoDup ((fun e => arr_id (ex_input e)) <$> batch) -> d ∈ batch ->
  targetOfInput batch (ex_input d) = Ok (ex_target d).
Proof.
  unfold targetOfInput. induction batch as [|e batch IH]; intros Hnodup Hd.
  { by apply elem_of_nil in Hd. }
  cbn in Hnodup. apply NoDup_cons in Hnodup as [Hfresh Hnodup]. cbn [find].
  destruct (Nat.eqb_spec (arr_id (ex_input e)) (arr_id (ex_input d))) as [Heq|Hne].
  - apply elem_of_cons in Hd as [->|Hd]; [done|].
    destruct Hfresh. rewrite Heq.
    apply (list_elem_of_fmap_2 (fun e => arr_id (ex_input e))). done.
  - apply elem_of_cons in Hd as [->|Hd]; [done|]. by apply IH.
Qed.

(** X16: the targets of the neighbours are always found.  In a batch
    whose inputs are distinct arrays, every neighbour that
    [findKNearestNeighbors] returns is the input of an example of the
    batch, and the search by identity of lines 452-455 returns the
    target of that example; it never comes back empty-handed. *)
Theorem neighbour_targets_found (batch : list Example) point k :
  NoDup ((fun e => arr_id (ex_input e)) <$> batch) ->
  exists ns ts,
    findKNearestNeighbors point (ex_input <$> batch) k = Ok ns /\
    imapM (fun _ n => targetOfInput batch n) ns = Ok ts /\
    Forall2 (fun n t => exists d, d ∈ batch /\ ex_input d = n /\ ex_target d = t) ns ts.
Proof.
  intros Hnodup.
  destruct (findKNearestNeighbors_members point (ex_input <$> batch) k)
    as (ns & Hns & Hmem).
  exists ns.
  assert (forall n, n ∈ ns -> exists d, d ∈ batch /\ ex_input d = n /\
            targetOfInput batch n = Ok (ex_target d)) as Hfound.
  { intros n (d & -> & Hd)%Hmem%list_elem_of_fmap.
    exists d. split; [done|]. split; [done|]. by apply targetOfInput_found. }
  clear Hmem.
  enough (exists ts, imapM_from (fun _ n => targetOfInput batch n) 0 ns = Ok ts /\
            Forall2 (fun n t => exists d, d ∈ batch /\ ex_input d = n /\ ex_target d = t)
              ns ts) as (ts & Hts & Hall) by (exists ts; by repeat split).
  clear Hns. generalize 0%nat. induction ns as [|n ns IH]; intros i.
  { exists []. by split. }
  destruct (Hfound n) as (d & Hd & Hn & Ht); [apply elem_of_cons; by left|].
  destruct (IH (fun m Hm => Hfound m (proj2 (elem_of_cons _ _ _) (or_intror Hm))) (S i))
    as (ts & Hts & Hall).
  exists (ex_target d :: ts). cbn. rewrite Ht. cbn. rewrite Hts. cbn.
  split; [done|]. constructor; [by exists d|done].
Qed.

(** The search in a batch of three examples, from the input of the
    first one and for two neighbours, as [trainNetwork] asks: the third
    example, then the second, with their targets. *)
Lemma threeExamples_neighbours :
  findKNearestNeighbors [Num 0] (ex_input <$> threeExamples) 2
  = Ok [ {| arr_id := 2; arr_elems := [Num 0.5] |};
         {| arr_id := 1; arr_elems := [Num 1] |} ].
Proof.
  assert (sqrt (sqDist [0] [0]) = 0) as H0.
  { unfold sqDist, Rsum. cbn [zip_with foldr].
    replace ((0 - 0) * (0 - 0) + 0) with 0 by lra. apply sqrt_0. }
  assert (sqrt (sqDist [0] [1]) = 1) as H1.
  { unfold sqDist, Rsum. cbn [zip_with foldr].
    replace ((0 - 1) * (0 - 1) + 0) with 1 by lra. apply sqrt_1. }
  assert (sqrt (sqDist [0] [0.5]) = 0.5) as H2.
  { unfold sqDist, Rsum. cbn [zip_with foldr].
    replace ((0 - 0.5) * (0 - 0.5) + 0) with (0.5 * 0.5) by lra.
    apply sqrt_square. lra. }
  unfold findKNearestNeighbors, threeExamples, imapM.
  cbn [fmap list_fmap ex_input imapM_from arr_elems].
  change (distance [Num 0] (Some [Num 0]))
    with (distance (Num <$> [0]) (Some (Num <$> [0]))).
  change (distance [Num 0] (Some [Num 1]))
    with (distance (Num <$> [0]) (Some (Num <$> [1]))).
  change (distance [Num 0] (Some [Num 0.5]))
    with (distance (Num <$> [0]) (Some (Num <$> [0.5]))).
  rewrite !distance_numeric by (cbn; lia). rewrite H0, H1, H2.
  cbn [mbind result_bind List.filter snd vgt vlt toNumber].
  rewrite bool_decide_eq_false_2 by lra.
  rewrite !bool_decide_eq_true_2 by lra.
  cbn [sortByDist foldr insertByDist snd vsub arith2 vlt toNumber].
  rewrite bool_decide_eq_true_2 by lra.
  reflexivity.
Qed.

Lemma neighbour_targets_found_witness :
  exists ns ts,
    findKNearestNeighbors [Num 0] (ex_input <$> threeExamples) 2 = Ok ns /\
    imapM (fun _ n => targetOfInput threeExamples n) ns = Ok ts /\
    Forall2 (fun n t => exists d, d ∈ threeExamples /\ ex_input d = n /\ ex_target d = t)
      ns ts /\
    ns = [ {| arr_id := 2; arr_elems := [Num 0.5] |};
           {| arr_id := 1; arr_elems := [Num 1] |} ] /\
    ts = [[Num 0.6]; [Num 0.4]].
Proof.
  destruct (neighbour_targets_found threeExamples [Num 0] 2)
    as (ns & ts & Hns & Hts & Hall).
  { cbn. apply (bool_decide_unpack _). vm_compute. exact I. }
  exists ns, ts. split; [exact Hns|]. split; [exact Hts|]. split; [exact Hall|].
  rewrite threeExamples_neighbours in Hns. injection Hns as <-.
  split; [reflexivity|]. cbn in Hts. by injection Hts as <-.
Defined.

(** ** Weights as they are displayed *)

Lemma Int_part_half (n : Z) : Int_part (IZR n + / 2) = n.
Proof. symmetry. apply Int_part_spec. lra. Qed.

Lemma Int_part_nonneg (r : R) : 0 <= r -> (0 <= Int_part r)%Z.
Proof.
  intros Hr. destruct (base_Int_part r) as [_ Hgt].
  apply Z.lt_succ_r. apply lt_IZR. rewrite succ_IZR. lra.
Qed.

Lemma Rsign_cases (x : R) :
  (0 < x /\ Rsign x = 1 /\ Rabs x = x) \/
  (x < 0 /\ Rsign x = -1 /\ Rabs x = - x) \/
  (x = 0 /\ Rsign x = 0 /\ Rabs x = 0).
Proof.
  unfold Rsign. destruct (decide (0 < x)) as [Hpos|Hnpos].
  - left. split; [done|]. split; [done|]. apply Rabs_pos_eq. lra.
  - destruct (decide (x < 0)) as [Hneg|Hnneg].
    + right. left. split; [done|]. split; [done|]. by apply Rabs_left.
    + right. right. assert (x = 0) as -> by lra. by rewrite Rabs_R0.
Qed.

(** Rounding to two decimals moves a number by half a hundredth at
    most. *)
Lemma round2_close (x : R) : Rabs (round2 x - x) <= 0.005.
Proof.
  unfold round2. destruct (base_Int_part (100 * Rabs x + / 2)) as [Hle Hgt].
  set (n := IZR (Int_part (100 * Rabs x + / 2))) in *.
  apply Rabs_le.
  destruct (Rsign_cases x) as [(Hx & -> & Habs)|[(Hx & -> & Habs)|(-> & -> & _)]];
    rewrite ?Habs in *; lra.
Qed.

(** Rounding a rounded number changes nothing. *)
Lemma round2_idem (x : R) : round2 (round2 x) = round2 x.
Proof.
  unfold round2 at 2 3.
  pose proof (Int_part_nonneg (100 * Rabs x + / 2)) as Hn.
  assert (0 <= 100 * Rabs x + / 2) as Hpos by (pose proof (Rabs_pos x); lra).
  specialize (Hn Hpos). set (n := Int_part (100 * Rabs x + / 2)) in *.
  apply IZR_le in Hn.
  assert (round2 0 = 0) as H0.
  { unfold round2. destruct (Rsign_cases 0) as [(H & _)|[(H & _)|(_ & -> & _)]]; lra. }
  destruct (decide (IZR n = 0)) as [Hz|Hnz].
  { rewrite Hz. replace (Rsign x * 0 / 100) with 0 by lra. exact H0. }
  destruct (Rsign_cases x) as [(Hx & -> & _)|[(Hx & -> & _)|(_ & -> & _)]].
  - unfold round2.
    destruct (Rsign_cases (1 * IZR n / 100)) as [(_ & -> & ->)|[(H & _)|(H & _)]];
      [|lra..].
    replace (100 * (1 * IZR n / 100) + / 2) with (IZR n + / 2) by lra.
    by rewrite Int_part_half.
  - unfold round2.
    destruct (Rsign_cases (-1 * IZR n / 100)) as [(H & _)|[(_ & -> & ->)|(H & _)]];
      [lra| |lra].
    replace (100 * - (-1 * IZR n / 100) + / 2) with (IZR n + / 2) by lra.
    by rewrite Int_part_half.
  - replace (0 * IZR n / 100) with 0 by lra. exact H0.
Qed.

Lemma arith1_round2_idem v : arith1 round2 (arith1 round2 v) = arith1 round2 v.
Proof.
  unfold arith1. destruct (toNumber v) as [x|]; cbn; [|done]. by rewrite round2_idem.
Qed.

(** X17: the display weights have the keys of the weights and entries
    of the same lengths; every number is moved by half a hundredth at
    most; and formatting what is formatted changes nothing.
    [formatWeights] of the configuration hook is the same function. *)
Theorem display_weights (weights : Weights) :
  dom (formatWeightsForDisplay weights) = dom weights /\
  formatWeights weights = formatWeightsForDisplay weights /\
  formatWeightsForDisplay (formatWeightsForDisplay weights)
  = formatWeightsForDisplay weights /\
  forall key vals, weights !! key = Some vals ->
    exists vals',
      formatWeightsForDisplay weights !! key = Some vals' /\
      length vals' = length vals /\
      forall i x, vals !! i = Some (Num x) ->
        exists y, vals' !! i = Some (Num y) /\ Rabs (y - x) <= 0.005.
Proof.
  unfold formatWeightsForDisplay. split; [apply dom_fmap_L|]. split; [done|]. split.
  - rewrite <- map_fmap_compose. apply map_fmap_ext. intros key vals _. cbn.
    rewrite <- list_fmap_compose. apply list_fmap_ext. intros i v _. cbn.
    apply arith1_round2_idem.
  - intros key vals Hkey. eexists. rewrite lookup_fmap, Hkey. split; [done|].
    split; [by rewrite length_fmap|].
    intros i x Hx. exists (round2 x). rewrite list_lookup_fmap, Hx.
    split; [done|]. apply round2_close.
Qed.

(** ** The keys of the weight table *)

Lemma underscore_string : String underscore EmptyString = "_"%string.
Proof. done. Qed.

Lemma pretty_N_char_free x : pretty_N_char x <> underscore.
Proof. unfold pretty_N_char. by repeat case_match. Qed.

Lemma pretty_N_go_free x s : underscoreFree s -> underscoreFree (pretty_N_go x s).
Proof.
  revert s. induction (N.lt_wf_0 x) as [x _ IH]; intros s Hs.
  assert (x = 0 \/ 0 < x)%N as [->|Hx] by lia.
  - by rewrite pretty_N_go_0.
  - rewrite pretty_N_go_step by done. apply IH.
    + by apply N.div_lt.
    + split; [apply pretty_N_char_free|done].
Qed.

Lemma pretty_nat_free (n : nat) : underscoreFree (pretty n).
Proof.
  unfold pretty, pretty_nat, pretty, pretty_N. case_decide.
  - cbn. split; [discriminate|done].
  - by apply pretty_N_go_free.
Qed.

Lemma split_at_underscore s1 s2 t1 t2 :
  underscoreFree s1 -> underscoreFree s2 ->
  (s1 +:+ String underscore t1 = s2 +:+ String underscore t2)%string -> s1 = s2.
Proof.
  revert s2. induction s1 as [|c s1 IH]; intros [|c' s2]; cbn.
  - done.
  - intros _ [Hc _] [= Heq _]. by destruct Hc.
  - intros [Hc _] _ [= Heq _]. by destruct Hc.
  - intros [_ H1] [_ H2] [= -> Heq]. f_equal. by apply IH.
Qed.

(** Two layer pairs never share a key. *)
Lemma layerKey_inj i j : layerKey i = layerKey j -> i = j.
Proof.
  unfold layerKey. cbn. intros [= Heq].
  apply (inj pretty). apply (split_at_underscore _ _ _ _ (pretty_nat_free i)
    (pretty_nat_free j) Heq).
Qed.

(** ** The generators of weights, biases and outputs *)

Lemma fillMap_returns {A} (P : A -> Prop) (g : G A) n pos :
  (forall pos, exists y, g pos = Some (Ok y, S pos) /\ P y) ->
  exists ys, fillMap n g pos = Some (Ok ys, (pos + n)%nat) /\
             length ys = n /\ Forall P ys.
Proof.
  intros Hg. revert pos. induction n as [|n IH]; intros pos.
  { exists []. cbn. unfold gret. rewrite Nat.add_0_r. by repeat split. }
  destruct (Hg pos) as (y & Hy & HP). destruct (IH (S pos)) as (ys & Hys & Hlen & Hall).
  exists (y :: ys). cbn. unfold mbind, G_bind, gbind. rewrite Hy, Hys. unfold gret.
  replace (S pos + n)%nat with (pos + S n)%nat by lia.
  split; [done|]. split; [cbn; lia|by constructor].
Qed.

Lemma mapG_returns {A B} (P : A -> B -> Prop) (f : A -> G B) l pos :
  (forall x pos, exists y pos', f x pos = Some (Ok y, pos') /\ P x y) ->
  exists ys pos', mapG f l pos = Some (Ok ys, pos') /\ Forall2 P l ys.
Proof.
  intros Hf. revert pos. induction l as [|x l IH]; intros pos.
  { exists [], pos. by split. }
  destruct (Hf x pos) as (y & pos1 & Hy & HP).
  destruct (IH pos1) as (ys & pos2 & Hys & Hall).
  exists (y :: ys), pos2. cbn. unfold mbind, G_bind, gbind. rewrite Hy, Hys.
  split; [done|by constructor].
Qed.

Lemma for_rangeG_returns {St} (P : nat -> St -> Prop) (body : nat -> St -> G St)
    start n s pos :
  P start s ->
  (forall i t pos, (start <= i < start + n)%nat -> P i t ->
     exists t' pos', body i t pos = Some (Ok t', pos') /\ P (S i) t') ->
  exists s' pos', for_rangeG start n body s pos = Some (Ok s', pos') /\
                  P (start + n)%nat s'.
Proof.
  revert start s pos. induction n as [|n IH]; intros start s pos H0 Hstep.
  { exists s, pos. cbn. by rewrite Nat.add_0_r. }
  destruct (Hstep start s pos) as (t & pos1 & Hb & Ht); [lia|done|].
  destruct (IH (S start) t pos1) as (s' & pos2 & Hrun & Hs'); [done| |].
  { intros i u p Hi. apply Hstep. lia. }
  exists s', pos2. cbn. unfold mbind, G_bind, gbind. rewrite Hb.
  by replace (start + S n)%nat with (S start + n)%nat by lia.
Qed.

Lemma bounded_list (Q : R -> Prop) (l : list value) :
  Forall (fun v => exists r, v = Num r /\ Q r) l ->
  exists rs : list R, l = Num <$> rs /\ Forall Q rs.
Proof.
  induction 1 as [|v l (r & -> & Hr) _ (rs & -> & Hrs)].
  - by exists [].
  - exists (r :: rs). split; [done|by constructor].
Qed.

Lemma weightScale_value inputSize outputSize :
  (0 < inputSize + outputSize)%nat ->
  Math_sqrt (vdiv (Num 10.0) (Num (INR (inputSize + outputSize))))
  = Num (weightScale inputSize outputSize).
Proof.
  intros Hs. unfold vdiv. cbn [toNumber].
  assert (0 < INR (inputSize + outputSize)) as Hpos by (apply lt_0_INR; lia).
  rewrite decide_False by lra. unfold Math_sqrt. cbn [toNumber].
  assert (0 < 10.0 / INR (inputSize + outputSize)) as Hq.
  { apply Rdiv_lt_0_compat; lra. }
  rewrite decide_False by lra. unfold weightScale. do 2 f_equal. lra.
Qed.

(** The weights [generateRandomWeights] returns, and their bound. *)
Lemma generateRandomWeights_numbers random inputSize outputSize pos :
  inUnit random ->
  exists ws : list R,
    generateRandomWeights random inputSize outputSize pos
    = Some (Ok (Num <$> ws), (pos + inputSize * outputSize)%nat) /\
    length ws = (inputSize * outputSize)%nat /\
    Forall (fun w => Rabs w <= weightScale inputSize outputSize) ws.
Proof.
  intros Hunit. unfold generateRandomWeights.
  destruct (decide (inputSize * outputSize = 0)%nat) as [->|Hne].
  { exists []. cbn. unfold gret. rewrite Nat.add_0_r. by repeat split. }
  rewrite weightScale_value by nia.
  destruct (fillMap_returns
    (fun v => exists r, v = Num r /\ Rabs r <= weightScale inputSize outputSize)
    (u ← Math_random random;
     gret (vmul (vsub (vmul u (Num 2)) (Num 1)) (Num (weightScale inputSize outputSize))))
    (inputSize * outputSize) pos) as (ys & Hys & Hlen & Hall).
  { intros p. eexists. split; [reflexivity|]. eexists. split; [reflexivity|].
    rewrite Rabs_mult. pose proof (sqrt_pos (10 / INR (inputSize + outputSize))) as Hs.
    fold (weightScale inputSize outputSize) in Hs.
    rewrite (Rabs_pos_eq (weightScale _ _)) by done.
    assert (Rabs (random p * 2 - 1) <= 1) as Hu.
    { apply Rabs_le. destruct (Hunit p). lra. }
    nra. }
  destruct (bounded_list _ ys Hall) as (ws & -> & Hws).
  exists ws. rewrite length_fmap in Hlen. by repeat split.
Qed.

(** X18: [generateRandomWeights] draws one random number per weight and
    returns [inputSize * outputSize] numbers, none larger in absolute
    value than the square root of [10 / (inputSize + outputSize)]; with
    a layer of no neuron it returns the empty array. *)
Theorem generateRandomWeights_bounded random inputSize outputSize pos :
  inUnit random ->
  exists ws : list R,
    generateRandomWeights random inputSize outputSize pos
    = Some (Ok (Num <$> ws), (pos + inputSize * outputSize)%nat) /\
    length ws = (inputSize * outputSize)%nat /\
    Forall (fun w => Rabs w <= weightScale inputSize outputSize) ws.
Proof. apply generateRandomWeights_numbers. Qed.

Lemma generateRandomWeights_bounded_witness :
  exists ws : list R,
    generateRandomWeights (fun _ => 0.5) 2 3 0%nat
    = Some (Ok (Num <$> ws), (0 + 2 * 3)%nat) /\
    length ws = (2 * 3)%nat /\
    Forall (fun w => Rabs w <= weightScale 2 3) ws.
Proof.
  apply (generateRandomWeights_bounded (fun _ => 0.5) 2 3 0%nat). intros n. lra.
Defined.

Lemma round2_tenth (x : R) : -0.1 <= x <= 0.1 -> -0.1 <= round2 x <= 0.1.
Proof.
  intros Hx. unfold round2.
  assert (0 <= 100 * Rabs x + / 2 <= 10.5) as [Hlo Hhi].
  { pose proof (Rabs_pos x). assert (Rabs x <= 0.1) by (apply Rabs_le; lra). lra. }
  pose proof (Int_part_nonneg _ Hlo) as Hn0. apply IZR_le in Hn0.
  destruct (base_Int_part (100 * Rabs x + / 2)) as [Hle _].
  set (n := Int_part (100 * Rabs x + / 2)) in *.
  assert (IZR n <= 10) as Hn10.
  { apply IZR_le. apply Z.lt_succ_r. apply lt_IZR. rewrite succ_IZR. lra. }
  destruct (Rsign_cases x) as [(_ & -> & _)|[(_ & -> & _)|(_ & -> & _)]]; lra.
Qed.

Lemma bias_row random n pos :
  inUnit random ->
  exists bs : list R,
    fillMap n (u ← Math_random random;
               gret (arith1 round2 (vsub (vmul u (Num 0.2)) (Num 0.1)))) pos
    = Some (Ok (Num <$> bs), (pos + n)%nat) /\
    length bs = n /\ Forall (fun b => -0.1 <= b <= 0.1) bs.
Proof.
  intros Hunit.
  destruct (fillMap_returns (fun v => exists r, v = Num r /\ -0.1 <= r <= 0.1)
    (u ← Math_random random;
     gret (arith1 round2 (vsub (vmul u (Num 0.2)) (Num 0.1)))) n pos)
    as (ys & Hys & Hlen & Hall).
  { intros p. eexists. split; [reflexivity|]. eexists. split; [reflexivity|].
    apply round2_tenth. destruct (Hunit p). lra. }
  destruct (bounded_list _ ys Hall) as (bs & -> & Hbs).
  exists bs. rewrite length_fmap in Hlen. by repeat split.
Qed.

Lemma generateBiases_rows random layers pos :
  inUnit random ->
  exists (bs : list (list R)) pos',
    generateBiases random layers pos = Some (Ok (numRows bs), pos') /\
    Forall2 (fun layer b => length b = num_neurons layer /\
                            Forall (fun x => -0.1 <= x <= 0.1) b) layers bs.
Proof.
  intros Hunit. unfold generateBiases.
  destruct (mapG_returns
    (fun layer row => exists b : list R, row = Num <$> b /\
       length b = num_neurons layer /\ Forall (fun x => -0.1 <= x <= 0.1) b)
    (fun layer => fillMap (num_neurons layer)
       (u ← Math_random random;
        gret (arith1 round2 (vsub (vmul u (Num 0.2)) (Num 0.1))))) layers pos)
    as (rows & pos' & Hrows & Hall).
  { intros layer p. destruct (bias_row random (num_neurons layer) p Hunit)
      as (b & Hb & Hlen & Hbound).
    eexists. eexists. split; [exact Hb|]. by exists b. }
  rewrite Hrows. clear Hrows.
  enough (exists bs : list (list R), rows = numRows bs /\
            Forall2 (fun layer b => length b = num_neurons layer /\
                       Forall (fun x => -0.1 <= x <= 0.1) b) layers bs)
    as (bs & -> & Hbs) by (by exists bs, pos').
  induction Hall as [|layer row layers rows (b & -> & Hlen & Hbound) _ (bs & -> & Hbs)].
  - by exists [].
  - exists (b :: bs). split; [done|]. by constructor.
Qed.

(** X19: [generateBiases] returns one row per layer, with one bias per
    neuron of the layer, each a number between -0.1 and 0.1. *)
Theorem generateBiases_shape random layers pos :
  inUnit random ->
  exists (bs : list (list R)) pos',
    generateBiases random layers pos = Some (Ok (numRows bs), pos') /\
    Forall2 (fun layer b => length b = num_neurons layer /\
                            Forall (fun x => -0.1 <= x <= 0.1) b) layers bs.
Proof. apply generateBiases_rows. Qed.

Lemma generateBiases_shape_witness :
  exists (bs : list (list R)) pos',
    generateBiases (fun _ => 0.5) tinyLayers 0%nat = Some (Ok (numRows bs), pos') /\
    Forall2 (fun layer b => length b = num_neurons layer /\
                            Forall (fun x => -0.1 <= x <= 0.1) b) tinyLayers bs.
Proof. apply (generateBiases_shape (fun _ => 0.5) tinyLayers 0%nat). intros n. lra. Defined.

Lemma numWeights_insert (w : gmap string (list R)) key (ws : list R) (f : R -> R) :
  <[key := arith1 f <$> (Num <$> ws)]> (numWeights w)
  = numWeights (<[key := f <$> ws]> w).
Proof.
  unfold numWeights. rewrite fmap_insert. f_equal.
  rewrite <- !list_fmap_compose. by apply list_fmap_ext.
Qed.

(** The weights [generateInitialWeights] builds: an entry of the right
    length for every pair of adjacent layers. *)
Lemma generateInitialWeights_entries random layers pos :
  inUnit random ->
  exists (w : gmap string (list R)) pos',
    generateInitialWeights random layers pos = Some (Ok (numWeights w), pos') /\
    forall i li li1, layers !! i = Some li -> layers !! (i + 1)%nat = Some li1 ->
      exists entry, w !! layerKey i = Some entry /\
                    length entry = (num_neurons li * num_neurons li1)%nat.
Proof.
  intros Hunit. unfold generateInitialWeights.
  destruct (for_rangeG_returns
    (fun n (W : Weights) => exists w : gmap string (list R), W = numWeights w /\
       forall i li li1, (i < n)%nat ->
         layers !! i = Some li -> layers !! (i + 1)%nat = Some li1 ->
         exists entry, w !! layerKey i = Some entry /\
                       length entry = (num_neurons li * num_neurons li1)%nat)
    (fun i weights =>
       li ← glift (layerAt layers i);
       li1 ← glift (layerAt layers (i + 1));
       rawWeights ← generateRandomWeights random (num_neurons li) (num_neurons li1);
       gret (<[layerKey i := arith1 round2 <$> rawWeights]> weights))
    0 (length layers - 1) ∅ pos) as (W & pos' & Hrun & w & -> & Hw).
  - exists ∅. split; [done|]. intros i li li1 Hi. lia.
  - intros i W p Hi (w & -> & Hw).
    destruct (lookup_lt_is_Some_2 layers i) as [li Hli]; [lia|].
    destruct (lookup_lt_is_Some_2 layers (i + 1)) as [li1 Hli1]; [lia|].
    destruct (generateRandomWeights_numbers random (num_neurons li)
                (num_neurons li1) p Hunit) as (ws & Hws & Hlen & _).
    unfold mbind, G_bind, gbind, glift.
    rewrite (proj2 (layerAt_Ok layers i li) Hli).
    rewrite (proj2 (layerAt_Ok layers (i + 1) li1) Hli1).
    rewrite Hws. unfold gret. rewrite numWeights_insert.
    eexists. eexists. split; [reflexivity|].
    eexists. split; [reflexivity|].
    intros j lj lj1 Hj Hlj Hlj1.
    destruct (decide (j = i)) as [->|Hne].
    + rewrite lookup_insert_eq. eexists. split; [done|].
      rewrite length_fmap. congruence.
    + rewrite lookup_insert_ne by (intros Heq; by apply layerKey_inj in Heq).
      apply (Hw j lj lj1); [lia|done..].
  - exists w, pos'. split; [done|].
    intros i li li1 Hli Hli1. apply (Hw i li li1); [|done..].
    apply lookup_lt_Some in Hli1. lia.
Qed.

(** X20: the tables a configuration starts from.  For every sequence
    of layers, [generateInitialWeights] and then [generateBiases]
    return tables of numbers of matching shape: one bias row of the
    size of each layer and one weight entry of the size of each pair of
    adjacent layers. *)
Theorem initial_configuration_shape random layers pos :
  inUnit random ->
  exists (w : gmap string (list R)) (b : list (list R)) pos1 pos2,
    generateInitialWeights random layers pos = Some (Ok (numWeights w), pos1) /\
    generateBiases random layers pos1 = Some (Ok (numRows b), pos2) /\
    matchingShape layers w b.
Proof.
  intros Hunit.
  destruct (generateInitialWeights_entries random layers pos Hunit)
    as (w & pos1 & Hw & Hentries).
  destruct (generateBiases_rows random layers pos1 Hunit) as (b & pos2 & Hb & Hrows).
  exists w, b, pos1, pos2. split; [done|]. split; [done|]. split; [|done].
  intros i li Hli.
  destruct (Forall2_lookup_l _ _ _ _ _ Hrows Hli) as (row & Hrow & Hlen & _).
  by exists row.
Qed.

Lemma initial_configuration_shape_witness :
  exists (w : gmap string (list R)) (b : list (list R)) pos1 pos2,
    generateInitialWeights (fun _ => 0.5) tinyLayers 0%nat
    = Some (Ok (numWeights w), pos1) /\
    generateBiases (fun _ => 0.5) tinyLayers pos1 = Some (Ok (numRows b), pos2) /\
    matchingShape tinyLayers w b.
Proof.
  apply (initial_configuration_shape (fun _ => 0.5) tinyLayers 0%nat). intros n. lra.
Defined.

(** ** [computeOutputs] *)

Lemma length_iter_push n (o : list value) :
  length (Nat.iter n (fun out => out ++ [Num 0]) o) = (length o + n)%nat.
Proof.
  induction n as [|n IH]; [cbn; lia|].
  change (Nat.iter (S n) (fun out => out ++ [Num 0]) o)
    with (Nat.iter n (fun out => out ++ [Num 0]) o ++ [Num 0]).
  rewrite length_app, IH. cbn. lia.
Qed.

Lemma length_padOutput o : length (padOutput o) = 3%nat.
Proof. unfold padOutput. rewrite length_take, length_iter_push. lia. Qed.

(** X21: [computeOutputs] returns [sampleSize] rows of exactly three
    slots each, whatever the size of the last layer is, provided the
    entries [forward] reads through are in place. *)
Theorem computeOutputs_rows random layers weights biases sampleSize datasetType pos :
  inUnit random -> accepts random ->
  entriesPresent layers weights biases ->
  exists fuel rows pos',
    length rows = sampleSize /\
    Forall (fun row => length row = 3%nat) rows /\
    forall fuel', (fuel <= fuel')%nat ->
      computeOutputs random fuel' layers weights biases sampleSize datasetType pos
      = Some (Ok rows, pos').
Proof.
  intros Hunit Hacc Hpresent.
  destruct (generateSamples_returns random sampleSize datasetType Undefined pos
              Hunit Hacc) as (fuel & inputs & pos' & Hlen & _ & Hrun).
  destruct (imapM_total (fun (_ : nat) input =>
              output ← forward input layers weights biases; Ok (padOutput output))
              inputs) as [rows Hrows].
  { intros k input _.
    destruct (proj2 (forward_Ok_iff input layers weights biases) Hpresent) as [out ->].
    by eexists. }
  exists fuel, rows, pos'.
  pose proof (imapM_inv _ _ _ Hrows) as [Hlen' Hslots].
  split; [lia|]. split.
  - apply Forall_lookup. intros k row Hrow.
    destruct (lookup_lt_is_Some_2 inputs k) as [input Hinput].
    { apply lookup_lt_Some in Hrow. lia. }
    destruct (Hslots k input Hinput) as (y & Hy & Hk).
    rewrite Hrow in Hk. injection Hk as <-.
    apply bind_Ok in Hy as (out & _ & [= <-]). apply length_padOutput.
  - intros fuel' Hfuel. unfold computeOutputs, mbind at 1, G_bind, gbind.
    rewrite (Hrun fuel' Hfuel). unfold glift. by rewrite Hrows.
Qed.

Lemma computeOutputs_rows_witness :
  exists fuel rows pos',
    length rows = 2%nat /\
    Forall (fun row => length row = 3%nat) rows /\
    forall fuel', (fuel <= fuel')%nat ->
      computeOutputs (fun _ => 0.5) fuel' tinyLayers
        {[ "layer0_1"%string := [Num 1] ]} [[Num 0]; [Num 0]] 2 "xor" 0%nat
      = Some (Ok rows, pos').
Proof.
  apply (computeOutputs_rows (fun _ => 0.5) tinyLayers _ _ 2 "xor" 0%nat).
  - intros n. lra.
  - intros pos. exists 0%nat. unfold acceptedAt. lra.
  - apply tiny_entriesPresent.
Defined.

(** ** The shape of the gradients *)

Lemma push_loop_length {A} (body : nat -> list A -> result (list A)) start m wg0 wg' :
  (forall j wg wg1, body j wg = Ok wg1 -> length wg1 = S (length wg)) ->
  for_range start m body wg0 = Ok wg' -> length wg' = (length wg0 + m)%nat.
Proof.
  intros Hbody Hrun.
  apply (for_range_invariant (fun j wg => length wg = (length wg0 + (j - start))%nat))
    in Hrun.
  - rewrite Hrun. lia.
  - lia.
  - intros j t t' Hj Ht Hb. apply Hbody in Hb. lia.
Qed.

Lemma insert_loop_length {A} (body : nat -> list A -> result (list A)) start m l0 l' :
  (forall j l l1, body j l = Ok l1 -> length l1 = length l) ->
  for_range start m body l0 = Ok l' -> length l' = length l0.
Proof.
  intros Hbody Hrun.
  apply (for_range_invariant (fun _ l => length l = length l0)) in Hrun; [done..|].
  intros j t t' _ Ht Hb. apply Hbody in Hb. lia.
Qed.

(** What one round of the backward loop stores. *)
Lemma backwardRound_shape layers weights activations zs l st st' ll ll1 :
  layers !! l = Some ll -> layers !! (l + 1)%nat = Some ll1 ->
  backwardRound layers weights activations zs l st = Ok st' ->
  (exists wg,
     weightGradients (bs_grads st')
     = <[layerKey l := wg]> (weightGradients (bs_grads st)) /\
     length wg = (num_neurons ll * num_neurons ll1)%nat) /\
  biasGradients (bs_grads st')
  = <[(l + 1)%nat := bs_delta st]> (biasGradients (bs_grads st)) /\
  ((0 < l)%nat -> length (bs_delta st') = num_neurons ll).
Proof.
  intros Hll Hll1. unfold backwardRound.
  rewrite (proj2 (layerAt_Ok layers l ll) Hll).
  rewrite (proj2 (layerAt_Ok layers (l + 1) ll1) Hll1).
  cbn [mbind result_bind]. cbn zeta.
  intros (wg & Hwg & Hrest)%bind_Ok.
  assert (length wg = (num_neurons ll * num_neurons ll1)%nat) as Hlen.
  { apply (for_range_invariant
      (fun i (wg : list value) => length wg = (i * num_neurons ll1)%nat)) in Hwg.
    - rewrite Hwg. lia.
    - done.
    - intros i t t' _ Ht Hinner.
      apply push_loop_length in Hinner; [lia|].
      intros j w w1 (a & _ & [= <-])%bind_Ok. rewrite length_app. cbn. lia. }
  case_bool_decide as Hpos.
  - apply bind_Ok in Hrest as (newDelta & Hnew & [= <-]). cbn.
    split; [by exists wg|]. split; [done|]. intros _.
    apply insert_loop_length in Hnew; [by rewrite Hnew, length_replicate|].
    intros i d d1 (acc & _ & Hd)%bind_Ok.
    apply bind_Ok in Hd as (z & _ & [= <-]). by rewrite length_insert.
  - injection Hrest as <-. cbn. split; [by exists wg|]. split; [done|]. lia.
Qed.

(** The activations of the last layer, in the pass of [backpropagate],
    are as many as its neurons. *)
Lemma pass_last_length input layers weights biases pass a l :
  (2 <= length layers)%nat -> last layers = Some l ->
  backpropForwardPass input layers weights biases = Ok pass ->
  last (ps_activations pass) = Some a ->
  length a = num_neurons l.
Proof.
  intros Hlen Hl. unfold backpropForwardPass.
  destruct (length layers - 1)%nat as [|m] eqn:Hm; [lia|].
  rewrite for_range_snoc. intros (st & _ & Hlast)%bind_Ok Ha.
  rewrite (passRound_last _ _ _ _ _ _ Hlast) in Ha. injection Ha as <-.
  unfold passRound in Hlast.
  apply bind_Ok in Hlast as (li & _ & Hlast).
  apply bind_Ok in Hlast as (li1 & Hli1 & Hlast). cbn zeta in Hlast.
  apply bind_Ok in Hlast as (z & Hz & [= <-]). cbn. rewrite length_fmap.
  apply (neuron_loop_inv _ (fun v => v)) in Hz as [Hn _].
  apply layerAt_Ok in Hli1. rewrite last_lookup in Hl.
  replace (0 + m + 1)%nat with (pred (length layers)) in Hli1 by lia.
  congruence.
Qed.

Lemma backwardPass_shape layers weights activations zs delta0 st :
  (forall l, (2 <= length layers)%nat -> last layers = Some l ->
     length delta0 = num_neurons l) ->
  backwardPass layers weights activations zs delta0 = Ok st ->
  (forall l ll, layers !! l = Some ll ->
     exists row, biasGradients (bs_grads st) !! l = Some row /\
                 length row = num_neurons ll) /\
  (forall l0, layers !! 0%nat = Some l0 ->
     biasGradients (bs_grads st) !! 0%nat = Some (replicate (num_neurons l0) (Num 0))) /\
  (forall l ll ll1, layers !! l = Some ll -> layers !! (l + 1)%nat = Some ll1 ->
     exists wg, weightGradients (bs_grads st) !! layerKey l = Some wg /\
                length wg = (num_neurons ll * num_neurons ll1)%nat).
Proof.
  intros Hdelta Hrun. unfold backwardPass in Hrun.
  apply (for_down_invariant (fun k st =>
    ((0 < k)%nat -> forall lk, layers !! k = Some lk ->
       length (bs_delta st) = num_neurons lk) /\
    (forall l ll, layers !! l = Some ll ->
       exists row, biasGradients (bs_grads st) !! l = Some row /\
                   length row = num_neurons ll) /\
    (forall l0, layers !! 0%nat = Some l0 ->
       biasGradients (bs_grads st) !! 0%nat
       = Some (replicate (num_neurons l0) (Num 0))) /\
    (forall l ll ll1, (k <= l)%nat ->
       layers !! l = Some ll -> layers !! (l + 1)%nat = Some ll1 ->
       exists wg, weightGradients (bs_grads st) !! layerKey l = Some wg /\
                  length wg = (num_neurons ll * num_neurons ll1)%nat))) in Hrun.
  - destruct Hrun as (_ & Hrows & Hzero & Hwg). split; [done|]. split; [done|].
    intros l ll ll1. apply Hwg. lia.
  - cbn. split; [|split; [|split]].
    + intros Hk lk Hlk. apply Hdelta; [lia|].
      rewrite last_lookup. by replace (pred (length layers)) with (length layers - 1)%nat by lia.
    + intros l ll Hll. rewrite list_lookup_fmap, Hll. cbn.
      eexists. split; [done|]. by rewrite length_replicate.
    + intros l0 Hl0. by rewrite list_lookup_fmap, Hl0.
    + intros l ll ll1 Hl Hll Hll1. apply lookup_lt_Some in Hll1. lia.
  - intros l t t' Hl (Hd & Hrows & Hzero & Hwg) Hround.
    destruct (lookup_lt_is_Some_2 layers l) as [ll Hll]; [lia|].
    destruct (lookup_lt_is_Some_2 layers (l + 1)) as [ll1 Hll1]; [lia|].
    destruct (backwardRound_shape _ _ _ _ _ _ _ _ _ Hll Hll1 Hround)
      as ((wg & Hwg' & Hlen) & Hbias & Hnew).
    assert (length (bs_delta t) = num_neurons ll1) as Hdl.
    { apply (Hd ltac:(lia)). by replace (S l) with (l + 1)%nat by lia. }
    split; [|split; [|split]].
    + intros Hpos lk Hlk. rewrite Hll in Hlk. injection Hlk as <-. by apply Hnew.
    + intros j lj Hlj. rewrite Hbias.
      destruct (decide (j = (l + 1)%nat)) as [->|Hne].
      * destruct (Hrows _ _ Hlj) as (row & Hrow & _).
        rewrite list_lookup_insert_eq by (by apply lookup_lt_Some in Hrow).
        eexists. split; [done|]. congruence.
      * rewrite list_lookup_insert_ne by done. by apply Hrows.
    + intros l0 Hl0. rewrite Hbias.
      rewrite list_lookup_insert_ne by lia. by apply Hzero.
    + intros j lj lj1 Hj Hlj Hlj1. rewrite Hwg'.
      destruct (decide (j = l)) as [->|Hne].
      * rewrite lookup_insert_eq. exists wg. split; [done|]. congruence.
      * rewrite lookup_insert_ne by (intros Heq; by apply layerKey_inj in Heq).
        apply (Hwg j lj lj1); [lia|done..].
Qed.

(** X22: the gradients [backpropagate] returns have the shape of the
    network: one row of bias gradients per layer, of the size of the
    layer, the row of the first layer being all zeros; and one entry of
    weight gradients per pair of adjacent layers, of the size of the
    pair. *)
Theorem gradients_have_network_shape input target neighbors layers weights biases g :
  backpropagate input target neighbors layers weights biases = Ok g ->
  (forall l ll, layers !! l = Some ll ->
     exists row, biasGradients g !! l = Some row /\ length row = num_neurons ll) /\
  (forall l0, layers !! 0%nat = Some l0 ->
     biasGradients g !! 0%nat = Some (replicate (num_neurons l0) (Num 0))) /\
  (forall l ll ll1, layers !! l = Some ll -> layers !! (l + 1)%nat = Some ll1 ->
     exists wg, weightGradients g !! layerKey l = Some wg /\
                length wg = (num_neurons ll * num_neurons ll1)%nat).
Proof.
  unfold backpropagate. intros (pass & Hpass & Hrest)%bind_Ok. cbn zeta in Hrest.
  apply bind_Ok in Hrest as (lastActivation & Hlast & Hrest).
  apply bind_Ok in Hrest as (delta & Hdelta & Hrest).
  apply bind_Ok in Hrest as (st & Hst & [= <-]).
  apply (backwardPass_shape layers weights (ps_activations pass) (ps_zs pass) delta);
    [|done].
  intros l Hlen Hl.
  apply imapM_inv in Hdelta as [-> _].
  apply (pass_last_length input layers weights biases pass lastActivation l Hlen Hl Hpass).
  unfold rowAt in Hlast. rewrite last_lookup.
  replace (pred (length (ps_activations pass)))
    with (length (ps_activations pass) - 1)%nat by lia.
  by destruct (ps_activations pass !! _) as [row|]; [injection Hlast as ->|].
Qed.

Lemma gradients_have_network_shape_witness :
  let g := {| weightGradients := {[ "layer0_1"%string := [Num 0.5] ]};
              biasGradients := [[Num 0]; [Num 0.5]] |} in
  (forall l ll, tinyLayers !! l = Some ll ->
     exists row, biasGradients g !! l = Some row /\ length row = num_neurons ll) /\
  (forall l0, tinyLayers !! 0%nat = Some l0 ->
     biasGradients g !! 0%nat = Some (replicate (num_neurons l0) (Num 0))) /\
  (forall l ll ll1, tinyLayers !! l = Some ll -> tinyLayers !! (l + 1)%nat = Some ll1 ->
     exists wg, weightGradients g !! layerKey l = Some wg /\
                length wg = (num_neurons ll * num_neurons ll1)%nat).
Proof.
  cbn zeta.
  apply (gradients_have_network_shape [Num 1] [Num 0] [] tinyLayers
           {[ "layer0_1"%string := [Num 0.5; Num 9] ]} [[Num 0]; [Num 0]]).
  unfold backpropagate, backpropForwardPass, passRound, outputDelta, backwardPass,
    backwardRound, getActivationFunction, tinyLayers. js_eval.
  rewrite insert_empty. do 2 f_equal.
  - do 3 f_equal. lra.
  - do 4 f_equal. lra.
Defined.

(** ** The trainer at the edges of its arguments *)

Section TrainerEdges.
Context {Host Ret : Type}.
Implicit Types (s : @State Host).

Lemma neverReturns_bind {A B} (m : @T Host A) (k : A -> @T Host B) s :
  (forall a s1, m s = (Returned a, s1) -> neverReturns (k a) s1) ->
  neverReturns (m ≫= k) s.
Proof.
  intros Hk. unfold neverReturns, mbind, T_bind, tbind.
  destruct (m s) as [[a|[]|] s1].
  - by apply Hk.
  - exists s1. by left.
  - exists s1. by right.
Qed.

(** With a batch size of zero the loop over the batches does not
    advance. *)
Lemma batchLoop_stuck layers biases currentWeights weightVelocities biasVelocities
    l2Factor shuffledData momentum decayedLR fuel st s :
  shuffledData <> [] ->
  neverReturns (batchLoop layers biases currentWeights weightVelocities biasVelocities
                  l2Factor 0 shuffledData momentum decayedLR fuel 0 st) s.
Proof.
  intros Hdata. revert st s. induction fuel as [|fuel IH]; intros st s.
  - cbn [batchLoop]. rewrite bool_decide_eq_true_2.
    + exists s. by right.
    + destruct shuffledData; [done|cbn; lia].
  - cbn [batchLoop]. rewrite bool_decide_eq_true_2.
    + apply neverReturns_bind. intros st' s1 _. apply IH.
    + destruct shuffledData; [done|cbn; lia].
Qed.

Lemma epochLoop_stuck (shuffle : nat -> list Example -> list Example) layers biases
    currentWeights weightVelocities biasVelocities learningRate l2Factor epochs
    (onProgress : option (@Callback Host Ret)) normalizedData n epoch st s :
  shuffle epoch normalizedData <> [] ->
  neverReturns (epochLoop shuffle layers biases currentWeights weightVelocities
                  biasVelocities learningRate l2Factor epochs 0 onProgress
                  normalizedData (S n) epoch st) s.
Proof.
  intros Hdata. cbn [epochLoop]. apply neverReturns_bind. intros [st' avg] s1 Hepoch.
  exfalso. unfold trainEpoch in Hepoch. cbn zeta in Hepoch.
  apply tbind_Returned in Hepoch as (st1 & s2 & Hbatch & _).
  destruct (batchLoop_stuck layers biases currentWeights weightVelocities biasVelocities
    l2Factor (shuffle epoch normalizedData)
    (vadd baseMomentum
       (vmul (vsub (Num 1) baseMomentum) (vdiv (Num (INR epoch)) (Num (INR epochs)))))
    (vmul learningRate (Math_pow (Num 0.998) (Num (INR epoch))))
    (length (shuffle epoch normalizedData))
    {| ls_currentBiases := ls_currentBiases st; ls_totalError := Num 0;
       ls_errors := ls_errors st |} s Hdata) as [s' [H|H]];
    rewrite H in Hbatch; discriminate.
Qed.

End TrainerEdges.

(** X23: a batch size of zero makes the trainer run without end.  With
    at least one epoch to run and a training set that is not empty --
    and that its shuffling does not empty --, [trainNetwork] never
    returns a result: the loop over the batches does not advance, so the
    call does not end, unless it has thrown before. *)
Theorem batch_size_zero_never_returns {Host Ret : Type}
    (shuffle : nat -> list Example -> list Example) (layers : list NeuronLayer)
    (weights biases : nat) (trainingData : list Sample.t)
    (options : @Options Host Ret) (s : @State Host) :
  opt_batchSize options = Some 0%nat ->
  opt_epochs options <> Some 0%nat ->
  trainingData <> [] ->
  (forall epoch data, data <> [] -> shuffle epoch data <> []) ->
  exists s',
    trainNetwork shuffle layers weights biases trainingData options s
    = (Thrown TypeError, s') \/
    trainNetwork shuffle layers weights biases trainingData options s
    = (Diverged, s').
Proof.
  intros Hbatch Hepochs Hdata Hshuffle.
  change (neverReturns (trainNetwork shuffle layers weights biases trainingData options) s).
  unfold trainNetwork. cbn zeta. rewrite Hbatch. cbn [default].
  apply neverReturns_bind; intros w0 s1 _.
  apply neverReturns_bind; intros currentWeights s2 _.
  apply neverReturns_bind; intros b0 s3 _.
  apply neverReturns_bind; intros w0' s4 _.
  apply neverReturns_bind; intros weightVelocities s5 _.
  apply neverReturns_bind; intros b0' s6 _.
  apply neverReturns_bind; intros biasVelocities s7 _.
  apply neverReturns_bind; intros inputBounds s8 _.
  apply neverReturns_bind; intros targetBounds s9 _.
  destruct (default 200%nat (opt_epochs options)) as [|n] eqn:Hn.
  { destruct (opt_epochs options) as [[|e]|]; cbn in Hn; [by destruct Hepochs|done..]. }
  apply neverReturns_bind. intros st s10 Hloop. exfalso.
  unfold Datatypes.id in Hloop.
  match type of Hloop with
  | epochLoop _ _ _ _ _ _ _ _ ?e _ _ ?data _ _ ?st0 ?s0 = _ =>
      destruct (epochLoop_stuck shuffle layers biases currentWeights weightVelocities
                  biasVelocities
                  (orDefault (opt_learningRate options) (Num 0.01))
                  (orDefault (opt_l2Factor options) (Num 0.00005)) e
                  (opt_onProgress options) data n 0 st0 s0) as [s' [H|H]]
  end.
  - apply Hshuffle. destruct trainingData; [done|]. discriminate.
  - rewrite H in Hloop. discriminate.
  - rewrite H in Hloop. discriminate.
Qed.

Lemma batch_size_zero_never_returns_witness :
  let options : @Options unit bool :=
    {| opt_learningRate := Undefined; opt_epochs := None;
       opt_batchSize := Some 0%nat; opt_l2Factor := Undefined;
       opt_onProgress := None |} in
  exists s',
    trainNetwork (fun _ l => l) tinyLayers 1 0 tinyData options tinyStore
    = (Thrown TypeError, s') \/
    trainNetwork (fun _ l => l) tinyLayers 1 0 tinyData options tinyStore
    = (Diverged, s').
Proof.
  cbn zeta. apply batch_size_zero_never_returns; try done.
Defined.

(** X24: on an empty training set [trainNetwork] throws, whatever its
    other arguments are: [findBounds] has no first point to take the
    number of dimensions from.  It throws before the first epoch, and
    it does not run without end. *)
Theorem empty_training_set_throws {Host Ret : Type}
    (shuffle : nat -> list Example -> list Example) (layers : list NeuronLayer)
    (weights biases : nat) (options : @Options Host Ret) (s : @State Host) :
  exists s',
    trainNetwork shuffle layers weights biases [] options s = (Thrown TypeError, s').
Proof.
  unfold trainNetwork. cbn zeta. unfold mbind, T_bind, tbind.
  unfold readWeights at 1.
  destruct (st_heap s !! weights) as [[w0|?]|]; [|by eexists..].
  unfold alloc at 1. cbn zeta. cbn iota.
  unfold readRows at 1.
  destruct (st_heap _ !! biases) as [[?|b0]|]; [by eexists| |by eexists].
  unfold readWeights at 1.
  destruct (st_heap _ !! weights) as [[w0'|?]|]; [|by eexists..].
  unfold alloc at 1. cbn zeta. cbn iota.
  unfold readRows at 1.
  destruct (st_heap _ !! biases) as [[?|b0']|]; [by eexists| |by eexists].
  unfold alloc at 1. cbn zeta. cbn iota.
  by eexists.
Qed.

Lemma fresh_ne (h : gmap nat obj) l : l ∈ dom h -> l <> fresh (dom h).
Proof. intros Hl ->. by apply (is_fresh (dom h)). Qed.

Lemma jsonCopy_numeric (w : gmap string (list R)) (b : list (list R)) :
  jsonCopyWeights (numWeights w) = numWeights w /\
  jsonCopyRows (numRows b) = numRows b.
Proof.
  unfold jsonCopyWeights, jsonCopyRows, numWeights, numRows. split.
  - rewrite <- map_fmap_compose. apply map_fmap_ext. intros key vals _. cbn.
    rewrite <- list_fmap_compose. by apply list_fmap_ext.
  - rewrite <- list_fmap_compose. apply list_fmap_ext. intros i vals _. cbn.
    rewrite <- list_fmap_compose. by apply list_fmap_ext.
Qed.

(** X25: with zero epochs [trainNetwork] returns copies of the tables
    it was given.  For tables of numbers and a training set that is not
    empty, the weights it returns are a new object with the content of
    the weights of the caller, the biases are those of the caller, and
    the error is zero. *)
Theorem zero_epochs_returns_copies {Host Ret : Type}
    (shuffle : nat -> list Example -> list Example) (layers : list NeuronLayer)
    (weights biases : nat) (d : Sample.t) (rest : list Sample.t)
    (options : @Options Host Ret) (s : @State Host)
    (w : gmap string (list R)) (b : list (list R)) :
  st_heap s !! weights = Some (ObjWeights (numWeights w)) ->
  st_heap s !! biases = Some (ObjRows (numRows b)) ->
  opt_epochs options = Some 0%nat ->
  exists r s',
    trainNetwork shuffle layers weights biases (d :: rest) options s = (Returned r, s') /\
    (tr_weights r ∉ dom (st_heap s)) /\
    st_heap s' !! tr_weights r = Some (ObjWeights (numWeights w)) /\
    tr_biases r = numRows b /\
    tr_error r = Num 0 /\
    tr_errors r = [].
Proof.
  intros Hw Hb Hepochs.
  destruct (jsonCopy_numeric w b) as [Hcw Hcb].
  assert (weights ∈ dom (st_heap s)) as Hwd by (apply elem_of_dom; by eexists).
  assert (biases ∈ dom (st_heap s)) as Hbd by (apply elem_of_dom; by eexists).
  unfold trainNetwork. cbn zeta. rewrite Hepochs. cbn [default]. unfold Datatypes.id.
  unfold mbind, T_bind, tbind.
  unfold readWeights at 1. rewrite Hw.
  unfold alloc at 1. cbn zeta. cbn iota.
  set (l1 := fresh (dom (st_heap s))).
  assert (l1 ∉ dom (st_heap s)) as Hl1 by apply is_fresh.
  set (h1 := <[l1 := ObjWeights (jsonCopyWeights (numWeights w))]> (st_heap s)).
  assert (h1 !! weights = Some (ObjWeights (numWeights w))) as Hw1.
  { unfold h1. rewrite lookup_insert_ne; [done|]. intros ->. done. }
  assert (h1 !! biases = Some (ObjRows (numRows b))) as Hb1.
  { unfold h1. rewrite lookup_insert_ne; [done|]. intros ->. done. }
  unfold readRows at 1. cbn [st_heap]. rewrite Hb1.
  unfold readWeights at 1. cbn [st_heap]. rewrite Hw1.
  unfold alloc at 1. cbn zeta. cbn iota. cbn [st_heap st_host].
  set (l2 := fresh (dom h1)).
  set (h2 := <[l2 := _]> h1).
  assert (l1 ∈ dom h1) as Hl1d.
  { unfold h1. apply elem_of_dom. rewrite lookup_insert_eq. by eexists. }
  assert (h2 !! biases = Some (ObjRows (numRows b))) as Hb2.
  { unfold h2. rewrite lookup_insert_ne; [done|].
    apply not_eq_sym, fresh_ne. apply elem_of_dom. by eexists. }
  assert (h2 !! l1 = Some (ObjWeights (jsonCopyWeights (numWeights w)))) as Hl12.
  { unfold h2. rewrite lookup_insert_ne by (by apply not_eq_sym, fresh_ne).
    unfold h1. by rewrite lookup_insert_eq. }
  unfold readRows at 1. cbn [st_heap]. rewrite Hb2.
  unfold alloc at 1. cbn zeta. cbn iota. cbn [st_heap st_host].
  set (l3 := fresh (dom h2)).
  set (h3 := <[l3 := _]> h2).
  assert (h3 !! l1 = Some (ObjWeights (jsonCopyWeights (numWeights w)))) as Hl13.
  { unfold h3. rewrite lookup_insert_ne; [done|].
    apply not_eq_sym, fresh_ne. apply elem_of_dom. by eexists. }
  cbn [fmap list_fmap].
  destruct (findBounds_nonempty (Sample.input d) (Sample.input <$> rest))
    as [inputBounds ->].
  destruct (findBounds_nonempty (Sample.target d) (Sample.target <$> rest))
    as [targetBounds ->].
  unfold lift at 1. unfold lift at 1.
  cbn [epochLoop]. unfold tret at 1.
  unfold readWeights at 1. cbn [st_heap]. rewrite Hl13.
  unfold tret.
  rewrite Hcw in Hl13. rewrite Hcb.
  eexists. eexists. split; [reflexivity|].
  split; [exact Hl1|]. split; [exact Hl13|]. split; [reflexivity|]. split; [|reflexivity].
  cbn [tr_error ls_totalError]. unfold vdiv. cbn [toNumber]. rewrite decide_False.
  - f_equal. unfold Rdiv. lra.
  - rewrite length_imap. cbn [length]. apply not_0_INR. lia.
Qed.

Lemma zero_epochs_returns_copies_witness :
  let options : @Options unit bool :=
    {| opt_learningRate := Undefined; opt_epochs := Some 0%nat;
       opt_batchSize := None; opt_l2Factor := Undefined;
       opt_onProgress := None |} in
  let s : @State unit :=
    {| st_heap := <[0%nat := ObjRows (numRows [[0]; [1]])]>
                    (<[1%nat := ObjWeights (numWeights {[ "layer0_1"%string := [1] ]})]> ∅);
       st_host := tt |} in
  exists r s',
    trainNetwork (fun _ l => l) tinyLayers 1 0
      (Sample.make [Num 0] [Num 0] :: [Sample.make [Num 1] [Num 1]]) options s
    = (Returned r, s') /\
    (tr_weights r ∉ dom (st_heap s)) /\
    st_heap s' !! tr_weights r
    = Some (ObjWeights (numWeights {[ "layer0_1"%string := [1] ]})) /\
    tr_biases r = numRows [[0]; [1]] /\
    tr_error r = Num 0 /\
    tr_errors r = [].
Proof.
  cbn zeta.
  apply (zero_epochs_returns_copies (fun _ l => l) tinyLayers 1 0
           (Sample.make [Num 0] [Num 0]) [Sample.make [Num 1] [Num 1]] _ _
           {[ "layer0_1"%string := [1] ]} [[0]; [1]]).
  - cbn [st_heap]. rewrite lookup_insert_ne by lia. apply lookup_insert_eq.
  - cbn [st_heap]. apply lookup_insert_eq.
  - reflexivity.
Defined.

(** ** The mean squared error of the configuration hook *)

Lemma drop_cons_lookup {A} (l : list A) j x l' :
  drop j l = x :: l' -> l !! j = Some x /\ drop (S j) l = l'.
Proof.
  intros Hdrop.
  assert (l !! j = Some x) as Hx.
  { rewrite <- (Nat.add_0_r j), <- lookup_drop, Hdrop. done. }
  split; [done|]. rewrite (drop_S _ _ _ Hx) in Hdrop. by injection Hdrop.
Qed.

(** The squared differences of one row. *)
Lemma mse_row (row arow l : list R) j acc :
  drop j row = l -> (length row <= length arow)%nat ->
  for_range j (length l) (fun k totalError =>
      a ← elemAt (Some (Num <$> arow)) k;
      Ok (vadd totalError (Math_pow (vsub (aget (Num <$> row) k) a) (Num 2))))
    (Num acc)
  = Ok (Num (acc + sqDist l (drop j arow))).
Proof.
  revert j acc. induction l as [|x l IH]; intros j acc Hdrop Hlen.
  { cbn. do 2 f_equal. unfold sqDist, Rsum. cbn. lra. }
  apply drop_cons_lookup in Hdrop as [Hx Hdrop].
  destruct (lookup_lt_is_Some_2 arow j) as [y Hy].
  { apply lookup_lt_Some in Hx. lia. }
  cbn [length for_range elemAt mbind result_bind].
  rewrite (aget_fmap_Num _ _ _ Hx), (aget_fmap_Num _ _ _ Hy).
  change (vsub (Num x) (Num y)) with (Num (x - y)). rewrite Math_pow_2.
  change (vadd (Num acc) (Num ((x - y) * (x - y))))
    with (Num (acc + (x - y) * (x - y))).
  rewrite (IH (S j)) by done. do 2 f_equal.
  rewrite (drop_S _ _ _ Hy).
  assert (sqDist (x :: l) (y :: drop (S j) arow)
          = (x - y) * (x - y) + sqDist l (drop (S j) arow)) as -> by done.
  lra.
Qed.

Lemma Rsum_sqDist_nonneg (ps actual : list (list R)) :
  0 <= Rsum (zip_with sqDist ps actual).
Proof.
  revert actual. induction ps as [|p ps IH]; intros [|a actual];
    unfold Rsum; cbn [zip_with foldr]; try lra.
  fold (Rsum (zip_with sqDist ps actual)).
  specialize (IH actual). pose proof (sqDist_nonneg p a). lra.
Qed.

(** The squared differences of all the rows. *)
Lemma mse_rows (predicted actual ps : list (list R)) i acc :
  drop i predicted = ps ->
  (forall k row, predicted !! k = Some row ->
     exists arow, actual !! k = Some arow /\ (length row <= length arow)%nat) ->
  for_range i (length ps) (fun i totalError =>
      row ← rowAt (numRows predicted) i;
      for_range 0 (length row) (fun j totalError =>
        a ← elemAt (numRows actual !! i) j;
        Ok (vadd totalError (Math_pow (vsub (aget row j) a) (Num 2)))) totalError)
    (Num acc)
  = Ok (Num (acc + Rsum (zip_with sqDist ps (drop i actual)))).
Proof.
  revert i acc. induction ps as [|p ps IH]; intros i acc Hdrop Hshape.
  { cbn. do 2 f_equal. unfold Rsum. cbn. lra. }
  apply drop_cons_lookup in Hdrop as [Hp Hdrop].
  destruct (Hshape i p Hp) as (arow & Harow & Hlen).
  cbn [length for_range]. unfold rowAt, numRows.
  rewrite !list_lookup_fmap, Hp, Harow. cbn [fmap option_fmap option_map mbind result_bind].
  rewrite length_fmap.
  pose proof (mse_row p arow p 0 acc (drop_0 p) Hlen) as Hrow.
  rewrite drop_0 in Hrow. rewrite Hrow. clear Hrow. cbn [mbind result_bind].
  pose proof (IH (S i) (acc + sqDist p arow) Hdrop Hshape) as Hrest.
  unfold rowAt, numRows in Hrest. rewrite Hrest. do 2 f_equal.
  rewrite (drop_S _ _ _ Harow). unfold Rsum. cbn [zip_with foldr]. lra.
Qed.

(** X26: [computeMSE] throws on an empty list of predictions.  On
    numeric rows, with a first row that is not empty and an actual row
    at least as long for every predicted one, it returns the sum of the
    squared differences divided by the number of rows times the length
    of the first row -- whatever the lengths of the other rows --, which
    is not negative. *)
Theorem computeMSE_mean (p0 : list R) (rest actual : list (list R)) :
  (0 < length p0)%nat ->
  (forall k row, (p0 :: rest) !! k = Some row ->
     exists arow, actual !! k = Some arow /\ (length row <= length arow)%nat) ->
  computeMSE [] (numRows actual) = Throw TypeError /\
  exists m,
    computeMSE (numRows (p0 :: rest)) (numRows actual) = Ok (Num m) /\
    m * INR (S (length rest) * length p0) = Rsum (zip_with sqDist (p0 :: rest) actual) /\
    0 <= m.
Proof.
  intros Hp0 Hshape. split; [done|].
  unfold computeMSE. cbn zeta.
  assert (length (numRows (p0 :: rest)) = length (p0 :: rest)) as ->.
  { unfold numRows. by rewrite length_fmap. }
  rewrite (mse_rows (p0 :: rest) actual (p0 :: rest) 0 0 (drop_0 _) Hshape).
  cbn [mbind result_bind]. rewrite drop_0, Rplus_0_l.
  change (rowAt (numRows (p0 :: rest)) 0) with (Ok (Num <$> p0)).
  cbn [mbind result_bind]. rewrite length_fmap. cbn [length].
  assert (0 < INR (S (length rest) * length p0)) as Hn.
  { apply lt_0_INR. nia. }
  unfold vdiv. cbn [toNumber]. rewrite decide_False by lra.
  eexists. split; [reflexivity|].
  pose proof (Rsum_sqDist_nonneg (p0 :: rest) actual) as Hsum.
  split.
  - field. lra.
  - apply Rle_mult_inv_pos; [done|lra].
Qed.

Lemma computeMSE_mean_witness :
  computeMSE [] (numRows [[1; 1]; [0; 0]]) = Throw TypeError /\
  exists m,
    computeMSE (numRows ([1; 3] :: [[0; 0]])) (numRows [[1; 1]; [0; 0]]) = Ok (Num m) /\
    m * INR (S (length [[0; 0]]) * length [1; 3])
    = Rsum (zip_with sqDist ([1; 3] :: [[0; 0]]) [[1; 1]; [0; 0]]) /\
    0 <= m.
Proof.
  apply (computeMSE_mean [1; 3] [[0; 0]] [[1; 1]; [0; 0]]).
  - cbn. lia.
  - intros [|[|k]] row; cbn; intros [= <-]; eexists; split; try reflexivity; cbn; lia.
Defined.

(** ** The training data of the configuration hook *)

Lemma ensureBounds_clamped_id v : clamped v -> ensureBounds v = v.
Proof.
  intros [->|(r & -> & Hr)]; [done|]. by apply ensureBounds_inside.
Qed.

Lemma targetShape_form type point :
  exists z, targetShape type point = [aget point 0; aget point 1; z].
Proof. unfold targetShape. repeat case_decide; by eexists. Qed.

(** X27: the data [createTrainingData] builds.  It returns as many
    inputs and as many targets as asked; every input has two
    coordinates, clamped into [[-1, 1]]; and the target of an input has
    three: the two coordinates of the input and a height, clamped into
    [[-1, 1]] as well. *)
Theorem training_data_shape random size type pos :
  inUnit random -> accepts random ->
  exists fuel data pos',
    (forall fuel', (fuel <= fuel')%nat ->
       createTrainingData random fuel' size type pos = Some (Ok data, pos')) /\
    length (td_inputs data) = size /\
    Forall (fun p => length p = 2%nat /\ Forall clamped p) (td_inputs data) /\
    Forall2 (fun p t => exists z, t = [aget p 0; aget p 1; z] /\ clamped z)
      (td_inputs data) (td_targets data).
Proof.
  intros Hunit Hacc.
  destruct (generateSamples_returns random size type (Num 0.1) pos Hunit Hacc)
    as (fuel & samples & pos' & Hlen & Hall & Hrun).
  exists fuel. eexists. exists pos'. split; [|split; [|split]].
  - intros fuel' Hfuel. unfold createTrainingData, generateDataset. cbn zeta.
    unfold mbind, G_bind, gbind. cbn [orDefault]. rewrite (Hrun fuel' Hfuel). reflexivity.
  - cbn [td_inputs]. by rewrite length_fmap.
  - cbn [td_inputs]. apply Forall_fmap. eapply Forall_impl; [exact Hall|].
    intros p [Hp _]. cbn. split; [by rewrite length_fmap|].
    apply Forall_fmap, Forall_forall. intros v _. apply ensureBounds_clamped.
  - cbn [td_inputs td_targets]. rewrite <- !list_fmap_compose.
    apply Forall2_fmap, Forall_Forall2_diag, Forall_forall. intros p Hp.
    unfold compose.
    destruct (proj1 (Forall_forall _ _) Hall p Hp) as [Hlen2 _].
    destruct p as [|a [|b [|c p]]]; try done.
    cbn [fmap list_fmap].
    destruct (targetShape_form type
      [Math_max (Num (-1)) (Math_min (Num 1) a); Math_max (Num (-1)) (Math_min (Num 1) b)])
      as [z ->].
    exists (ensureBounds z). split; [|apply ensureBounds_clamped].
    cbn [fmap list_fmap aget lookup list_lookup default from_option].
    f_equal; [|f_equal];
      apply ensureBounds_clamped_id, (ensureBounds_clamped _).
Qed.

Lemma training_data_shape_witness :
  exists fuel data pos',
    (forall fuel', (fuel <= fuel')%nat ->
       createTrainingData (fun _ => 0.5) fuel' 3 "spiral" 0%nat = Some (Ok data, pos')) /\
    length (td_inputs data) = 3%nat /\
    Forall (fun p => length p = 2%nat /\ Forall clamped p) (td_inputs data) /\
    Forall2 (fun p t => exists z, t = [aget p 0; aget p 1; z] /\ clamped z)
      (td_inputs data) (td_targets data).
Proof.
  apply (training_data_shape (fun _ => 0.5) 3 "spiral" 0%nat).
  - intros n. lra.
  - intros pos. exists 0%nat. unfold acceptedAt. lra.
Defined.
